(** * Publish orchestration of the TikTok Shop affiliate poster

    A shallow embedding of the control flow of [tiktok_poster.py],
    [ai_writer.py], [db_manager.py], [product_manager.py] and [main.py],
    together with the properties of the publish orchestration subsystem.

    Conventions of the embedding.
    - Wall-clock time ([time.time()], [datetime.now()]) is an integer number
      of clock ticks; the clock is part of the state and only moves when the
      program polls or sleeps.
    - Network collaborators (status endpoint, token endpoint, text service,
      image host) are scripted oracles carried by the environment.
    - A Python dictionary with a fixed set of keys is a record; a key that is
      absent or null is [None].
    - Loops that Python runs until a condition on the clock holds take a fuel
      argument; termination lemmas show how much fuel is enough. *)

From Stdlib Require Import ZArith List String Ascii Bool Lia.
From Stdlib Require Import Permutation Sorted.
Import ListNotations.

Local Open Scope string_scope.
Local Open Scope Z_scope.

(** Outcome of running a piece of the program: out of fuel, an uncaught
    Python exception, or a returned value. *)
Inductive run (A : Type) : Type :=
| OutOfFuel : run A
| Raised : string -> run A
| Returned : A -> run A.

Arguments OutOfFuel {A}.
Arguments Raised {A} _.
Arguments Returned {A} _.

(** Python truthiness of an optional string: [None] and the empty string are
    falsy. *)
Definition truthy (s : option string) : bool :=
  match s with
  | Some EmptyString => false
  | Some _ => true
  | None => false
  end.

(** ** tiktok_poster.py: the publish state machine *)

Module Poster.

Definition STATUS_PROCESSING_UPLOAD : string := "PROCESSING_UPLOAD".
Definition STATUS_PROCESSING_DOWNLOAD : string := "PROCESSING_DOWNLOAD".
Definition STATUS_SEND_TO_USER_INBOX : string := "SEND_TO_USER_INBOX".
Definition STATUS_PUBLISH_COMPLETE : string := "PUBLISH_COMPLETE".
Definition STATUS_FAILED : string := "FAILED".

(** The dictionary returned by [check_publish_status]:
    [{"status": ..., "fail_reason": ...}]. The status is whatever the
    platform sent, possibly nothing. *)
Record status_result : Type := {
  sr_status : option string;
  sr_fail_reason : string
}.

(** One scripted answer of the status endpoint: how long the request takes
    and what [check_publish_status] returns ([None] for a failed check). *)
Record poll : Type := {
  duration : Z;
  reply : option status_result
}.

(** The status source: the answer to the n-th status check. *)
Definition status_source : Type := nat -> poll.

(** The injected clock, with the number of status checks made so far. *)
Record clock : Type := {
  time : Z;
  polls : nat
}.

(** The dictionary returned by [wait_for_publish]. *)
Record publish_result : Type := {
  success : bool;
  status : string;
  fail_reason : string
}.

Definition check_publish_status (src : status_source) (c : clock)
  : option status_result * clock :=
  (reply (src (polls c)),
   {| time := time c + duration (src (polls c)); polls := S (polls c) |}).

(** [time.sleep(interval)]: a negative length raises [ValueError]. *)
Definition sleep (interval : Z) (c : clock) : option clock :=
  if interval <? 0 then None
  else Some {| time := time c + interval; polls := polls c |}.

(** [status == CONSTANT] for a status that may be missing. *)
Definition status_is (s : option string) (k : string) : bool :=
  match s with
  | Some v => String.eqb v k
  | None => false
  end.

Definition TIMEOUT_result : publish_result :=
  {| success := false; status := "TIMEOUT";
     fail_reason := "処理がタイムアウトしました" |}.

(** The [while] loop of [wait_for_publish]. *)
Fixpoint wait_loop (fuel : nat) (src : status_source)
    (start_time timeout interval : Z) (c : clock)
  : run (publish_result * clock) :=
  match fuel with
  | O => OutOfFuel
  | S fuel' =>
    if time c - start_time <? timeout then
      let (status_result, c1) := check_publish_status src c in
      match status_result with
      | None =>
        match sleep interval c1 with
        | None => Raised "ValueError"
        | Some c2 => wait_loop fuel' src start_time timeout interval c2
        end
      | Some sr =>
        if status_is (sr_status sr) STATUS_PUBLISH_COMPLETE then
          Returned ({| success := true; status := STATUS_PUBLISH_COMPLETE;
                       fail_reason := "" |}, c1)
        else if status_is (sr_status sr) STATUS_FAILED then
          Returned ({| success := false; status := STATUS_FAILED;
                       fail_reason := sr_fail_reason sr |}, c1)
        else
          match sleep interval c1 with
          | None => Raised "ValueError"
          | Some c2 => wait_loop fuel' src start_time timeout interval c2
          end
      end
    else Returned (TIMEOUT_result, c)
  end.

Definition wait_for_publish (fuel : nat) (src : status_source)
    (timeout interval : Z) (c : clock) : run (publish_result * clock) :=
  let start_time := time c in
  wait_loop fuel src start_time timeout interval c.

(** A reply on which the loop of [wait_for_publish] returns. *)
Definition stops_wait (r : option status_result) : bool :=
  match r with
  | None => false
  | Some sr =>
    status_is (sr_status sr) STATUS_PUBLISH_COMPLETE
    || status_is (sr_status sr) STATUS_FAILED
  end.

(** The result built from a reply on which the loop returns. *)
Definition result_of (sr : status_result) : publish_result :=
  if status_is (sr_status sr) STATUS_PUBLISH_COMPLETE then
    {| success := true; status := STATUS_PUBLISH_COMPLETE; fail_reason := "" |}
  else
    {| success := false; status := STATUS_FAILED;
       fail_reason := sr_fail_reason sr |}.

(** The clock after one round that did not return: a status check followed
    by a sleep. *)
Definition next_round (src : status_source) (interval : Z) (c : clock)
  : clock :=
  {| time := time c + duration (src (polls c)) + interval;
     polls := S (polls c) |}.

(** The clock at the start of the k-th round counted from [c]. *)
Fixpoint round_start (src : status_source) (interval : Z) (k : nat)
    (c : clock) : clock :=
  match k with
  | O => c
  | S k' => round_start src interval k' (next_round src interval c)
  end.

(** Elapsed time reported by a finished run. *)
Definition elapsed {A : Type} (c0 : clock) (r : run (A * clock)) : option Z :=
  match r with
  | Returned (_, c) => Some (time c - time c0)
  | _ => None
  end.

End Poster.

(** ** tiktok_poster.py: the token lifecycle manager *)

Module TokenManager.

(** The credential record kept in [tiktok_tokens.json]. [expires_at] is the
    parsed ISO timestamp, in clock ticks. *)
Record tokens : Type := {
  access_token : option string;
  refresh_token : option string;
  expires_at : option Z;
  open_id : option string
}.

(** What is on disk at [tokens_file]. *)
Inductive file_state : Type :=
| Absent
| Unreadable
| Stored (t : tokens).

(** How a write to [tokens_file] goes: it succeeds, it fails before the file
    is opened (the old content stays), or it fails after the file was
    truncated. *)
Inductive disk : Type :=
| WriteOk
| OpenFails
| DumpFails.

(** The JSON body of a token endpoint response; [None] is a missing key. *)
Record token_response : Type := {
  res_access_token : option string;
  res_refresh_token : option string;
  res_expires_in : option Z;
  res_open_id : option string
}.

(** Everything outside the manager. [token_endpoint] answers a refresh-token
    grant; [None] stands for a transport error, a non-2xx status or a body
    that is not JSON, all of which raise inside the [try]. *)
Record env : Type := {
  TIKTOK_ACCESS_TOKEN : string;
  now : Z;
  token_endpoint : string -> option token_response;
  disk_state : disk
}.

(** The manager instance with the file it owns, and counters for the calls
    of [refresh_access_token] and for the requests sent to the token
    endpoint. *)
Record manager : Type := {
  tokens_file : file_state;
  _tokens : option tokens;
  refresh_calls : nat;
  endpoint_calls : nat
}.

(** [not tokens] for a dictionary: it is empty. *)
Definition is_empty (t : tokens) : bool :=
  match access_token t, refresh_token t, expires_at t, open_id t with
  | None, None, None, None => true
  | _, _, _, _ => false
  end.

Definition dict_truthy (t : option tokens) : bool :=
  match t with
  | Some d => negb (is_empty d)
  | None => false
  end.

Definition load_tokens (m : manager) : option tokens * manager :=
  match tokens_file m with
  | Stored t =>
    (Some t, {| tokens_file := tokens_file m; _tokens := Some t;
                refresh_calls := refresh_calls m;
                endpoint_calls := endpoint_calls m |})
  | Unreadable => (None, m)
  | Absent => (None, m)
  end.

Definition save_tokens (e : env) (t : tokens) (m : manager)
  : bool * manager :=
  match disk_state e with
  | WriteOk =>
    (true, {| tokens_file := Stored t; _tokens := Some t;
              refresh_calls := refresh_calls m;
              endpoint_calls := endpoint_calls m |})
  | OpenFails => (false, m)
  | DumpFails =>
    (false, {| tokens_file := Unreadable; _tokens := _tokens m;
               refresh_calls := refresh_calls m;
               endpoint_calls := endpoint_calls m |})
  end.

Definition count_refresh (m : manager) : manager :=
  {| tokens_file := tokens_file m; _tokens := _tokens m;
     refresh_calls := S (refresh_calls m);
     endpoint_calls := endpoint_calls m |}.

Definition count_request (m : manager) : manager :=
  {| tokens_file := tokens_file m; _tokens := _tokens m;
     refresh_calls := refresh_calls m;
     endpoint_calls := S (endpoint_calls m) |}.

Definition refresh_access_token (e : env) (m0 : manager) : bool * manager :=
  let m := count_refresh m0 in
  (* tokens = self._tokens or self.load_tokens() *)
  let (tokens, m1) :=
    if dict_truthy (_tokens m) then (_tokens m, m) else load_tokens m in
  match tokens with
  | None => (false, m1)
  | Some t =>
    if negb (dict_truthy (Some t)) || negb (truthy (refresh_token t)) then
      (false, m1)
    else
      match refresh_token t with
      | None => (false, m1)
      | Some rt =>
        let m2 := count_request m1 in
        match token_endpoint e rt with
        | None => (false, m2)
        | Some result =>
          match res_access_token result with
          | Some at' =>
            let new_tokens :=
              {| access_token := Some at';
                 refresh_token :=
                   match res_refresh_token result with
                   | Some r => Some r
                   | None => Some rt
                   end;
                 expires_at :=
                   Some (now e +
                         match res_expires_in result with
                         | Some s => s
                         | None => 86400
                         end);
                 open_id :=
                   match res_open_id result with
                   | Some o => Some o
                   | None => open_id t
                   end |} in
            (* the value returned by save_tokens is dropped *)
            let (_, m3) := save_tokens e new_tokens m2 in
            (true, m3)
          | None => (false, m2)
          end
        end
      end
  end.

Definition get_access_token (e : env) (m : manager)
  : option string * manager :=
  if negb (String.eqb (TIKTOK_ACCESS_TOKEN e) "") then
    (Some (TIKTOK_ACCESS_TOKEN e), m)
  else
    let (tokens, m1) := load_tokens m in
    match tokens with
    | None => (None, m1)
    | Some t =>
      if is_empty t then (None, m1)
      else
        match expires_at t with
        | Some expires_time =>
          if expires_time <? now e then
            let (ok, m2) := refresh_access_token e m1 in
            if ok then
              (match _tokens m2 with
               | Some t2 => access_token t2
               | None => None
               end, m2)
            else (None, m2)
          else (access_token t, m1)
        | None => (access_token t, m1)
        end
    end.

(** The record has [expires_at] set and in the past. *)
Definition expired (e : env) (t : tokens) : bool :=
  match expires_at t with
  | Some expires_time => expires_time <? now e
  | None => false
  end.

End TokenManager.

(** ** ai_writer.py: the content generator *)

Module Writer.

(** The dictionary built by [parse_response]. *)
Record post : Type := {
  body : string;
  hashtags : list string;
  full_text : string
}.

(** The entries of the [errors] list of [validate_post_text]. *)
Inductive defect : Type :=
| BodyTooLong (len : nat)
| MissingPR
| TooFewHashtags (count : nat)
| TooManyHashtags (count : nat).

Record validation : Type := {
  valid : bool;
  errors : list defect
}.

(** One answer of the generative-text service: the text of the first content
    block, or an [anthropic.APIError]. *)
Inductive api_reply : Type :=
| APIError
| Text (response_text : string).

(** Counters kept along a run of [generate_post_text]: requests sent to the
    service and calls of [validate_post_text]. *)
Record tally : Type := {
  calls : nat;
  validations : nat
}.

Section Generator.

(** The regular-expression and string primitives of the Python library,
    taken as given: the two [re.search] patterns of [parse_response] (each
    returning group 1 of a match), [re.findall] and [re.sub] with the hashtag
    pattern, and [str.strip]. *)
Variable search_body : string -> option string.
Variable search_pr : string -> option string.
Variable findall_hashtags : string -> list string.
Variable remove_hashtags : string -> string.
Variable strip : string -> string.

(** The service answers the n-th request of a run (the prompt is the same at
    every attempt). *)
Variable service : nat -> api_reply.

Definition join_space (l : list string) : string :=
  String.concat " " l.

Definition newline2 : string :=
  String (ascii_of_nat 10) (String (ascii_of_nat 10) EmptyString).

Definition parse_response (response_text : string) : post :=
  let body :=
    match search_body response_text with
    | Some g => strip g
    | None =>
      match search_pr response_text with
      | Some g => strip g
      | None => ""
      end
    end in
  let hashtags := firstn 7 (findall_hashtags response_text) in
  let full_text :=
    if String.eqb body "" then ""
    else (body ++ newline2 ++ join_space hashtags)%string in
  {| body := body; hashtags := hashtags; full_text := full_text |}.

Definition validate_post_text (text : string) : validation :=
  let body := strip (remove_hashtags text) in
  let e1 :=
    if (300 <? String.length body)%nat
    then [BodyTooLong (String.length body)] else [] in
  let e2 := if String.prefix "PR" text then [] else [MissingPR] in
  let hashtags := findall_hashtags text in
  let e3 :=
    if (List.length hashtags <? 5)%nat
    then [TooFewHashtags (List.length hashtags)]
    else if (7 <? List.length hashtags)%nat
    then [TooManyHashtags (List.length hashtags)]
    else [] in
  let errors := (e1 ++ e2 ++ e3)%list in
  {| valid := (List.length errors =? 0)%nat; errors := errors |}.

(** The [for attempt in range(max_retries + 1)] loop: [n] iterations are
    left and [attempt] is the loop variable. *)
Fixpoint attempts (n attempt : nat) (t : tally) : option post * tally :=
  match n with
  | O => (None, t)
  | S n' =>
    let t1 := {| calls := S (calls t); validations := validations t |} in
    match service attempt with
    | APIError => attempts n' (S attempt) t1
    | Text response_text =>
      let result := parse_response response_text in
      if String.eqb (body result) "" then attempts n' (S attempt) t1
      else
        let t2 := {| calls := calls t1;
                     validations := S (validations t1) |} in
        let validation := validate_post_text (full_text result) in
        if valid validation then (Some result, t2)
        else attempts n' (S attempt) t2
    end
  end.

Definition generate_post_text (ANTHROPIC_API_KEY : string) (max_retries : Z)
  : option post * tally :=
  let t0 := {| calls := 0; validations := 0 |} in
  if String.eqb ANTHROPIC_API_KEY "" then (None, t0)
  else attempts (Z.to_nat (max_retries + 1)) 0 t0.

(** The reply parses to a non-empty body. *)
Definition has_body (r : api_reply) : bool :=
  match r with
  | APIError => false
  | Text s => negb (String.eqb (body (parse_response s)) "")
  end.

(** The reply parses to a non-empty body whose assembled text passes
    validation. *)
Definition accepted (r : api_reply) : bool :=
  match r with
  | APIError => false
  | Text s =>
    negb (String.eqb (body (parse_response s)) "")
    && valid (validate_post_text (full_text (parse_response s)))
  end.

(** How many of the replies to the requests [a], ..., [a + n - 1] parse to a
    non-empty body. *)
Definition bodies (a n : nat) : nat :=
  List.length (filter (fun j => has_body (service j)) (seq a n)).

End Generator.

End Writer.

(** ** db_manager.py: products and the publish log *)

Module Db.

(** A row of the [products] table. *)
Record product : Type := {
  id : Z;
  item_id : string;
  item_name : string;
  price : option Z;
  image_url : option string;
  category : option string;
  description : option string;
  affiliate_url : option string;
  last_posted_at : option string;
  post_count : Z;
  is_active : bool;
  created_at : string;
  updated_at : string
}.

(** The dictionary passed to [add_product]. *)
Record product_data : Type := {
  pd_item_id : string;
  pd_item_name : string;
  pd_price : option Z;
  pd_image_url : option string;
  pd_category : option string;
  pd_description : option string;
  pd_affiliate_url : option string
}.

(** The dictionary passed to [update_product], restricted to the allowed
    fields: [None] is a key that is not in the dictionary. *)
Record product_update : Type := {
  up_item_name : option string;
  up_price : option (option Z);
  up_image_url : option (option string);
  up_category : option (option string);
  up_description : option (option string);
  up_affiliate_url : option (option string);
  up_last_posted_at : option (option string);
  up_post_count : option Z;
  up_is_active : option bool
}.

(** A row of the [posts] table. *)
Record post_row : Type := {
  post_id : Z;
  post_item_id : string;
  post_text : option string;
  hosted_image_url : option string;
  tiktok_publish_id : option string;
  post_status : string;
  posted_at : string
}.

(** The dictionary passed to [add_post_log]. *)
Record post_data : Type := {
  pl_item_id : string;
  pl_post_text : option string;
  pl_hosted_image_url : option string;
  pl_tiktok_publish_id : option string;
  pl_status : option string
}.

(** The database: both tables in row order and the AUTOINCREMENT
    sequences. *)
Record database : Type := {
  products : list product;
  posts : list post_row;
  products_seq : Z;
  posts_seq : Z
}.

Definition has_item_id (i : string) (p : product) : bool :=
  String.eqb (item_id p) i.

(** [INSERT OR REPLACE INTO products (item_id, ..., updated_at)]: a row with
    the same [item_id] is deleted, and the new row takes the column defaults
    for every column that is not listed ([created_at] defaults to the
    current timestamp, for which [now] stands as well). *)
Definition add_product (now : string) (d : product_data) (db : database)
  : Z * database :=
  let rowid := products_seq db + 1 in
  let row :=
    {| id := rowid;
       item_id := pd_item_id d;
       item_name := pd_item_name d;
       price := pd_price d;
       image_url := pd_image_url d;
       category := pd_category d;
       description := pd_description d;
       affiliate_url := pd_affiliate_url d;
       last_posted_at := None;
       post_count := 0;
       is_active := true;
       created_at := now;
       updated_at := now |} in
  (rowid,
   {| products :=
        (filter (fun p => negb (has_item_id (pd_item_id d) p)) (products db)
         ++ [row])%list;
      posts := posts db;
      products_seq := rowid;
      posts_seq := posts_seq db |}).

Definition get_product (i : string) (db : database) : option product :=
  find (has_item_id i) (products db).

(** The three sort keys of [get_products_for_posting]. *)
Definition never_posted_rank (p : product) : Z :=
  match last_posted_at p with
  | None => 0
  | Some _ => 1
  end.

(** Ascending order on a nullable text column: NULL sorts first. *)
Definition timestamp_leb (a b : option string) : bool :=
  match a, b with
  | None, _ => true
  | Some _, None => false
  | Some x, Some y => String.leb x y
  end.

Definition rotation_leb (p q : product) : bool :=
  if never_posted_rank p <? never_posted_rank q then true
  else if never_posted_rank q <? never_posted_rank p then false
  else if post_count p <? post_count q then true
  else if post_count q <? post_count p then false
  else timestamp_leb (last_posted_at p) (last_posted_at q).

(** The comparison of the query as a relation. *)
Definition rotation_le (p q : product) : Prop := rotation_leb p q = true.

(** The rotation order in the words of the specification: a product that
    was never posted (null [last_posted_at]) comes before any product that
    was; among products alike in that respect the lower [post_count] comes
    first, and on equal counts the older [last_posted_at]. *)
Definition spec_rotation_le (p q : product) : Prop :=
  match last_posted_at p, last_posted_at q with
  | None, Some _ => True
  | Some _, None => False
  | None, None => post_count p <= post_count q
  | Some x, Some y =>
    post_count p < post_count q
    \/ (post_count p = post_count q /\ String.leb x y = true)
  end.

(** [ORDER BY]: rows are inserted one by one into the sorted result. *)
Fixpoint insert_row (p : product) (l : list product) : list product :=
  match l with
  | [] => [p]
  | q :: l' =>
    if rotation_leb p q then p :: q :: l' else q :: insert_row p l'
  end.

Definition order_by (l : list product) : list product :=
  fold_right insert_row [] l.

Definition get_products_for_posting (db : database) : list product :=
  order_by (filter is_active (products db)).

Definition set_field {A : Type} (new : option A) (old : A) : A :=
  match new with
  | Some v => v
  | None => old
  end.

Definition apply_update (now : string) (u : product_update) (p : product)
  : product :=
  {| id := id p;
     item_id := item_id p;
     item_name := set_field (up_item_name u) (item_name p);
     price := set_field (up_price u) (price p);
     image_url := set_field (up_image_url u) (image_url p);
     category := set_field (up_category u) (category p);
     description := set_field (up_description u) (description p);
     affiliate_url := set_field (up_affiliate_url u) (affiliate_url p);
     last_posted_at := set_field (up_last_posted_at u) (last_posted_at p);
     post_count := set_field (up_post_count u) (post_count p);
     is_active := set_field (up_is_active u) (is_active p);
     created_at := created_at p;
     updated_at := now |}.

(** [if not updates]: the dictionary names no allowed field. *)
Definition no_updates (u : product_update) : bool :=
  match up_item_name u, up_price u, up_image_url u, up_category u,
        up_description u, up_affiliate_url u, up_last_posted_at u,
        up_post_count u, up_is_active u with
  | None, None, None, None, None, None, None, None, None => true
  | _, _, _, _, _, _, _, _, _ => false
  end.

Definition update_product (now : string) (i : string) (u : product_update)
    (db : database) : bool * database :=
  if no_updates u then (false, db)
  else
    (existsb (has_item_id i) (products db),
     {| products :=
          map (fun p => if has_item_id i p then apply_update now u p else p)
              (products db);
        posts := posts db;
        products_seq := products_seq db;
        posts_seq := posts_seq db |}).

Definition add_post_log (now : string) (d : post_data) (db : database)
  : Z * database :=
  let rowid := posts_seq db + 1 in
  let row :=
    {| post_id := rowid;
       post_item_id := pl_item_id d;
       post_text := pl_post_text d;
       hosted_image_url := pl_hosted_image_url d;
       tiktok_publish_id := pl_tiktok_publish_id d;
       post_status :=
         match pl_status d with
         | Some s => s
         | None => "pending"
         end;
       posted_at := now |} in
  (rowid,
   {| products := products db;
      posts := (posts db ++ [row])%list;
      products_seq := products_seq db;
      posts_seq := rowid |}).

(** The posting statistics of a product, if it is in the table. *)
Definition statistics (i : string) (db : database)
  : option (Z * option string) :=
  match get_product i db with
  | Some p => Some (post_count p, last_posted_at p)
  | None => None
  end.

End Db.

(** ** product_manager.py *)

Module ProductManager.

Definition get_next_product_for_posting (db : Db.database)
  : option Db.product :=
  match Db.get_products_for_posting db with
  | p :: _ => Some p
  | [] => None
  end.

End ProductManager.

(** ** main.py: the orchestrator *)

Module Main.

(** The collaborators of one orchestration run: the image host, the content
    generator applied to the selected product, the publish-init request
    (image URL and caption to a [publish_id], [None] when
    [init_photo_post] fails), the status endpoint, and the current time as an
    ISO string. *)
Record env : Type := {
  get_hosted_url : string -> option string;
  generate_post_text : Db.product -> option Writer.post;
  init_photo_post : string -> string -> option string;
  status_endpoint : Poster.status_source;
  now : string
}.

Record world : Type := {
  db : Db.database;
  clock : Poster.clock
}.

(** The dictionary returned by [post_product]. *)
Record post_outcome : Type := {
  publish_id : string;
  success : bool;
  status : string;
  fail_reason : string
}.

Definition post_product (fuel : nat) (e : env) (post_text image_url : string)
    (c : Poster.clock) : run (option post_outcome * Poster.clock) :=
  match init_photo_post e image_url post_text with
  | None => Returned (None, c)
  | Some publish_id =>
    match Poster.wait_for_publish fuel (status_endpoint e) 120 5 c with
    | OutOfFuel => OutOfFuel
    | Raised msg => Raised msg
    | Returned (result, c') =>
      Returned
        (Some {| publish_id := publish_id;
                 success := Poster.success result;
                 status := Poster.status result;
                 fail_reason := Poster.fail_reason result |}, c')
    end
  end.

(** The body of the [try] block of [run_single_post]. *)
Definition run_single_post_body (fuel : nat) (e : env) (dry_run : bool)
    (product_id : option string) (w : world) : run (bool * world) :=
  (* 1. select the product *)
  let product :=
    if truthy product_id then
      match product_id with
      | Some i => Db.get_product i (db w)
      | None => None
      end
    else ProductManager.get_next_product_for_posting (db w) in
  match product with
  | None => Returned (false, w)
  | Some product =>
    (* 2. host the image *)
    if negb (truthy (Db.image_url product)) then Returned (false, w)
    else
      match Db.image_url product with
      | None => Returned (false, w)
      | Some image_url =>
        let hosted := get_hosted_url e image_url in
        if negb (truthy hosted) then Returned (false, w)
        else
          match hosted with
          | None => Returned (false, w)
          | Some hosted_image_url =>
            (* 3. generate the text *)
            match generate_post_text e product with
            | None => Returned (false, w)
            | Some post_data =>
              if dry_run then Returned (true, w)
              else
                (* 4. publish *)
                match post_product fuel e (Writer.full_text post_data)
                        hosted_image_url (clock w) with
                | OutOfFuel => OutOfFuel
                | Raised msg => Raised msg
                | Returned (None, c') =>
                  Returned (false, {| db := db w; clock := c' |})
                | Returned (Some result, c') =>
                  if success result then
                    (* 5. record the outcome *)
                    let (_, db1) :=
                      Db.add_post_log (now e)
                        {| Db.pl_item_id := Db.item_id product;
                           Db.pl_post_text :=
                             Some (Writer.full_text post_data);
                           Db.pl_hosted_image_url := Some hosted_image_url;
                           Db.pl_tiktok_publish_id :=
                             Some (publish_id result);
                           Db.pl_status := Some "published" |} (db w) in
                    let (_, db2) :=
                      Db.update_product (now e) (Db.item_id product)
                        {| Db.up_item_name := None;
                           Db.up_price := None;
                           Db.up_image_url := None;
                           Db.up_category := None;
                           Db.up_description := None;
                           Db.up_affiliate_url := None;
                           Db.up_last_posted_at := Some (Some (now e));
                           Db.up_post_count :=
                             Some (Db.post_count product + 1);
                           Db.up_is_active := None |} db1 in
                    Returned (true, {| db := db2; clock := c' |})
                  else
                    let (_, db1) :=
                      Db.add_post_log (now e)
                        {| Db.pl_item_id := Db.item_id product;
                           Db.pl_post_text :=
                             Some (Writer.full_text post_data);
                           Db.pl_hosted_image_url := Some hosted_image_url;
                           Db.pl_tiktok_publish_id :=
                             Some (publish_id result);
                           Db.pl_status := Some "failed" |} (db w) in
                    Returned (false, {| db := db1; clock := c' |})
                end
            end
          end
      end
  end.

(** [run_single_post]: an exception raised inside the [try] block is logged
    and the run reports failure. *)
Definition run_single_post (fuel : nat) (e : env) (dry_run : bool)
    (product_id : option string) (w : world) : run (bool * world) :=
  match run_single_post_body fuel e dry_run product_id w with
  | Raised _ => Returned (false, w)
  | r => r
  end.

(** The run reached the publish step: a product was selected, its image was
    hosted and the text was generated. *)
Definition past_generation (e : env) (product_id : option string) (w : world)
    (product : Db.product) (hosted_image_url : string) (p : Writer.post)
  : Prop :=
  (if truthy product_id then
     match product_id with
     | Some i => Db.get_product i (db w)
     | None => None
     end
   else ProductManager.get_next_product_for_posting (db w)) = Some product
  /\ (exists image_url,
        Db.image_url product = Some image_url
        /\ truthy (Some image_url) = true
        /\ get_hosted_url e image_url = Some hosted_image_url)
  /\ truthy (Some hosted_image_url) = true
  /\ generate_post_text e product = Some p.

End Main.

(** ** Concrete scenarios used to exercise the definitions *)

Module Scenarios.

Definition clock0 : Poster.clock := {| Poster.time := 0; Poster.polls := 0 |}.

Definition processing : Poster.poll :=
  {| Poster.duration := 0;
     Poster.reply :=
       Some {| Poster.sr_status := Some Poster.STATUS_PROCESSING_UPLOAD;
               Poster.sr_fail_reason := "" |} |}.

Definition complete : Poster.poll :=
  {| Poster.duration := 0;
     Poster.reply :=
       Some {| Poster.sr_status := Some Poster.STATUS_PUBLISH_COMPLETE;
               Poster.sr_fail_reason := "" |} |}.

Definition rejected : Poster.poll :=
  {| Poster.duration := 0;
     Poster.reply :=
       Some {| Poster.sr_status := Some Poster.STATUS_FAILED;
               Poster.sr_fail_reason := "picture_size_check_failed" |} |}.

Definition in_inbox : Poster.poll :=
  {| Poster.duration := 0;
     Poster.reply :=
       Some {| Poster.sr_status := Some Poster.STATUS_SEND_TO_USER_INBOX;
               Poster.sr_fail_reason := "" |} |}.

(** The status endpoint answers at once, and reports SEND_TO_USER_INBOX at
    every check. *)
Definition inbox_source : Poster.status_source := fun _ => in_inbox.

(** The status endpoint answers at once, reports PROCESSING_UPLOAD twice and
    PUBLISH_COMPLETE from the third check on. *)
Definition third_poll_source : Poster.status_source :=
  fun n => if (n <? 2)%nat then processing else complete.

(** The status endpoint answers at once and reports PROCESSING_UPLOAD at
    every check. *)
Definition processing_source : Poster.status_source := fun _ => processing.

(** The status endpoint answers at once and reports FAILED at the first
    check. *)
Definition rejecting_source : Poster.status_source := fun _ => rejected.

(** A credential record that expired at tick 1000. *)
Definition expired_record : TokenManager.tokens :=
  {| TokenManager.access_token := Some "old_token";
     TokenManager.refresh_token := Some "refresh_1";
     TokenManager.expires_at := Some 1000;
     TokenManager.open_id := Some "user_1" |}.

(** A credential record that is valid until tick 5000. *)
Definition fresh_record : TokenManager.tokens :=
  {| TokenManager.access_token := Some "valid_token";
     TokenManager.refresh_token := Some "refresh_1";
     TokenManager.expires_at := Some 5000;
     TokenManager.open_id := Some "user_1" |}.

(** The token endpoint grants a new access token for one hour. *)
Definition granting_endpoint (refresh_token : string)
  : option TokenManager.token_response :=
  Some {| TokenManager.res_access_token := Some "new_token";
          TokenManager.res_refresh_token := None;
          TokenManager.res_expires_in := Some 3600;
          TokenManager.res_open_id := None |}.

(** No override token, tick 2000, a granting endpoint and the given
    behaviour of the disk. *)
Definition token_env (d : TokenManager.disk) : TokenManager.env :=
  {| TokenManager.TIKTOK_ACCESS_TOKEN := "";
     TokenManager.now := 2000;
     TokenManager.token_endpoint := granting_endpoint;
     TokenManager.disk_state := d |}.

(** A new manager over a token file holding the given record. *)
Definition manager_with (t : TokenManager.tokens) : TokenManager.manager :=
  {| TokenManager.tokens_file := TokenManager.Stored t;
     TokenManager._tokens := None;
     TokenManager.refresh_calls := 0;
     TokenManager.endpoint_calls := 0 |}.

(** A text service whose first reply has no body, whose second reply lacks
    the disclosure marker and whose third reply is compliant; replies are
    written as [body|tag tag ...]. *)
Definition reply_without_body : string := "|#a #b #c #d #e".
Definition reply_without_marker : string := "hello|#a #b #c #d #e".
Definition compliant_reply : string := "PR hello|#a #b #c #d #e".

Definition scripted_service (n : nat) : Writer.api_reply :=
  match n with
  | O => Writer.Text reply_without_body
  | S O => Writer.Text reply_without_marker
  | _ => Writer.Text compliant_reply
  end.

(** Stand-ins for the regular expressions on the replies above: the body is
    what precedes the bar, and every reply carries the same five tags. *)
Fixpoint before_bar (s : string) : string :=
  match s with
  | EmptyString => EmptyString
  | String c s' =>
    if Ascii.eqb c "|"%char then EmptyString else String c (before_bar s')
  end.

Definition toy_search_body (s : string) : option string :=
  Some (before_bar s).
Definition toy_search_pr (s : string) : option string := None.
Definition toy_findall_hashtags (s : string) : list string :=
  ["#a"; "#b"; "#c"; "#d"; "#e"].
Definition toy_remove_hashtags (s : string) : string := before_bar s.
Definition toy_strip (s : string) : string := s.

(** A product row with the given identity and posting statistics. *)
Definition product_row (rowid : Z) (i : string) (count : Z)
    (last : option string) : Db.product :=
  {| Db.id := rowid;
     Db.item_id := i;
     Db.item_name := "neck fan";
     Db.price := Some 2980;
     Db.image_url := Some "https://x/img.jpg";
     Db.category := Some "gadget";
     Db.description := None;
     Db.affiliate_url := None;
     Db.last_posted_at := last;
     Db.post_count := count;
     Db.is_active := true;
     Db.created_at := "2025-01-01 00:00:00";
     Db.updated_at := "2025-01-01T00:00:00" |}.

(** A was never posted, B was posted twice, C carries a count of 0 and a
    posting date. *)
Definition product_A : Db.product := product_row 1 "A" 0 None.
Definition product_B : Db.product :=
  product_row 2 "B" 2 (Some "2025-03-01T09:00:00").
Definition product_C : Db.product :=
  product_row 3 "C" 0 (Some "2025-02-01T09:00:00").

Definition database_of (rows : list Db.product) : Db.database :=
  {| Db.products := rows; Db.posts := [];
     Db.products_seq := 3; Db.posts_seq := 0 |}.

(** Product p1 after three successful publishes. *)
Definition posted_p1 : Db.product :=
  product_row 1 "p1" 3 (Some "2025-03-01T09:00:00").

(** The same product as ingestion delivers it again. *)
Definition p1_data : Db.product_data :=
  {| Db.pd_item_id := "p1";
     Db.pd_item_name := "neck fan";
     Db.pd_price := Some 2980;
     Db.pd_image_url := Some "https://x/img.jpg";
     Db.pd_category := Some "gadget";
     Db.pd_description := None;
     Db.pd_affiliate_url := None |}.

(** Product p1 before its first publish. *)
Definition new_p1 : Db.product := product_row 1 "p1" 0 None.

Definition generated_post : Writer.post :=
  {| Writer.body := "PR hello";
     Writer.hashtags := ["#a"; "#b"; "#c"; "#d"; "#e"];
     Writer.full_text := "PR hello #a #b #c #d #e" |}.

(** Hosting and generation succeed; publish-init answers [init] and the
    status endpoint is [src]. *)
Definition orchestrator_env (init : option string)
    (src : Poster.status_source) : Main.env :=
  {| Main.get_hosted_url := fun _ => Some "https://host/img.jpg";
     Main.generate_post_text := fun _ => Some generated_post;
     Main.init_photo_post := fun _ _ => init;
     Main.status_endpoint := src;
     Main.now := "2025-04-01T10:00:00" |}.

Definition world0 : Main.world :=
  {| Main.db := database_of [new_p1]; Main.clock := clock0 |}.

End Scenarios.

(** ** Outcomes of a token refresh *)

Module TokenOutcomes.

Import TokenManager.

(** The refresh did not go through: the refresh token is missing or empty,
    the request failed, or the answer carries no access token. *)
Definition refresh_refused (e : env) (t : tokens) : Prop :=
  truthy (refresh_token t) = false
  \/ exists rt,
       refresh_token t = Some rt
       /\ (token_endpoint e rt = None
           \/ exists resp,
                token_endpoint e rt = Some resp
                /\ res_access_token resp = None).


End TokenOutcomes.

(** ** ai_writer.py: style presets and batches of variations *)

Module Variations.

Import Writer.

(** [STYLE_TEMPLATES], in insertion order. *)
Definition STYLE_TEMPLATES : list (string * string) :=
  [("enthusiastic", "熱狂的でテンション高めに、商品の魅力を強調して");
   ("casual", "友達に話しかけるようにカジュアルで親しみやすく");
   ("informative", "商品の特徴や使い方を分かりやすく説明するように");
   ("story", "実際に使った体験談風に、ビフォーアフターを交えて")].

(** [list(STYLE_TEMPLATES.keys())]. *)
Definition style_names : list string := map fst STYLE_TEMPLATES.

(** [STYLE_TEMPLATES.get(style, STYLE_TEMPLATES["casual"])], the style
    instruction put into the prompt. *)
Definition style_instruction (style : string) : string :=
  match find (fun kv => String.eqb (fst kv) style) STYLE_TEMPLATES with
  | Some kv => snd kv
  | None => "友達に話しかけるようにカジュアルで親しみやすく"
  end.

(** The Python slice [l[:count]]: a negative [count] drops that many
    elements from the end. *)
Definition slice_to {A : Type} (l : list A) (count : Z) : list A :=
  if 0 <=? count then firstn (Z.to_nat count) l
  else firstn (List.length l - Z.to_nat (- count)) l.

(** A generated post with the [style] key that
    [generate_multiple_variations] adds. *)
Record styled_post : Type := {
  generated : post;
  style : string
}.

(** [l1] is [l2] with some elements left out. *)
Inductive subsequence {A : Type} : list A -> list A -> Prop :=
| subsequence_nil : subsequence [] []
| subsequence_keep (x : A) (l1 l2 : list A) :
    subsequence l1 l2 -> subsequence (x :: l1) (x :: l2)
| subsequence_skip (x : A) (l1 l2 : list A) :
    subsequence l1 l2 -> subsequence l1 (x :: l2).

Section Batch.

Variable search_body : string -> option string.
Variable search_pr : string -> option string.
Variable findall_hashtags : string -> list string.
Variable remove_hashtags : string -> string.
Variable strip : string -> string.

(** The text service answers the n-th request made since the batch
    started. *)
Variable service : nat -> api_reply.
Variable ANTHROPIC_API_KEY : string.

(** The [for style in styles] loop; [sent] counts the requests sent so far.
    Each style is generated with the default of two retries. *)
Fixpoint variations_loop (styles : list string) (sent : nat)
  : list styled_post * nat :=
  match styles with
  | [] => ([], sent)
  | style :: rest =>
    let (result, t) :=
      generate_post_text search_body search_pr findall_hashtags
        remove_hashtags strip (fun j => service (sent + j)%nat)
        ANTHROPIC_API_KEY 2 in
    let (results, total) := variations_loop rest (sent + calls t)%nat in
    (match result with
     | Some r => {| generated := r; style := style |} :: results
     | None => results
     end, total)
  end.

Definition generate_multiple_variations (count : Z)
  : list styled_post * nat :=
  variations_loop (slice_to style_names count) 0.

End Batch.

End Variations.

(** ** db_manager.py: further queries and updates *)

Module DbOps.

Import Db.

Definition deactivate_product (now : string) (i : string) (d : database)
  : bool * database :=
  update_product now i
    {| up_item_name := None;
       up_price := None;
       up_image_url := None;
       up_category := None;
       up_description := None;
       up_affiliate_url := None;
       up_last_posted_at := None;
       up_post_count := None;
       up_is_active := Some false |} d.

(** [ORDER BY] with a comparison [leb]: rows are inserted one by one into
    the sorted result. *)
Section OrderBy.

Variable A : Type.
Variable leb : A -> A -> bool.

Fixpoint insert_ordered (x : A) (l : list A) : list A :=
  match l with
  | [] => [x]
  | y :: l' => if leb x y then x :: y :: l' else y :: insert_ordered x l'
  end.

Definition sort_rows (l : list A) : list A :=
  fold_right insert_ordered [] l.

End OrderBy.

Arguments insert_ordered {A} leb x l.
Arguments sort_rows {A} leb l.

(** [LIMIT ?]: a negative bound is no bound. *)
Definition sql_limit {A : Type} (limit : Z) (l : list A) : list A :=
  if limit <? 0 then l else firstn (Z.to_nat limit) l.

(** [ORDER BY posted_at DESC]. *)
Definition newer_first (p q : post_row) : bool :=
  String.leb (posted_at q) (posted_at p).

Definition get_recent_posts (limit : Z) (d : database) : list post_row :=
  sql_limit limit (sort_rows newer_first (posts d)).

(** [ORDER BY created_at DESC]. *)
Definition created_later_first (p q : product) : bool :=
  String.leb (created_at q) (created_at p).

Definition get_all_products (active_only : bool) (d : database)
  : list product :=
  if active_only
  then sort_rows created_later_first (filter is_active (products d))
  else sort_rows created_later_first (products d).

Definition has_post_id (i : Z) (r : post_row) : bool := post_id r =? i.

Definition update_post_status (i : Z) (new_status : string) (d : database)
  : bool * database :=
  (existsb (has_post_id i) (posts d),
   {| products := products d;
      posts :=
        map (fun r =>
               if has_post_id i r then
                 {| post_id := post_id r;
                    post_item_id := post_item_id r;
                    post_text := post_text r;
                    hosted_image_url := hosted_image_url r;
                    tiktok_publish_id := tiktok_publish_id r;
                    post_status := new_status;
                    posted_at := posted_at r |}
               else r) (posts d);
      products_seq := products_seq d;
      posts_seq := posts_seq d |}).

(** Every row carries an id that the AUTOINCREMENT sequence has already
    handed out, and no two rows share an id or an [item_id]. *)
Definition well_formed (d : database) : Prop :=
  NoDup (map item_id (products d))
  /\ NoDup (map post_id (posts d))
  /\ Forall (fun r => post_id r <= posts_seq d) (posts d)
  /\ NoDup (map id (products d))
  /\ Forall (fun p => id p <= products_seq d) (products d).

End DbOps.

(** ** product_manager.py: ingestion of products *)

Module Ingest.

Import Db.

Definition MAX_RETRIES : nat := 3.
Definition RETRY_DELAY : Z := 2.

(** What the [extract_*] functions find on a fetched product page. *)
Record page : Type := {
  pg_name : option string;
  pg_price : option Z;
  pg_image_url : option string;
  pg_category : option string;
  pg_description : option string
}.

(** Requests sent and seconds slept so far. *)
Record net : Type := {
  requests : nat;
  slept : Z
}.

Definition count_request (st : net) : net :=
  {| requests := S (requests st); slept := slept st |}.

Definition sleep (seconds : Z) (st : net) : net :=
  {| requests := requests st; slept := slept st + seconds |}.

(** The [result] dictionary of [register_products_from_urls]; the one of
    [register_product_from_csv] has no [skipped] key and keeps it at 0. *)
Record tally : Type := {
  success : nat;
  failed : nat;
  skipped : nat
}.

(** [validate_product_data]: both required fields are present and not
    empty. *)
Definition validate_product_data (item_id item_name : option string)
  : bool :=
  truthy item_id && truthy item_name.

Section Lines.

(** [str.strip]. *)
Variable strip : string -> string.

(** The lines of the URL file, or [None] when the file does not exist. *)
Variable url_file : option (list string).

Definition load_urls_from_file : list string :=
  match url_file with
  | None => []
  | Some lines =>
    filter (fun line =>
              negb (String.eqb line "") && negb (String.prefix "#" line))
           (map strip lines)
  end.

End Lines.

Section Scraping.

(** [extract_item_id], a pattern match on the URL. *)
Variable extract_item_id : string -> option string.

(** The answer to the n-th page request: the fields found on the page, or
    [None] for a [requests.RequestException]. *)
Variable web : nat -> option page.

(** The time stamp written by [add_product]. *)
Variable now : string.

(** The [for attempt in range(MAX_RETRIES)] loop of [scrape_product]. *)
Fixpoint scrape_attempts (n attempt : nat) (url item_id : string)
    (st : net) : option product_data * net :=
  match n with
  | O => (None, st)
  | S n' =>
    let st1 := count_request st in
    match web (requests st) with
    | Some pg =>
      (Some {| pd_item_id := item_id;
               pd_item_name :=
                 match pg_name pg with
                 | Some name =>
                   if truthy (Some name) then name
                   else ("商品_" ++ item_id)%string
                 | None => ("商品_" ++ item_id)%string
                 end;
               pd_price := pg_price pg;
               pd_image_url := pg_image_url pg;
               pd_category := pg_category pg;
               pd_description := pg_description pg;
               pd_affiliate_url := Some url |}, st1)
    | None =>
      let st2 :=
        if (attempt <? MAX_RETRIES - 1)%nat then sleep RETRY_DELAY st1
        else st1 in
      scrape_attempts n' (S attempt) url item_id st2
    end
  end.

Definition scrape_product (url : string) (st : net)
  : option product_data * net :=
  match extract_item_id url with
  | Some item_id =>
    if truthy (Some item_id)
    then scrape_attempts MAX_RETRIES 0 url item_id st
    else (None, st)
  | None => (None, st)
  end.

(** The [for url in urls] loop of [register_products_from_urls]. *)
Fixpoint register_urls (urls : list string) (result : tally)
    (d : database) (st : net) : tally * database * net :=
  match urls with
  | [] => (result, d, st)
  | url :: rest =>
    let fail :=
      {| success := success result; failed := S (failed result);
         skipped := skipped result |} in
    match extract_item_id url with
    | None => register_urls rest fail d st
    | Some item_id =>
      if negb (truthy (Some item_id)) then register_urls rest fail d st
      else
        match get_product item_id d with
        | Some _ =>
          register_urls rest
            {| success := success result; failed := failed result;
               skipped := S (skipped result) |} d st
        | None =>
          let (product_data, st1) := scrape_product url st in
          let st2 := sleep 1 st1 in
          match product_data with
          | Some pd =>
            if validate_product_data (Some (pd_item_id pd))
                 (Some (pd_item_name pd))
            then
              register_urls rest
                {| success := S (success result); failed := failed result;
                   skipped := skipped result |}
                (snd (add_product now pd d)) st2
            else register_urls rest fail d st2
          | None => register_urls rest fail d st2
          end
        end
    end
  end.

Definition register_products_from_urls (strip : string -> string)
    (url_file : option (list string)) (d : database) (st : net)
  : tally * database * net :=
  register_urls (load_urls_from_file strip url_file)
    {| success := 0; failed := 0; skipped := 0 |} d st.

End Scraping.

(** A row of the CSV file as [csv.DictReader] yields it. *)
Record csv_row : Type := {
  csv_item_id : option string;
  csv_item_name : option string;
  csv_price : option string;
  csv_image_url : option string;
  csv_category : option string;
  csv_description : option string;
  csv_affiliate_url : option string
}.

Section Csv.

(** [int], which raises [ValueError] ([None]) on a string that is not a
    number. *)
Variable parse_int : string -> option Z.
Variable now : string.

(** The [for row in reader] loop of [register_product_from_csv]; an
    exception raised by [int] leaves the loop, and the counts reached so far
    are returned. *)
Fixpoint register_rows (rows : list csv_row) (result : tally)
    (d : database) : tally * database :=
  match rows with
  | [] => (result, d)
  | row :: rest =>
    let price :=
      match csv_price row with
      | Some s =>
        if truthy (Some s) then
          match parse_int s with
          | Some z => Some (Some z)
          | None => None
          end
        else Some None
      | None => Some None
      end in
    match price with
    | None => (result, d)
    | Some price =>
      if validate_product_data (csv_item_id row) (csv_item_name row) then
        match csv_item_id row, csv_item_name row with
        | Some item_id, Some item_name =>
          register_rows rest
            {| success := S (success result); failed := failed result;
               skipped := skipped result |}
            (snd (add_product now
                    {| pd_item_id := item_id;
                       pd_item_name := item_name;
                       pd_price := price;
                       pd_image_url := csv_image_url row;
                       pd_category := csv_category row;
                       pd_description := csv_description row;
                       pd_affiliate_url := csv_affiliate_url row |} d))
        | _, _ => (result, d)
        end
      else
        register_rows rest
          {| success := success result; failed := S (failed result);
             skipped := skipped result |} d
    end
  end.

(** [csv_file] is [None] when the file does not exist. *)
Definition register_product_from_csv (csv_file : option (list csv_row))
    (d : database) : tally * database :=
  match csv_file with
  | None => ({| success := 0; failed := 0; skipped := 0 |}, d)
  | Some rows =>
    register_rows rows {| success := 0; failed := 0; skipped := 0 |} d
  end.

(** The price column of the row is empty or a number. *)
Definition price_parses (row : csv_row) : bool :=
  match csv_price row with
  | Some s =>
    if truthy (Some s) then
      match parse_int s with
      | Some _ => true
      | None => false
      end
    else true
  | None => true
  end.

End Csv.

End Ingest.

(** ** image_host.py: download, optimize, upload, clean up *)

Module ImageHost.

Definition MAX_RETRIES : nat := 3.
Definition RETRY_DELAY : Z := 2.
Definition MAX_IMAGE_SIZE : Z := 10 * 1024 * 1024.
Definition SUPPORTED_FORMATS : list string :=
  [".jpg"; ".jpeg"; ".png"; ".gif"; ".webp"].

(** How the body of a response streams into the file: completely, or with a
    [requests.RequestException] after the file was created. *)
Inductive stream : Type :=
| Streamed
| StreamBroken.

(** The answer to a download request: a [requests.RequestException] before
    any byte is written, or a response with its [content-length] header
    ([None] when the header is missing) and the way its body streams. *)
Inductive download_reply : Type :=
| RequestFailed
| Response (content_length : option Z) (body : stream).

(** What [optimize_image] runs into: it writes the JPEG, it fails before
    anything is written, or it fails while writing the JPEG. *)
Inductive optimize_outcome : Type :=
| Optimized
| OpenFails
| SaveFails.

(** The files on disk, the requests sent and the seconds slept. *)
Record host : Type := {
  files : list string;
  requests : nat;
  slept : Z
}.

Definition file_exists (path : string) (h : host) : bool :=
  existsb (String.eqb path) (files h).

Definition write_file (path : string) (h : host) : host :=
  {| files := path :: files h; requests := requests h; slept := slept h |}.

Definition remove_file (path : string) (h : host) : host :=
  {| files := filter (fun f => negb (String.eqb f path)) (files h);
     requests := requests h; slept := slept h |}.

Definition count_request (h : host) : host :=
  {| files := files h; requests := S (requests h); slept := slept h |}.

Definition sleep (seconds : Z) (h : host) : host :=
  {| files := files h; requests := requests h; slept := slept h + seconds |}.

Definition supported (ext : string) : bool :=
  existsb (String.eqb ext) SUPPORTED_FORMATS.

(** The reply lets [download_image] save the file. *)
Definition saves (r : download_reply) : bool :=
  match r with
  | Response (Some len) Streamed => negb (MAX_IMAGE_SIZE <? len)
  | Response None Streamed => true
  | _ => false
  end.

(** The reply announces a body larger than [MAX_IMAGE_SIZE]. *)
Definition oversized (r : download_reply) : bool :=
  match r with
  | Response (Some len) _ => MAX_IMAGE_SIZE <? len
  | _ => false
  end.

Section Hosting.

Variable IMGBB_API_KEY : string.

(** [Path(p).suffix.lower()] and [Path(p).with_suffix(".jpg")]. *)
Variable suffix_lower : string -> string.
Variable with_jpg_suffix : string -> string.

(** [TEMP_DIR / f"image_{timestamp}"] at the time of the call. *)
Variable temp_stem : string.

(** The answer to the n-th download request. *)
Variable download : nat -> download_reply.

(** The size of a file, and whether PIL verifies it. *)
Variable file_size : string -> Z.
Variable verifies : string -> bool.

Variable optimize : string -> optimize_outcome.

(** The imgBB upload of a file: the public URL, or [None] for any failure
    of the request or an answer without success. *)
Variable imgbb : string -> option string.

(** The path that [download_image] makes up when none is given. *)
Definition temp_path (url : string) : string :=
  let ext := if String.eqb (suffix_lower url) "" then ".jpg"
             else suffix_lower url in
  let ext := if supported ext then ext else ".jpg" in
  (temp_stem ++ ext)%string.

(** The [for attempt in range(MAX_RETRIES)] loop of [download_image]. *)
Fixpoint download_attempts (n attempt : nat) (save_path : string)
    (h : host) : option string * host :=
  match n with
  | O => (None, h)
  | S n' =>
    let h1 := count_request h in
    let retry (h2 : host) :=
      download_attempts n' (S attempt) save_path
        (if (attempt <? MAX_RETRIES - 1)%nat then sleep RETRY_DELAY h2
         else h2) in
    match download (requests h) with
    | RequestFailed => retry h1
    | Response content_length body =>
      match content_length with
      | Some len =>
        if MAX_IMAGE_SIZE <? len then (None, h1)
        else
          match body with
          | Streamed => (Some save_path, write_file save_path h1)
          | StreamBroken => retry (write_file save_path h1)
          end
      | None =>
        match body with
        | Streamed => (Some save_path, write_file save_path h1)
        | StreamBroken => retry (write_file save_path h1)
        end
      end
    end
  end.

Definition download_image (url : string) (save_path : option string)
    (h : host) : option string * host :=
  if String.eqb url "" then (None, h)
  else
    let save_path :=
      match save_path with
      | Some p => if String.eqb p "" then temp_path url else p
      | None => temp_path url
      end in
    download_attempts MAX_RETRIES 0 save_path h.

Definition validate_image (file_path : string) (h : host) : bool :=
  file_exists file_path h
  && supported (suffix_lower file_path)
  && (file_size file_path <=? MAX_IMAGE_SIZE)
  && verifies file_path.

Definition optimize_image (file_path : string) (h : host)
  : string * host :=
  match optimize file_path with
  | Optimized =>
    (with_jpg_suffix file_path, write_file (with_jpg_suffix file_path) h)
  | OpenFails => (file_path, h)
  | SaveFails => (file_path, write_file (with_jpg_suffix file_path) h)
  end.

Definition upload_to_imgbb (file_path : string) (h : host)
  : option string :=
  if String.eqb IMGBB_API_KEY "" then None
  else if negb (validate_image file_path h) then None
  else imgbb file_path.

Definition cleanup_file (file_path : string) (h : host) : host :=
  if negb (String.eqb file_path "") && file_exists file_path h
  then remove_file file_path h
  else h.

Definition get_hosted_url (image_url : string) (h : host)
  : option string * host :=
  match download_image image_url None h with
  | (None, h1) => (None, h1)
  | (Some local_path, h1) =>
    if String.eqb local_path "" then (None, h1)
    else
      let (optimized_path, h2) := optimize_image local_path h1 in
      let hosted_url := upload_to_imgbb optimized_path h2 in
      let h3 := cleanup_file local_path h2 in
      let h4 :=
        if negb (String.eqb local_path optimized_path)
        then cleanup_file optimized_path h3
        else h3 in
      (hosted_url, h4)
  end.

End Hosting.

End ImageHost.

(** ** tiktok_poster.py: the code exchange and the publish requests *)

Module PublishApi.

Import TokenManager.


(** [_get_headers]: the bearer token, when [get_access_token] yields a
    token that is not empty. *)
Definition _get_headers (e : env) (m : manager)
  : option string * manager :=
  let (access_token, m') := get_access_token e m in
  (if truthy access_token then access_token else None, m').

(** The answer of the content-init endpoint: the HTTP status and the
    [error.code], [error.message] and [data.publish_id] fields of the body
    ([None] for a missing field). *)
Record init_answer : Type := {
  status_code : Z;
  error_code : option string;
  error_message : option string;
  data_publish_id : option string
}.

(** [init_photo_post]: [endpoint] is the answer to the one request, [None]
    for a [requests.RequestException]. The result comes with the manager and
    the number of requests sent to the content-init endpoint. *)
Definition init_photo_post (e : env) (m : manager)
    (endpoint : option init_answer) : option string * manager * nat :=
  let (headers, m') := _get_headers e m in
  match headers with
  | None => (None, m', O)
  | Some _ =>
    match endpoint with
    | None => (None, m', 1%nat)
    | Some result =>
      if (status_code result =? 200)
         && match error_code result with
            | Some c => String.eqb c "ok"
            | None => false
            end
      then
        if truthy (data_publish_id result)
        then (data_publish_id result, m', 1%nat)
        else (None, m', 1%nat)
      else (None, m', 1%nat)
    end
  end.

(** The answer of the status endpoint: the HTTP status and the
    [data.status] and [data.fail_reason] fields of the body. *)
Record status_answer : Type := {
  st_status_code : Z;
  st_status : option string;
  st_fail_reason : option string
}.

Definition check_publish_status (e : env) (m : manager)
    (endpoint : option status_answer)
  : option Poster.status_result * manager :=
  let (headers, m') := _get_headers e m in
  match headers with
  | None => (None, m')
  | Some _ =>
    match endpoint with
    | None => (None, m')
    | Some result =>
      if st_status_code result =? 200 then
        (Some {| Poster.sr_status := st_status result;
                 Poster.sr_fail_reason :=
                   match st_fail_reason result with
                   | Some r => r
                   | None => ""
                   end |}, m')
      else (None, m')
    end
  end.

End PublishApi.

(** * Properties of the publish state machine *)

Section WaitForPublish.

Import Poster.

Variable src : status_source.
Variables start_time timeout interval : Z.

Lemma wait_loop_returns_inv (fuel : nat) :
  forall c r c',
    wait_loop fuel src start_time timeout interval c = Returned (r, c') ->
    (r = TIMEOUT_result /\ timeout <= time c' - start_time)
    \/ (exists sr,
          stops_wait (Some sr) = true /\ r = result_of sr
          /\ (0 < polls c')%nat
          /\ reply (src (pred (polls c'))) = Some sr).
Proof.
  induction fuel as [|fuel IH]; intros c r c' H; simpl in H.
  - discriminate.
  - destruct (time c - start_time <? timeout) eqn:Hdeadline.
    + destruct (reply (src (polls c))) as [sr|] eqn:Hreply.
      * destruct (status_is (sr_status sr) STATUS_PUBLISH_COMPLETE) eqn:Hdone.
        { inversion H; subst; clear H. right. exists sr. simpl.
          unfold result_of. rewrite Hdone. simpl.
          repeat split; auto; lia. }
        destruct (status_is (sr_status sr) STATUS_FAILED) eqn:Hfailed.
        { inversion H; subst; clear H. right. exists sr. simpl.
          unfold result_of. rewrite Hdone, Hfailed. simpl.
          repeat split; auto; lia. }
        destruct (sleep interval _) as [c2|]; [|discriminate].
        eapply IH; eauto.
      * destruct (sleep interval _) as [c2|]; [|discriminate].
        eapply IH; eauto.
    + inversion H; subst; clear H. left. split; auto.
      apply Z.ltb_ge in Hdeadline. lia.
Qed.

Lemma wait_loop_more_fuel (fuel : nat) :
  forall fuel' c x,
    wait_loop fuel src start_time timeout interval c = Returned x ->
    (fuel <= fuel')%nat ->
    wait_loop fuel' src start_time timeout interval c = Returned x.
Proof.
  induction fuel as [|fuel IH]; intros fuel' c x H Hle; simpl in H.
  - discriminate.
  - destruct fuel' as [|fuel']; [lia|]. simpl.
    destruct (time c - start_time <? timeout); auto.
    destruct (reply (src (polls c))) as [sr|].
    + destruct (status_is (sr_status sr) STATUS_PUBLISH_COMPLETE); auto.
      destruct (status_is (sr_status sr) STATUS_FAILED); auto.
      destruct (sleep interval _) as [c2|]; auto.
      apply IH; auto; lia.
    + destruct (sleep interval _) as [c2|]; auto.
      apply IH; auto; lia.
Qed.

Hypothesis interval_pos : 0 < interval.
Hypothesis duration_nonneg : forall n, 0 <= duration (src n).

Lemma sleep_ok (c : clock) :
  sleep interval c = Some {| time := time c + interval; polls := polls c |}.
Proof.
  unfold sleep. destruct (interval <? 0) eqn:E; auto.
  apply Z.ltb_lt in E. lia.
Qed.

(** With a positive interval and a clock that does not run backwards, the
    loop returns within a number of rounds bounded by the time left. *)
Lemma wait_loop_total (fuel : nat) :
  forall c,
    (Z.to_nat (timeout - (time c - start_time)) < fuel)%nat ->
    exists r c',
      wait_loop fuel src start_time timeout interval c = Returned (r, c').
Proof.
  induction fuel as [|fuel IH]; intros c Hfuel; [lia|]. simpl.
  destruct (time c - start_time <? timeout) eqn:Hdeadline.
  - apply Z.ltb_lt in Hdeadline.
    assert (Hnext :
      exists r c',
        wait_loop fuel src start_time timeout interval
          {| time := time c + duration (src (polls c)) + interval;
             polls := S (polls c) |} = Returned (r, c')).
    { apply IH. simpl. specialize (duration_nonneg (polls c)). lia. }
    destruct (reply (src (polls c))) as [sr|].
    + destruct (status_is (sr_status sr) STATUS_PUBLISH_COMPLETE); eauto.
      destruct (status_is (sr_status sr) STATUS_FAILED); eauto.
      rewrite sleep_ok. simpl. exact Hnext.
    + rewrite sleep_ok. simpl. exact Hnext.
  - eauto.
Qed.

End WaitForPublish.

Section Rounds.

Import Poster.

Variable src : status_source.
Variables start_time timeout interval : Z.

Lemma stops_wait_iff (r : option status_result) :
  stops_wait r = true <->
  exists sr,
    r = Some sr
    /\ (sr_status sr = Some STATUS_PUBLISH_COMPLETE
        \/ sr_status sr = Some STATUS_FAILED).
Proof.
  unfold stops_wait, status_is. split.
  - destruct r as [sr|]; [|discriminate]. intros H. exists sr. split; auto.
    destruct (sr_status sr) as [v|]; [|discriminate].
    apply orb_true_iff in H. destruct H as [H|H];
      apply String.eqb_eq in H; subst; auto.
  - intros [sr [-> [H|H]]]; rewrite H; reflexivity.
Qed.

Lemma polls_round_start (k : nat) :
  forall c, polls (round_start src interval k c) = (polls c + k)%nat.
Proof.
  induction k as [|k IH]; intros c; simpl.
  - lia.
  - rewrite IH. simpl. lia.
Qed.

Lemma round_start_succ (k : nat) :
  forall c,
    round_start src interval (S k) c
    = next_round src interval (round_start src interval k c).
Proof.
  induction k as [|k IH]; intros c.
  - reflexivity.
  - change (round_start src interval (S (S k)) c)
      with (round_start src interval (S k) (next_round src interval c)).
    rewrite IH. reflexivity.
Qed.

(** A round whose status check fails, or reports a status other than
    PUBLISH_COMPLETE and FAILED, goes on to the next round. *)
Lemma wait_loop_continue (fuel : nat) (c : clock) :
  0 <= interval ->
  time c - start_time < timeout ->
  stops_wait (reply (src (polls c))) = false ->
  wait_loop (S fuel) src start_time timeout interval c
  = wait_loop fuel src start_time timeout interval
      (next_round src interval c).
Proof.
  intros Hint Hdeadline Hgo. simpl.
  apply Z.ltb_lt in Hdeadline. rewrite Hdeadline.
  unfold sleep. destruct (interval <? 0) eqn:E;
    [apply Z.ltb_lt in E; lia|].
  unfold stops_wait in Hgo.
  destruct (reply (src (polls c))) as [sr|]; [|reflexivity].
  apply orb_false_iff in Hgo. destruct Hgo as [H1 H2].
  rewrite H1, H2. reflexivity.
Qed.

Lemma wait_loop_stop (fuel : nat) (c : clock) (sr : status_result) :
  time c - start_time < timeout ->
  reply (src (polls c)) = Some sr ->
  stops_wait (Some sr) = true ->
  wait_loop (S fuel) src start_time timeout interval c
  = Returned (result_of sr,
              {| time := time c + duration (src (polls c));
                 polls := S (polls c) |}).
Proof.
  intros Hdeadline Hreply Hstop. simpl.
  apply Z.ltb_lt in Hdeadline. rewrite Hdeadline, Hreply.
  unfold result_of. simpl in Hstop.
  destruct (status_is (sr_status sr) STATUS_PUBLISH_COMPLETE);
    [reflexivity|].
  simpl in Hstop. rewrite Hstop. reflexivity.
Qed.

Lemma wait_loop_rounds (k : nat) :
  forall fuel c,
    0 <= interval ->
    (forall i, (i < k)%nat ->
       stops_wait (reply (src (polls c + i)%nat)) = false) ->
    (forall i, (i < k)%nat ->
       time (round_start src interval i c) - start_time < timeout) ->
    wait_loop (k + fuel) src start_time timeout interval c
    = wait_loop fuel src start_time timeout interval
        (round_start src interval k c).
Proof.
  induction k as [|k IH]; intros fuel c Hint Hgo Hdeadline.
  - reflexivity.
  - change (S k + fuel)%nat with (S (k + fuel)).
    rewrite wait_loop_continue; auto.
    + simpl. apply IH; auto.
      * intros i Hi. simpl.
        replace (S (polls c + i)) with (polls c + S i)%nat by lia.
        apply Hgo. lia.
      * intros i Hi. apply (Hdeadline (S i)). lia.
    + apply (Hdeadline O). lia.
    + replace (polls c) with (polls c + 0)%nat by lia. apply Hgo. lia.
Qed.

Hypothesis interval_nonneg : 0 <= interval.
Hypothesis duration_nonneg : forall n, 0 <= duration (src n).

Lemma round_start_monotone (k : nat) (c : clock) :
  forall i, (i <= k)%nat ->
    time (round_start src interval i c)
    <= time (round_start src interval k c).
Proof.
  induction k as [|k IH]; intros i Hi.
  - replace i with O by lia. lia.
  - destruct (Nat.eq_dec i (S k)) as [->|Hne]; [lia|].
    rewrite round_start_succ. unfold next_round at 1. simpl.
    specialize (IH i ltac:(lia)).
    specialize (duration_nonneg
                  (polls (round_start src interval k c))). lia.
Qed.

End Rounds.

Section PublishClaims.

Import Poster.

(** The wait returns at the first check that reports PUBLISH_COMPLETE or
    FAILED, provided that check is made before the deadline. *)
Lemma wait_for_publish_returns_at
    (src : status_source) (timeout interval : Z) (c0 : clock)
    (k : nat) (sr : status_result) (fuel : nat) :
  0 <= interval ->
  (forall n, 0 <= duration (src n)) ->
  (forall i, (i < k)%nat ->
     stops_wait (reply (src (polls c0 + i)%nat)) = false) ->
  reply (src (polls c0 + k)%nat) = Some sr ->
  sr_status sr = Some STATUS_PUBLISH_COMPLETE
  \/ sr_status sr = Some STATUS_FAILED ->
  time (round_start src interval k c0) - time c0 < timeout ->
  (k < fuel)%nat ->
  wait_for_publish fuel src timeout interval c0
  = Returned (result_of sr,
              {| time := time (round_start src interval k c0)
                         + duration (src (polls c0 + k)%nat);
                 polls := S (polls c0 + k) |}).
Proof.
  intros Hint Hdur Hgo Hreply Hstatus Hdeadline Hfuel.
  unfold wait_for_publish.
  replace fuel with (k + S (fuel - S k))%nat by lia.
  rewrite wait_loop_rounds; auto.
  - rewrite <- (polls_round_start src interval k c0).
    apply wait_loop_stop; auto.
    + rewrite polls_round_start. exact Hreply.
    + apply stops_wait_iff. eauto.
  - intros i Hi.
    pose proof (round_start_monotone src interval Hint Hdur k c0 i
                  ltac:(lia)). lia.
Qed.

(** C3 (as stated, refuted). The status endpoint reports
    SEND_TO_USER_INBOX from the first check on, with the default deadline of
    120 and interval of 5: the wait does not end at that observation; it
    checks 24 times and reports TIMEOUT at the deadline. *)
Lemma C3_inbox_is_not_terminal :
  reply (Scenarios.inbox_source 0%nat)
  = Some {| sr_status := Some STATUS_SEND_TO_USER_INBOX;
            sr_fail_reason := "" |}
  /\ wait_for_publish 30 Scenarios.inbox_source 120 5 Scenarios.clock0
     = Returned (TIMEOUT_result, {| time := 120; polls := 24 |})
  /\ ~ (forall r c',
          wait_for_publish 30 Scenarios.inbox_source 120 5 Scenarios.clock0
          = Returned (r, c') ->
          polls c' = 1%nat /\ status r <> "TIMEOUT").
Proof.
  split; [reflexivity|]. split; [vm_compute; reflexivity|].
  intros H.
  destruct (H TIMEOUT_result {| time := 120; polls := 24 |}) as [Hp _].
  - vm_compute; reflexivity.
  - simpl in Hp. discriminate.
Qed.

(** C3 (amended). [wait_for_publish] stops polling and returns as soon as
    the status source reports PUBLISH_COMPLETE or FAILED: if the first [k]
    checks fail or report any other status (SEND_TO_USER_INBOX included)
    and check [k], made before the deadline, reports one of the two, the
    wait returns the result of that check, on the clock of that check, and a
    source that reports SEND_TO_USER_INBOX does not stop the wait. *)
Theorem C3_wait_stops_at_complete_or_failed
    (src : status_source) (timeout interval : Z) (c0 : clock)
    (k : nat) (sr : status_result) (fuel : nat) :
  0 <= interval ->
  (forall n, 0 <= duration (src n)) ->
  (forall i, (i < k)%nat ->
     stops_wait (reply (src (polls c0 + i)%nat)) = false) ->
  reply (src (polls c0 + k)%nat) = Some sr ->
  sr_status sr = Some STATUS_PUBLISH_COMPLETE
  \/ sr_status sr = Some STATUS_FAILED ->
  time (round_start src interval k c0) - time c0 < timeout ->
  (k < fuel)%nat ->
  wait_for_publish fuel src timeout interval c0
  = Returned (result_of sr,
              {| time := time (round_start src interval k c0)
                         + duration (src (polls c0 + k)%nat);
                 polls := S (polls c0 + k) |})
  /\ (forall reason,
        stops_wait (Some {| sr_status := Some STATUS_SEND_TO_USER_INBOX;
                            sr_fail_reason := reason |}) = false).
Proof.
  intros Hint Hdur Hgo Hreply Hstatus Hdeadline Hfuel.
  split; [|reflexivity].
  apply wait_for_publish_returns_at; auto.
Qed.

Lemma C3_wait_stops_at_complete_or_failed_witness :
  wait_for_publish 5 Scenarios.third_poll_source 120 5 Scenarios.clock0
  = Returned (result_of {| sr_status := Some STATUS_PUBLISH_COMPLETE;
                           sr_fail_reason := "" |},
              {| time := 10 + 0; polls := 3 |})
  /\ (forall reason,
        stops_wait (Some {| sr_status := Some STATUS_SEND_TO_USER_INBOX;
                            sr_fail_reason := reason |}) = false).
Proof.
  apply (C3_wait_stops_at_complete_or_failed
           Scenarios.third_poll_source 120 5 Scenarios.clock0 2
           {| sr_status := Some STATUS_PUBLISH_COMPLETE;
              sr_fail_reason := "" |} 5).
  - lia.
  - intros n. unfold Scenarios.third_poll_source.
    destruct (n <? 2)%nat; simpl; lia.
  - intros i Hi. destruct i as [|[|i]]; [reflexivity|reflexivity|lia].
  - reflexivity.
  - left. reflexivity.
  - vm_compute. reflexivity.
  - lia.
Defined.

(** C4 (as stated, refuted). The status endpoint answers at once and reports
    PUBLISH_COMPLETE at the third check; with an interval of 1 the wait
    returns success after 2 interval units, not after 3 or more. *)
Lemma C4_third_poll_after_two_intervals :
  wait_for_publish 30 Scenarios.third_poll_source 120 1 Scenarios.clock0
  = Returned ({| success := true; status := STATUS_PUBLISH_COMPLETE;
                 fail_reason := "" |}, {| time := 2; polls := 3 |})
  /\ ~ (forall t,
          elapsed Scenarios.clock0
            (wait_for_publish 30 Scenarios.third_poll_source 120 1
               Scenarios.clock0) = Some t ->
          3 <= t < 4).
Proof.
  split; [vm_compute; reflexivity|].
  intros H. specialize (H 2 ltac:(vm_compute; reflexivity)). lia.
Qed.

(** C4 (amended). For a status source that reports PUBLISH_COMPLETE at the
    third check and an interval of 1, [wait_for_publish] returns success
    after exactly two sleeps and three checks: the elapsed time is 2 interval
    units plus the time spent in the three checks, hence at least 2 units,
    and exactly 2 (less than 3) when the checks take no time. *)
Theorem C4_third_poll_complete
    (src : status_source) (timeout : Z) (c0 : clock) (sr : status_result)
    (fuel : nat) :
  (forall n, 0 <= duration (src n)) ->
  stops_wait (reply (src (polls c0))) = false ->
  stops_wait (reply (src (S (polls c0)))) = false ->
  reply (src (S (S (polls c0)))) = Some sr ->
  sr_status sr = Some STATUS_PUBLISH_COMPLETE ->
  duration (src (polls c0)) + duration (src (S (polls c0))) + 2 < timeout ->
  (3 <= fuel)%nat ->
  exists c',
    wait_for_publish fuel src timeout 1 c0
    = Returned ({| success := true; status := STATUS_PUBLISH_COMPLETE;
                   fail_reason := "" |}, c')
    /\ polls c' = (polls c0 + 3)%nat
    /\ time c' - time c0
       = 2 * 1 + (duration (src (polls c0))
                  + duration (src (S (polls c0)))
                  + duration (src (S (S (polls c0)))))
    /\ 2 <= time c' - time c0.
Proof.
  intros Hdur H0 H1 Hreply Hstatus Hdeadline Hfuel.
  assert (E2 : (polls c0 + 2 = S (S (polls c0)))%nat) by lia.
  assert (Hrun := wait_for_publish_returns_at src timeout 1 c0 2 sr fuel).
  rewrite Hrun; auto; try lia.
  - eexists. split.
    + unfold result_of, status_is. rewrite Hstatus. reflexivity.
    + rewrite E2. cbn [round_start next_round time polls].
      pose proof (Hdur (polls c0)). pose proof (Hdur (S (polls c0))).
      pose proof (Hdur (S (S (polls c0)))).
      repeat split; lia.
  - intros i Hi. destruct i as [|[|i]]; [| |lia].
    + replace (polls c0 + 0)%nat with (polls c0) by lia. exact H0.
    + replace (polls c0 + 1)%nat with (S (polls c0)) by lia. exact H1.
  - rewrite E2. exact Hreply.
  - cbn [round_start next_round time polls]. lia.
Qed.

Lemma C4_third_poll_complete_witness :
  exists c',
    wait_for_publish 3 Scenarios.third_poll_source 120 1 Scenarios.clock0
    = Returned ({| success := true; status := STATUS_PUBLISH_COMPLETE;
                   fail_reason := "" |}, c')
    /\ polls c' = (polls Scenarios.clock0 + 3)%nat
    /\ time c' - time Scenarios.clock0
       = 2 * 1
         + (duration (Scenarios.third_poll_source (polls Scenarios.clock0))
            + duration
                (Scenarios.third_poll_source (S (polls Scenarios.clock0)))
            + duration
                (Scenarios.third_poll_source
                   (S (S (polls Scenarios.clock0)))))
    /\ 2 <= time c' - time Scenarios.clock0.
Proof.
  apply (C4_third_poll_complete Scenarios.third_poll_source 120
           Scenarios.clock0
           {| sr_status := Some STATUS_PUBLISH_COMPLETE;
              sr_fail_reason := "" |} 3).
  - intros n. unfold Scenarios.third_poll_source.
    destruct (n <? 2)%nat; simpl; lia.
  - reflexivity.
  - reflexivity.
  - reflexivity.
  - reflexivity.
  - simpl. lia.
  - lia.
Defined.

End PublishClaims.

Section TimeoutClaims.

Import Poster.

(** C9 (as stated, refuted). The status endpoint answers at once and never
    reports a terminal status; with a deadline of 10 and an interval of 5
    the wait reports TIMEOUT when the elapsed time is exactly 10: it has
    reached the deadline and does not exceed it. *)
Lemma C9_timeout_at_the_deadline :
  wait_for_publish 30 Scenarios.processing_source 10 5 Scenarios.clock0
  = Returned (TIMEOUT_result, {| time := 10; polls := 2 |})
  /\ ~ (forall t,
          elapsed Scenarios.clock0
            (wait_for_publish 30 Scenarios.processing_source 10 5
               Scenarios.clock0) = Some t ->
          10 < t).
Proof.
  split; [vm_compute; reflexivity|].
  intros H. specialize (H 10 ltac:(vm_compute; reflexivity)). lia.
Qed.

(** C9 (amended). [wait_for_publish] reports TIMEOUT only once the elapsed
    time has reached or exceeded the deadline, never earlier. When the status
    source never reports PUBLISH_COMPLETE or FAILED (failed checks included),
    the interval is positive and the clock does not run backwards, the wait
    does return, and what it returns is the TIMEOUT result. A failed status
    check made before the deadline does not end the loop: the next round
    follows. *)
Theorem C9_timeout_never_before_deadline
    (src : status_source) (timeout interval : Z) (c0 : clock) :
  (forall fuel r c',
     wait_for_publish fuel src timeout interval c0 = Returned (r, c') ->
     status r = "TIMEOUT" ->
     r = TIMEOUT_result /\ timeout <= time c' - time c0)
  /\ (0 < interval ->
      (forall n, 0 <= duration (src n)) ->
      (forall n, stops_wait (reply (src n)) = false) ->
      (exists fuel c',
         wait_for_publish fuel src timeout interval c0
         = Returned (TIMEOUT_result, c')
         /\ timeout <= time c' - time c0)
      /\ (forall fuel r c',
            wait_for_publish fuel src timeout interval c0
            = Returned (r, c') ->
            r = TIMEOUT_result /\ timeout <= time c' - time c0))
  /\ (forall fuel c,
        0 <= interval ->
        time c - time c0 < timeout ->
        reply (src (polls c)) = None ->
        wait_loop (S fuel) src (time c0) timeout interval c
        = wait_loop fuel src (time c0) timeout interval
            (next_round src interval c)).
Proof.
  assert (Hnever :
    (forall n, stops_wait (reply (src n)) = false) ->
    forall fuel r c',
      wait_for_publish fuel src timeout interval c0 = Returned (r, c') ->
      r = TIMEOUT_result /\ timeout <= time c' - time c0).
  { intros Hgo fuel r c' Hrun.
    apply wait_loop_returns_inv in Hrun.
    destruct Hrun as [H|[sr [Hstop [_ [_ Hreply]]]]]; auto.
    rewrite <- Hreply, Hgo in Hstop. discriminate. }
  split; [|split].
  - intros fuel r c' Hrun Hstatus.
    apply wait_loop_returns_inv in Hrun.
    destruct Hrun as [H|[sr [_ [Hr _]]]]; auto.
    subst r. unfold result_of in Hstatus.
    destruct (status_is (sr_status sr) STATUS_PUBLISH_COMPLETE);
      simpl in Hstatus; discriminate.
  - intros Hint Hdur Hgo. split; [|exact (Hnever Hgo)].
    destruct (wait_loop_total src (time c0) timeout interval Hint Hdur
                (S (Z.to_nat (timeout - (time c0 - time c0)))) c0
                ltac:(lia)) as [r [c' Hrun]].
    destruct (Hnever Hgo _ _ _ Hrun) as [-> Hle].
    eauto.
  - intros fuel c Hint Hdeadline Hreply.
    apply wait_loop_continue; auto. rewrite Hreply. reflexivity.
Qed.

Lemma C9_timeout_never_before_deadline_witness :
  exists fuel c',
    wait_for_publish fuel Scenarios.processing_source 120 5 Scenarios.clock0
    = Returned (TIMEOUT_result, c')
    /\ 120 <= time c' - time Scenarios.clock0.
Proof.
  destruct (C9_timeout_never_before_deadline Scenarios.processing_source
              120 5 Scenarios.clock0) as [_ [Hnever _]].
  apply Hnever.
  - lia.
  - intros n. simpl. lia.
  - intros n. reflexivity.
Defined.

(** C10. Every result returned by [wait_for_publish] has [success] true
    exactly when [status] is PUBLISH_COMPLETE, and an empty [fail_reason]
    whenever [success] is true; with a positive interval and a clock that
    does not run backwards the wait does return a result. *)
Theorem C10_success_iff_publish_complete
    (fuel : nat) (src : status_source) (timeout interval : Z) (c0 : clock)
    (r : publish_result) (c' : clock) :
  wait_for_publish fuel src timeout interval c0 = Returned (r, c') ->
  (success r = true <-> status r = STATUS_PUBLISH_COMPLETE)
  /\ (success r = true -> fail_reason r = "")
  /\ (0 < interval ->
      (forall n, 0 <= duration (src n)) ->
      exists fuel' r' c'',
        wait_for_publish fuel' src timeout interval c0
        = Returned (r', c'')).
Proof.
  intros Hrun. apply wait_loop_returns_inv in Hrun.
  split; [|split].
  - destruct Hrun as [[-> _]|[sr [_ [-> _]]]].
    + simpl. split; discriminate.
    + unfold result_of.
      destruct (status_is (sr_status sr) STATUS_PUBLISH_COMPLETE); simpl;
        split; auto; discriminate.
  - destruct Hrun as [[-> _]|[sr [_ [-> _]]]].
    + simpl. discriminate.
    + unfold result_of.
      destruct (status_is (sr_status sr) STATUS_PUBLISH_COMPLETE); simpl;
        auto; discriminate.
  - intros Hint Hdur.
    exists (S (Z.to_nat (timeout - (time c0 - time c0)))).
    apply (wait_loop_total src (time c0) timeout interval Hint Hdur).
    lia.
Qed.

Lemma C10_success_iff_publish_complete_witness :
  (success (result_of {| sr_status := Some STATUS_FAILED;
                         sr_fail_reason := "picture_size_check_failed" |})
   = true
   <-> status (result_of {| sr_status := Some STATUS_FAILED;
                            sr_fail_reason := "picture_size_check_failed" |})
       = STATUS_PUBLISH_COMPLETE)
  /\ (success (result_of {| sr_status := Some STATUS_FAILED;
                            sr_fail_reason := "picture_size_check_failed" |})
      = true ->
      fail_reason
        (result_of {| sr_status := Some STATUS_FAILED;
                      sr_fail_reason := "picture_size_check_failed" |}) = "")
  /\ (0 < 5 ->
      (forall n, 0 <= duration (Scenarios.rejecting_source n)) ->
      exists fuel' r' c'',
        wait_for_publish fuel' Scenarios.rejecting_source 120 5
          Scenarios.clock0 = Returned (r', c'')).
Proof.
  apply (C10_success_iff_publish_complete 1 Scenarios.rejecting_source 120 5
           Scenarios.clock0 _ {| time := 0; polls := 1 |}).
  vm_compute. reflexivity.
Defined.

End TimeoutClaims.

(** * Properties of the token lifecycle manager *)

Section TokenClaims.

Import TokenManager.

(** C1 (the code at the failing input). The record on disk has expired, the
    token endpoint grants a new token, and the write of the new record
    fails, before or after the file is opened: [refresh_access_token]
    reports success, and [get_access_token] returns the expired access
    token of the old record instead of none. *)
Theorem C1_failed_write_counts_as_refreshed :
  (* the write fails before the file is opened *)
  fst (refresh_access_token (Scenarios.token_env OpenFails)
         (snd (load_tokens
                 (Scenarios.manager_with Scenarios.expired_record))))
  = true
  /\ fst (get_access_token (Scenarios.token_env OpenFails)
            (Scenarios.manager_with Scenarios.expired_record))
     = Some "old_token"
  /\ tokens_file
       (snd (get_access_token (Scenarios.token_env OpenFails)
               (Scenarios.manager_with Scenarios.expired_record)))
     = Stored Scenarios.expired_record
  (* the write fails after the file was truncated *)
  /\ fst (refresh_access_token (Scenarios.token_env DumpFails)
            (snd (load_tokens
                    (Scenarios.manager_with Scenarios.expired_record))))
     = true
  /\ fst (get_access_token (Scenarios.token_env DumpFails)
            (Scenarios.manager_with Scenarios.expired_record))
     = Some "old_token"
  (* when the write succeeds the new token is returned *)
  /\ fst (get_access_token (Scenarios.token_env WriteOk)
            (Scenarios.manager_with Scenarios.expired_record))
     = Some "new_token".
Proof.
  repeat split; vm_compute; reflexivity.
Qed.

(** Whatever the record, a failed write after a granted refresh makes
    [refresh_access_token] report success and [get_access_token] return the
    access token of the expired record. *)
Lemma failed_write_returns_stale_token
    (e : env) (m : manager) (t : tokens) (rt : string)
    (resp : token_response) (new_token : string) :
  TIKTOK_ACCESS_TOKEN e = "" ->
  tokens_file m = Stored t ->
  expired e t = true ->
  refresh_token t = Some rt ->
  truthy (Some rt) = true ->
  token_endpoint e rt = Some resp ->
  res_access_token resp = Some new_token ->
  disk_state e <> WriteOk ->
  fst (refresh_access_token e (snd (load_tokens m))) = true
  /\ fst (get_access_token e m) = access_token t.
Proof.
  intros Hkey Hfile Hexp Hrt Htruthy Hresp Hnew Hdisk.
  unfold expired in Hexp.
  destruct (expires_at t) as [x|] eqn:Hx; [|discriminate].
  assert (Hne : is_empty t = false).
  { unfold is_empty. rewrite Hx.
    destruct (access_token t), (refresh_token t); reflexivity. }
  unfold get_access_token, load_tokens.
  rewrite Hkey, Hfile. simpl. rewrite Hne, Hx, Hexp.
  unfold refresh_access_token. simpl. rewrite Hne. simpl.
  rewrite Hrt, Htruthy. simpl. rewrite Hresp, Hnew.
  unfold save_tokens.
  destruct (disk_state e); [congruence| |]; simpl; rewrite Hne; simpl; auto.
Qed.

Lemma expired_not_empty (e : env) (t : tokens) :
  expired e t = true -> is_empty t = false.
Proof.
  unfold expired, is_empty. destruct (expires_at t); [|discriminate].
  destruct (access_token t), (refresh_token t); reflexivity.
Qed.

Lemma empty_has_no_access_token (t : tokens) :
  is_empty t = true -> access_token t = None.
Proof.
  unfold is_empty. destruct (access_token t); [discriminate|reflexivity].
Qed.

(** The calls made by [refresh_access_token] on a manager whose cache holds
    a non-empty record. *)
Lemma refresh_access_token_calls (e : env) (m : manager) (t : tokens) :
  _tokens m = Some t ->
  is_empty t = false ->
  refresh_calls (snd (refresh_access_token e m)) = S (refresh_calls m)
  /\ endpoint_calls (snd (refresh_access_token e m))
     = (endpoint_calls m + if truthy (refresh_token t) then 1 else 0)%nat.
Proof.
  intros Hcache Hne. unfold refresh_access_token. simpl.
  rewrite Hcache. simpl. rewrite Hne. simpl.
  destruct (refresh_token t) as [rt|] eqn:Hrt; simpl; rewrite ?Hne; simpl;
    [|split; lia].
  destruct rt as [|a rt]; simpl; [split; lia|].
  destruct (token_endpoint e (String a rt)) as [resp|]; simpl;
    [|split; lia].
  destruct (res_access_token resp) as [tok|]; simpl; [|split; lia].
  unfold save_tokens. destruct (disk_state e); simpl; split; lia.
Qed.

(** C7. With no override token configured and a credential record on disk,
    [get_access_token] calls [refresh_access_token] exactly once when the
    record has [expires_at] set and in the past, and not at all otherwise;
    when moreover the refresh token is present exactly one request goes to
    the token endpoint, and if it is granted and the new record is written
    the new token is returned; a record that has not expired causes no
    request and its access token is returned as it is. *)
Theorem C7_refresh_iff_expired (e : env) (m : manager) (t : tokens) :
  TIKTOK_ACCESS_TOKEN e = "" ->
  tokens_file m = Stored t ->
  (refresh_calls (snd (get_access_token e m)) = S (refresh_calls m)
   <-> expired e t = true)
  /\ (refresh_calls (snd (get_access_token e m)) = refresh_calls m
      <-> expired e t = false)
  /\ (expired e t = true ->
      truthy (refresh_token t) = true ->
      refresh_calls (snd (get_access_token e m)) = S (refresh_calls m)
      /\ endpoint_calls (snd (get_access_token e m))
         = S (endpoint_calls m)
      /\ forall rt resp tok,
           refresh_token t = Some rt ->
           token_endpoint e rt = Some resp ->
           res_access_token resp = Some tok ->
           disk_state e = WriteOk ->
           fst (get_access_token e m) = Some tok)
  /\ (expired e t = false ->
      refresh_calls (snd (get_access_token e m)) = refresh_calls m
      /\ endpoint_calls (snd (get_access_token e m)) = endpoint_calls m
      /\ fst (get_access_token e m) = access_token t).
Proof.
  intros Hkey Hfile.
  set (m1 := {| tokens_file := Stored t; _tokens := Some t;
                refresh_calls := refresh_calls m;
                endpoint_calls := endpoint_calls m |}).
  destruct (expired e t) eqn:Hexp.
  - (* expired: one call of refresh_access_token *)
    pose proof (expired_not_empty e t Hexp) as Hne.
    destruct (refresh_access_token_calls e m1 t eq_refl Hne)
      as [Hcalls Hreq].
    assert (Hget :
      get_access_token e m
      = (let (ok, m2) := refresh_access_token e m1 in
         if ok then
           (match _tokens m2 with
            | Some t2 => access_token t2
            | None => None
            end, m2)
         else (None, m2))).
    { unfold get_access_token, load_tokens. rewrite Hkey, Hfile. simpl.
      rewrite Hne. unfold expired in Hexp.
      destruct (expires_at t) as [x|]; [|discriminate].
      rewrite Hexp. reflexivity. }
    assert (Hsnd :
      snd (get_access_token e m) = snd (refresh_access_token e m1)).
    { rewrite Hget. destruct (refresh_access_token e m1) as [[|] m2];
        reflexivity. }
    rewrite Hsnd, Hcalls. simpl.
    split; [split; reflexivity|].
    split; [split; [intros H; lia|discriminate]|].
    split; [|discriminate].
    intros _ Htruthy. rewrite Hreq, Htruthy. simpl.
    split; [reflexivity|]. split; [lia|].
    intros rt resp tok Hrt Hresp Htok Hdisk.
    rewrite Hget. unfold refresh_access_token. simpl.
    rewrite Hne. simpl. rewrite Hrt in *. rewrite Htruthy. simpl.
    rewrite Hresp, Htok. unfold save_tokens. rewrite Hdisk. simpl.
    rewrite Hne. reflexivity.
  - (* not expired: the stored token is returned *)
    assert (Hget :
      get_access_token e m
      = (if is_empty t then None else access_token t, m1)).
    { unfold get_access_token, load_tokens. rewrite Hkey, Hfile. simpl.
      destruct (is_empty t); [reflexivity|].
      unfold expired in Hexp.
      destruct (expires_at t) as [x|]; [|reflexivity].
      rewrite Hexp. reflexivity. }
    rewrite Hget. simpl.
    split; [split; [intros H; lia|discriminate]|].
    split; [split; reflexivity|].
    split; [discriminate|]. intros _.
    split; [reflexivity|]. split; [reflexivity|].
    destruct (is_empty t) eqn:Hempty; [|reflexivity].
    symmetry. apply empty_has_no_access_token. exact Hempty.
Qed.

Lemma C7_refresh_iff_expired_witness :
  (refresh_calls
     (snd (get_access_token (Scenarios.token_env WriteOk)
             (Scenarios.manager_with Scenarios.expired_record)))
   = S (refresh_calls (Scenarios.manager_with Scenarios.expired_record))
   <-> expired (Scenarios.token_env WriteOk) Scenarios.expired_record = true)
  /\ fst (get_access_token (Scenarios.token_env WriteOk)
            (Scenarios.manager_with Scenarios.expired_record))
     = Some "new_token"
  /\ endpoint_calls
       (snd (get_access_token (Scenarios.token_env WriteOk)
               (Scenarios.manager_with Scenarios.fresh_record)))
     = 0%nat.
Proof.
  destruct (C7_refresh_iff_expired (Scenarios.token_env WriteOk)
              (Scenarios.manager_with Scenarios.expired_record)
              Scenarios.expired_record eq_refl eq_refl)
    as [Hiff [_ [Hexpired _]]].
  destruct (C7_refresh_iff_expired (Scenarios.token_env WriteOk)
              (Scenarios.manager_with Scenarios.fresh_record)
              Scenarios.fresh_record eq_refl eq_refl)
    as [_ [_ [_ Hfresh]]].
  split; [exact Hiff|]. split.
  - destruct (Hexpired eq_refl eq_refl) as [_ [_ Htok]].
    apply (Htok "refresh_1"
             {| res_access_token := Some "new_token";
                res_refresh_token := None;
                res_expires_in := Some 3600;
                res_open_id := None |} "new_token"); reflexivity.
  - destruct (Hfresh eq_refl) as [_ [Hreq _]]. exact Hreq.
Defined.

End TokenClaims.

(** * Properties of the content generator *)

Section GeneratorClaims.

Import Writer.

Variable search_body : string -> option string.
Variable search_pr : string -> option string.
Variable findall_hashtags : string -> list string.
Variable remove_hashtags : string -> string.
Variable strip : string -> string.
Variable service : nat -> api_reply.

Local Abbreviation parse :=
  (parse_response search_body search_pr findall_hashtags strip).
Local Abbreviation validate :=
  (validate_post_text findall_hashtags remove_hashtags strip).
Local Abbreviation run_attempts :=
  (attempts search_body search_pr findall_hashtags remove_hashtags strip
     service).
Local Abbreviation ok :=
  (accepted search_body search_pr findall_hashtags remove_hashtags strip).
Local Abbreviation with_body :=
  (has_body search_body search_pr findall_hashtags strip).
Local Abbreviation count_bodies :=
  (bodies search_body search_pr findall_hashtags strip service).

Lemma bodies_succ (a n : nat) :
  count_bodies a (S n)
  = ((if with_body (service a) then 1 else 0) + count_bodies (S a) n)%nat.
Proof.
  unfold bodies. simpl. destruct (with_body (service a)); reflexivity.
Qed.

(** One iteration that does not return. *)
Lemma attempts_retry (n a : nat) (t : tally) :
  ok (service a) = false ->
  run_attempts (S n) a t
  = run_attempts n (S a)
      {| calls := S (calls t);
         validations :=
           (validations t + if with_body (service a) then 1 else 0)%nat |}.
Proof.
  intros Hno. cbn [attempts calls validations].
  unfold accepted, has_body in *.
  destruct (service a) as [|s].
  - f_equal. f_equal. lia.
  - destruct (String.eqb (body (parse s)) ""); cbn [negb andb] in *.
    + f_equal. f_equal. lia.
    + rewrite Hno. f_equal. f_equal. lia.
Qed.

(** One iteration that returns. *)
Lemma attempts_accept (n a : nat) (t : tally) :
  ok (service a) = true ->
  exists s,
    service a = Text s
    /\ with_body (service a) = true
    /\ run_attempts (S n) a t
       = (Some (parse s),
          {| calls := S (calls t); validations := S (validations t) |}).
Proof.
  intros Hyes. cbn [attempts calls validations].
  unfold accepted, has_body in *.
  destruct (service a) as [|s]; [discriminate|].
  exists s. apply andb_true_iff in Hyes. destruct Hyes as [Hb Hv].
  split; [reflexivity|]. split; [exact Hb|].
  apply negb_true_iff in Hb. rewrite Hb, Hv. reflexivity.
Qed.

Lemma attempts_exhausted (n : nat) :
  forall a t,
    (forall j, (j < n)%nat -> ok (service (a + j)) = false) ->
    run_attempts n a t
    = (None, {| calls := calls t + n;
                validations := validations t + count_bodies a n |}).
Proof.
  induction n as [|n IH]; intros a t Hno.
  - simpl. unfold bodies. simpl. destruct t as [c v]. simpl.
    f_equal. f_equal; lia.
  - rewrite attempts_retry.
    + rewrite IH.
      * rewrite bodies_succ. simpl. f_equal. f_equal; lia.
      * intros j Hj. replace (S a + j)%nat with (a + S j)%nat by lia.
        apply Hno. lia.
    + replace a with (a + 0)%nat by lia. apply Hno. lia.
Qed.

Lemma attempts_first_accepted (k : nat) :
  forall n a t,
    (k < n)%nat ->
    (forall j, (j < k)%nat -> ok (service (a + j)) = false) ->
    ok (service (a + k)) = true ->
    exists s,
      service (a + k) = Text s
      /\ run_attempts n a t
         = (Some (parse s),
            {| calls := calls t + S k;
               validations := validations t + count_bodies a (S k) |}).
Proof.
  induction k as [|k IH]; intros n a t Hk Hno Hyes.
  - destruct n as [|n]; [lia|].
    replace (a + 0)%nat with a in * by lia.
    destruct (attempts_accept n a t Hyes) as [s [Hs [Hb Hrun]]].
    exists s. split; [exact Hs|]. rewrite Hrun.
    rewrite bodies_succ, Hb. unfold bodies. simpl.
    f_equal. f_equal; lia.
  - destruct n as [|n]; [lia|].
    rewrite attempts_retry.
    + destruct (IH n (S a)
                  {| calls := S (calls t);
                     validations :=
                       (validations t
                        + if with_body (service a) then 1 else 0)%nat |})
        as [s [Hs Hrun]].
      * lia.
      * intros j Hj. replace (S a + j)%nat with (a + S j)%nat by lia.
        apply Hno. lia.
      * replace (S a + k)%nat with (a + S k)%nat by lia. exact Hyes.
      * exists s. split.
        { replace (a + S k)%nat with (S a + k)%nat by lia. exact Hs. }
        rewrite Hrun. rewrite (bodies_succ a (S k)). simpl.
        f_equal. f_equal; lia.
    + replace a with (a + 0)%nat by lia. apply Hno. lia.
Qed.

Lemma attempts_returned_inv (n : nat) :
  forall a t r t',
    run_attempts n a t = (Some r, t') ->
    exists k,
      (k < n)%nat
      /\ ok (service (a + k)) = true
      /\ (forall j, (j < k)%nat -> ok (service (a + j)) = false).
Proof.
  induction n as [|n IH]; intros a t r t' Hrun.
  - simpl in Hrun. discriminate.
  - destruct (ok (service a)) eqn:Hfirst.
    + exists O. replace (a + 0)%nat with a by lia.
      split; [lia|]. split; [exact Hfirst|]. intros j Hj. lia.
    + rewrite attempts_retry in Hrun by exact Hfirst.
      apply IH in Hrun. destruct Hrun as [k [Hk [Hyes Hno]]].
      exists (S k). split; [lia|]. split.
      * replace (a + S k)%nat with (S a + k)%nat by lia. exact Hyes.
      * intros j Hj. destruct j as [|j].
        { replace (a + 0)%nat with a by lia. exact Hfirst. }
        replace (a + S j)%nat with (S a + j)%nat by lia. apply Hno. lia.
Qed.

Lemma first_accepted_cases (n a : nat) :
  (forall j, (j < n)%nat -> ok (service (a + j)) = false)
  \/ (exists k,
        (k < n)%nat
        /\ ok (service (a + k)) = true
        /\ (forall j, (j < k)%nat -> ok (service (a + j)) = false)).
Proof.
  induction n as [|n [Hnone|[k [Hk [Hyes Hno]]]]].
  - left. intros j Hj. lia.
  - destruct (ok (service (a + n))) eqn:Hlast.
    + right. exists n. split; [lia|]. split; auto.
    + left. intros j Hj. destruct (Nat.eq_dec j n) as [->|Hne]; auto.
      apply Hnone. lia.
  - right. exists k. split; [lia|]. split; auto.
Qed.

(** C8. [generate_post_text] sends at most [max_retries + 1] requests to the
    text service. It returns the parse of the first reply that has a
    non-empty body and whose assembled text passes validation, after exactly
    that many requests; it returns none when no reply among the
    [max_retries + 1] is of that kind, after all of them were requested (when
    the API key is set). [validate_post_text] is called only for the replies
    with a non-empty body. *)
Theorem C8_generate_post_text_retries (key : string) (max_retries : Z) :
  -1 <= max_retries ->
  let run :=
    generate_post_text search_body search_pr findall_hashtags
      remove_hashtags strip service key max_retries in
  Z.of_nat (calls (snd run)) <= max_retries + 1
  /\ (forall r,
        fst run = Some r ->
        exists k s,
          Z.of_nat k <= max_retries
          /\ service k = Text s
          /\ r = parse s
          /\ body r <> ""
          /\ valid (validate (full_text r)) = true
          /\ (forall j, (j < k)%nat -> ok (service j) = false)
          /\ calls (snd run) = S k)
  /\ (key <> "" ->
      forall k,
        Z.of_nat k <= max_retries ->
        ok (service k) = true ->
        (forall j, (j < k)%nat -> ok (service j) = false) ->
        exists s,
          service k = Text s
          /\ fst run = Some (parse s)
          /\ calls (snd run) = S k)
  /\ ((forall k, Z.of_nat k <= max_retries -> ok (service k) = false) ->
      fst run = None
      /\ (key <> "" -> Z.of_nat (calls (snd run)) = max_retries + 1))
  /\ validations (snd run) = count_bodies 0 (calls (snd run)).
Proof.
  intros Hretries run. subst run. unfold generate_post_text.
  destruct (String.eqb key "") eqn:Hkey.
  - apply String.eqb_eq in Hkey. cbn [fst snd calls validations].
    split; [lia|]. split; [discriminate|]. split; [congruence|].
    split; [split; [reflexivity|congruence]|]. reflexivity.
  - set (n := Z.to_nat (max_retries + 1)).
    assert (Hn : Z.of_nat n = max_retries + 1) by (unfold n; lia).
    destruct (first_accepted_cases n 0) as [Hnone|[k [Hk [Hyes Hno]]]].
    + rewrite attempts_exhausted by exact Hnone.
      cbn [fst snd calls validations plus]. cbn [plus] in Hnone.
      split; [lia|]. split; [discriminate|]. split.
      * intros _ k Hk Hyes _. rewrite (Hnone k) in Hyes by lia.
        discriminate.
      * split; [split; [reflexivity|intros _; lia]|reflexivity].
    + destruct (attempts_first_accepted k n 0
                  {| calls := 0; validations := 0 |} Hk Hno Hyes)
        as [s [Hs Hrun]].
      rewrite Hrun. cbn [fst snd calls validations plus].
      cbn [plus] in Hs, Hyes, Hno.
      split; [lia|]. split; [|split; [|split]].
      * intros r Hr. inversion Hr; subst r. exists k, s.
        unfold accepted in Hyes. rewrite Hs in Hyes.
        apply andb_true_iff in Hyes. destruct Hyes as [Hbody Hvalid].
        apply negb_true_iff in Hbody. apply String.eqb_neq in Hbody.
        repeat split; auto. lia.
      * intros _ k' Hk' Hyes' Hno'.
        assert (k' = k).
        { destruct (Nat.lt_trichotomy k' k) as [Hlt|[Heq|Hgt]]; auto.
          - rewrite (Hno k' Hlt) in Hyes'. discriminate.
          - rewrite (Hno' k Hgt) in Hyes. discriminate. }
        subst k'. exists s. auto.
      * intros Hnone. rewrite (Hnone k) in Hyes by lia. discriminate.
      * reflexivity.
Qed.

End GeneratorClaims.

Lemma C8_generate_post_text_retries_witness :
  Z.of_nat
    (Writer.calls
       (snd (Writer.generate_post_text
               Scenarios.toy_search_body Scenarios.toy_search_pr
               Scenarios.toy_findall_hashtags Scenarios.toy_remove_hashtags
               Scenarios.toy_strip Scenarios.scripted_service
               "sk-key" 2)))
  <= 2 + 1.
Proof.
  exact (proj1 (C8_generate_post_text_retries
                  Scenarios.toy_search_body Scenarios.toy_search_pr
                  Scenarios.toy_findall_hashtags
                  Scenarios.toy_remove_hashtags
                  Scenarios.toy_strip Scenarios.scripted_service
                  "sk-key" 2 ltac:(lia))).
Defined.

(** * Properties of the rotation selector and of the product statistics *)

Section TextOrder.

Lemma ascii_compare_refl (a : ascii) : Ascii.compare a a = Eq.
Proof. unfold Ascii.compare. apply N.compare_refl. Qed.

Lemma string_compare_le_trans (s1 : string) :
  forall s2 s3,
    String.compare s1 s2 <> Gt ->
    String.compare s2 s3 <> Gt ->
    String.compare s1 s3 <> Gt.
Proof.
  induction s1 as [|a s1 IH]; intros [|b s2] [|c s3]; simpl;
    try congruence.
  destruct (Ascii.compare a b) eqn:Hab; try congruence;
    destruct (Ascii.compare b c) eqn:Hbc; try congruence.
  - apply Ascii.compare_eq_iff in Hab, Hbc. subst.
    rewrite ascii_compare_refl. apply IH.
  - apply Ascii.compare_eq_iff in Hab. subst. rewrite Hbc. congruence.
  - apply Ascii.compare_eq_iff in Hbc. subst. rewrite Hab. congruence.
  - unfold Ascii.compare in *.
    rewrite N.compare_lt_iff in Hab, Hbc.
    assert (Hac : (N_of_ascii a ?= N_of_ascii c)%N = Lt)
      by (apply N.compare_lt_iff; lia).
    rewrite Hac. congruence.
Qed.

Lemma string_leb_trans (s1 s2 s3 : string) :
  String.leb s1 s2 = true ->
  String.leb s2 s3 = true ->
  String.leb s1 s3 = true.
Proof.
  unfold String.leb. intros H12 H23.
  pose proof (string_compare_le_trans s1 s2 s3) as H.
  destruct (String.compare s1 s2); try discriminate;
    destruct (String.compare s2 s3); try discriminate;
    destruct (String.compare s1 s3); auto;
    exfalso; apply H; congruence.
Qed.

End TextOrder.

Section Rotation.

Import Db.

Lemma timestamp_leb_trans (a b c : option string) :
  timestamp_leb a b = true ->
  timestamp_leb b c = true ->
  timestamp_leb a c = true.
Proof.
  destruct a as [x|], b as [y|], c as [z|]; simpl; try congruence.
  apply string_leb_trans.
Qed.

Lemma timestamp_leb_total (a b : option string) :
  timestamp_leb a b = false -> timestamp_leb b a = true.
Proof.
  destruct a as [x|], b as [y|]; simpl; try congruence.
  destruct (String.leb_total x y); congruence.
Qed.

Lemma rotation_leb_trans (p q r : product) :
  rotation_leb p q = true ->
  rotation_leb q r = true ->
  rotation_leb p r = true.
Proof.
  unfold rotation_leb.
  generalize (never_posted_rank p) (never_posted_rank q)
             (never_posted_rank r).
  intros a b c.
  pose proof (timestamp_leb_trans (last_posted_at p) (last_posted_at q)
                (last_posted_at r)) as Ht.
  destruct (Z.ltb_spec a b), (Z.ltb_spec b a), (Z.ltb_spec b c),
    (Z.ltb_spec c b), (Z.ltb_spec a c), (Z.ltb_spec c a);
    try lia; try congruence;
    destruct (Z.ltb_spec (post_count p) (post_count q)),
      (Z.ltb_spec (post_count q) (post_count p)),
      (Z.ltb_spec (post_count q) (post_count r)),
      (Z.ltb_spec (post_count r) (post_count q)),
      (Z.ltb_spec (post_count p) (post_count r)),
      (Z.ltb_spec (post_count r) (post_count p));
    try lia; try congruence; auto.
Qed.

Lemma rotation_leb_total (p q : product) :
  rotation_leb p q = false -> rotation_leb q p = true.
Proof.
  unfold rotation_leb.
  destruct (Z.ltb_spec (never_posted_rank p) (never_posted_rank q)),
    (Z.ltb_spec (never_posted_rank q) (never_posted_rank p));
    try lia; try congruence;
    destruct (Z.ltb_spec (post_count p) (post_count q)),
      (Z.ltb_spec (post_count q) (post_count p));
    try lia; try congruence.
  apply timestamp_leb_total.
Qed.

(** The comparison of the query is the rotation order of the
    specification. *)
Lemma rotation_leb_spec (p q : product) :
  rotation_leb p q = true <-> spec_rotation_le p q.
Proof.
  unfold rotation_leb, spec_rotation_le, never_posted_rank, timestamp_leb.
  destruct (last_posted_at p) as [x|], (last_posted_at q) as [y|]; simpl;
    destruct (Z.ltb_spec (post_count p) (post_count q)),
      (Z.ltb_spec (post_count q) (post_count p));
    split; intros; try lia; try congruence; try tauto; auto.
  - right. split; [lia|assumption].
  - destruct H1 as [?|[_ ?]]; [lia|assumption].
Qed.

Lemma insert_row_perm (p : product) (l : list product) :
  Permutation (insert_row p l) (p :: l).
Proof.
  induction l as [|q l IH]; simpl.
  - apply Permutation_refl.
  - destruct (rotation_leb p q).
    + apply Permutation_refl.
    + eapply perm_trans; [apply perm_skip, IH|apply perm_swap].
Qed.

Lemma order_by_perm (l : list product) : Permutation (order_by l) l.
Proof.
  induction l as [|p l IH]; simpl.
  - apply perm_nil.
  - eapply perm_trans; [apply insert_row_perm|apply perm_skip, IH].
Qed.

Lemma insert_row_sorted (p : product) (l : list product) :
  StronglySorted rotation_le l ->
  StronglySorted rotation_le (insert_row p l).
Proof.
  induction l as [|q l IH]; intros Hs; simpl.
  - constructor; constructor.
  - inversion Hs as [|? ? Hl Hq]; subst.
    destruct (rotation_leb p q) eqn:Hpq.
    + constructor; [exact Hs|].
      constructor; [exact Hpq|].
      rewrite Forall_forall in *. intros x Hx.
      eapply rotation_leb_trans; [exact Hpq|apply Hq, Hx].
    + constructor; [apply IH, Hl|].
      rewrite Forall_forall in *. intros x Hx.
      apply (Permutation_in _ (insert_row_perm p l)) in Hx.
      destruct Hx as [<-|Hx].
      * apply rotation_leb_total, Hpq.
      * apply Hq, Hx.
Qed.

Lemma order_by_sorted (l : list product) :
  StronglySorted rotation_le (order_by l).
Proof.
  induction l as [|p l IH]; simpl.
  - constructor.
  - apply insert_row_sorted, IH.
Qed.

Lemma StronglySorted_impl (R1 R2 : product -> product -> Prop)
    (l : list product) :
  (forall p q, R1 p q -> R2 p q) ->
  StronglySorted R1 l -> StronglySorted R2 l.
Proof.
  intros HRS. induction 1 as [|p l Hl IH Hp]; constructor; auto.
  rewrite Forall_forall in *. auto.
Qed.

End Rotation.

Section SelectorClaims.

Import Db.

Lemma permutation_of_three {A : Type} (a b c : A) (l : list A) :
  Permutation l [a; b; c] ->
  l = [a; b; c] \/ l = [a; c; b] \/ l = [b; a; c]
  \/ l = [b; c; a] \/ l = [c; a; b] \/ l = [c; b; a].
Proof.
  intros H.
  assert (Hlen := Permutation_length H).
  destruct l as [|x [|y [|z [|? ?]]]]; try discriminate Hlen.
  assert (Hx : In x [a; b; c])
    by (apply (Permutation_in _ H); left; reflexivity).
  destruct Hx as [<-|[<-|[<-|[]]]].
  - apply Permutation_cons_inv in H.
    apply Permutation_sym, Permutation_length_2_inv in H.
    destruct H as [H|H]; inversion H; auto.
  - assert (H' : Permutation (b :: [y; z]) (b :: [a; c])).
    { eapply perm_trans; [exact H|apply perm_swap]. }
    apply Permutation_cons_inv in H'.
    apply Permutation_sym, Permutation_length_2_inv in H'.
    destruct H' as [H'|H']; inversion H'; auto 7.
  - assert (H' : Permutation (c :: [y; z]) (c :: [a; b])).
    { eapply perm_trans; [exact H|].
      eapply perm_trans; [apply perm_skip, perm_swap|apply perm_swap]. }
    apply Permutation_cons_inv in H'.
    apply Permutation_sym, Permutation_length_2_inv in H'.
    destruct H' as [H'|H']; inversion H'; auto 7.
Qed.

Section ThreeProducts.

Variables A B C : product.
Variables tb tc : string.
Hypothesis A_never_posted : last_posted_at A = None.
Hypothesis B_posted : last_posted_at B = Some tb.
Hypothesis B_count : post_count B = 2.
Hypothesis C_posted : last_posted_at C = Some tc.
Hypothesis C_count : post_count C = 0.

Lemma rotation_A_B : rotation_leb A B = true.
Proof.
  unfold rotation_leb, never_posted_rank.
  rewrite A_never_posted, B_posted. reflexivity.
Qed.

Lemma rotation_A_C : rotation_leb A C = true.
Proof.
  unfold rotation_leb, never_posted_rank.
  rewrite A_never_posted, C_posted. reflexivity.
Qed.

Lemma rotation_B_A : rotation_leb B A = false.
Proof.
  unfold rotation_leb, never_posted_rank.
  rewrite A_never_posted, B_posted. reflexivity.
Qed.

Lemma rotation_C_A : rotation_leb C A = false.
Proof.
  unfold rotation_leb, never_posted_rank.
  rewrite A_never_posted, C_posted. reflexivity.
Qed.

Lemma rotation_C_B : rotation_leb C B = true.
Proof.
  unfold rotation_leb, never_posted_rank.
  rewrite B_posted, C_posted, B_count, C_count. reflexivity.
Qed.

Lemma rotation_B_C : rotation_leb B C = false.
Proof.
  unfold rotation_leb, never_posted_rank.
  rewrite B_posted, C_posted, B_count, C_count. reflexivity.
Qed.

Lemma order_by_three (l : list product) :
  Permutation l [A; B; C] -> order_by l = [A; C; B].
Proof.
  intros H. apply permutation_of_three in H.
  destruct H as [-> | [-> | [-> | [-> | [-> | ->]]]]];
    unfold order_by; cbn [fold_right insert_row];
    rewrite ?rotation_A_B, ?rotation_A_C, ?rotation_B_A, ?rotation_C_A,
      ?rotation_C_B, ?rotation_B_C;
    cbn [insert_row];
    rewrite ?rotation_A_B, ?rotation_A_C, ?rotation_B_A, ?rotation_C_A,
      ?rotation_C_B, ?rotation_B_C;
    cbn [insert_row];
    rewrite ?rotation_A_B, ?rotation_A_C, ?rotation_B_A, ?rotation_C_A,
      ?rotation_C_B, ?rotation_B_C;
    reflexivity.
Qed.

End ThreeProducts.

Lemma filter_keeps_all {A : Type} (f : A -> bool) (l : list A) :
  (forall x, In x l -> f x = true) -> filter f l = l.
Proof.
  induction l as [|x l IH]; intros H; simpl.
  - reflexivity.
  - rewrite (H x) by (left; reflexivity).
    f_equal. apply IH. intros y Hy. apply H. right. exact Hy.
Qed.

(** C6. [get_products_for_posting] returns exactly the active products, in
    rotation order: never-posted products first, then ascending
    [post_count], then ascending [last_posted_at]. When the table holds, in
    any order, the active products A (never posted), B ([post_count] 2) and C
    ([post_count] 0, posted once) the result is [A; C; B].
    [get_next_product_for_posting] returns the first candidate, and none when
    there is no candidate. *)
Theorem C6_rotation_order (d : database) :
  (forall p,
     In p (get_products_for_posting d)
     <-> In p (products d) /\ is_active p = true)
  /\ Permutation (get_products_for_posting d)
       (filter is_active (products d))
  /\ StronglySorted spec_rotation_le (get_products_for_posting d)
  /\ (forall A B C tb tc,
        Permutation (products d) [A; B; C] ->
        is_active A = true -> is_active B = true -> is_active C = true ->
        last_posted_at A = None ->
        last_posted_at B = Some tb -> post_count B = 2 ->
        last_posted_at C = Some tc -> post_count C = 0 ->
        get_products_for_posting d = [A; C; B]
        /\ ProductManager.get_next_product_for_posting d = Some A)
  /\ ProductManager.get_next_product_for_posting d
     = hd_error (get_products_for_posting d)
  /\ (get_products_for_posting d = [] ->
      ProductManager.get_next_product_for_posting d = None).
Proof.
  unfold ProductManager.get_next_product_for_posting.
  split; [|split; [|split; [|split; [|split]]]].
  - intros p. unfold get_products_for_posting. split.
    + intros H. apply (Permutation_in _ (order_by_perm _)) in H.
      apply filter_In in H. exact H.
    + intros H. apply filter_In in H.
      apply (Permutation_in _ (Permutation_sym (order_by_perm _))).
      exact H.
  - apply order_by_perm.
  - apply StronglySorted_impl with (R1 := rotation_le).
    + intros p q. apply rotation_leb_spec.
    + apply order_by_sorted.
  - intros A B C tb tc Hperm HA HB HC HlA HlB HcB HlC HcC.
    assert (Hk : get_products_for_posting d = [A; C; B]).
    { unfold get_products_for_posting.
      rewrite filter_keeps_all.
      - apply (order_by_three A B C tb tc); assumption.
      - intros x Hx. apply (Permutation_in _ Hperm) in Hx.
        destruct Hx as [<-|[<-|[<-|[]]]]; assumption. }
    rewrite Hk. auto.
  - destruct (get_products_for_posting d); reflexivity.
  - intros ->. reflexivity.
Qed.

Lemma C6_rotation_order_witness :
  get_products_for_posting
    (Scenarios.database_of
       [Scenarios.product_B; Scenarios.product_C; Scenarios.product_A])
  = [Scenarios.product_A; Scenarios.product_C; Scenarios.product_B]
  /\ ProductManager.get_next_product_for_posting
       (Scenarios.database_of
          [Scenarios.product_B; Scenarios.product_C; Scenarios.product_A])
     = Some Scenarios.product_A.
Proof.
  destruct (C6_rotation_order
              (Scenarios.database_of
                 [Scenarios.product_B; Scenarios.product_C;
                  Scenarios.product_A]))
    as [_ [_ [_ [Hthree _]]]].
  apply (Hthree Scenarios.product_A Scenarios.product_B Scenarios.product_C
           "2025-03-01T09:00:00" "2025-02-01T09:00:00");
    try reflexivity.
  simpl.
  eapply perm_trans; [apply perm_swap|].
  eapply perm_trans; [apply perm_skip, perm_swap|].
  eapply perm_trans; [apply perm_swap|].
  eapply perm_trans; [apply perm_skip, perm_swap|].
  apply Permutation_refl.
Defined.

(** C5 (the code at the failing input). Product p1 has been published three
    times; registering it again through [add_product] replaces its row by one
    with the column defaults, so its [post_count] drops from 3 to 0 and its
    [last_posted_at] is lost. *)
Theorem C5_add_product_resets_post_count :
  statistics "p1" (Scenarios.database_of [Scenarios.posted_p1])
  = Some (3, Some "2025-03-01T09:00:00")
  /\ statistics "p1"
       (snd (add_product "2025-04-01T10:00:00" Scenarios.p1_data
               (Scenarios.database_of [Scenarios.posted_p1])))
     = Some (0, None).
Proof.
  split; vm_compute; reflexivity.
Qed.

End SelectorClaims.

(** * Properties of the orchestrator *)

Section OrchestratorClaims.

Import Main.

(** With the default deadline and interval, [post_product] returns once the
    fuel covers the deadline, whatever the status endpoint answers, as long
    as the clock does not run backwards. *)
Lemma post_product_returns (fuel : nat) (e : env) (post_text image_url : string)
    (c : Poster.clock) :
  (forall n, 0 <= Poster.duration (status_endpoint e n)) ->
  (120 < fuel)%nat ->
  exists outcome c',
    post_product fuel e post_text image_url c = Returned (outcome, c').
Proof.
  intros Hdur Hfuel. unfold post_product.
  destruct (init_photo_post e image_url post_text) as [pid|]; [|eauto].
  destruct (wait_loop_total (status_endpoint e) (Poster.time c) 120 5
              ltac:(lia) Hdur fuel c) as [r [c' Hrun]].
  - replace (120 - (Poster.time c - Poster.time c)) with 120 by lia.
    change (Z.to_nat 120) with 120%nat. lia.
  - unfold Poster.wait_for_publish. rewrite Hrun. eauto.
Qed.

(** A publish that was initialised and did not succeed ended in FAILED or in
    TIMEOUT. *)
Lemma post_product_failure (fuel : nat) (e : env)
    (post_text image_url : string) (c c' : Poster.clock)
    (res : post_outcome) :
  post_product fuel e post_text image_url c = Returned (Some res, c') ->
  success res = false ->
  status res = Poster.STATUS_FAILED \/ status res = "TIMEOUT".
Proof.
  unfold post_product. intros Hrun Hfail.
  destruct (init_photo_post e image_url post_text) as [pid|];
    [|discriminate].
  destruct (Poster.wait_for_publish fuel (status_endpoint e) 120 5 c)
    as [| |[r c'']] eqn:Hwait; try discriminate.
  inversion Hrun; subst; clear Hrun. simpl in *.
  apply wait_loop_returns_inv in Hwait.
  destruct Hwait as [[-> _]|[sr [_ [-> _]]]].
  - right. reflexivity.
  - left. unfold Poster.result_of in *.
    destruct (Poster.status_is (Poster.sr_status sr)
                Poster.STATUS_PUBLISH_COMPLETE);
      [discriminate|reflexivity].
Qed.

(** C2 (as stated, refuted). Hosting and generation succeed and publish-init
    fails: the run reports failure and the publish log stays empty, so no
    entry with status failed is appended. *)
Lemma C2_init_failure_is_not_logged :
  run_single_post 200
    (Scenarios.orchestrator_env None Scenarios.third_poll_source)
    false None Scenarios.world0
  = Returned (false, Scenarios.world0)
  /\ Db.posts (db Scenarios.world0) = []
  /\ ~ (forall w',
          run_single_post 200
            (Scenarios.orchestrator_env None Scenarios.third_poll_source)
            false None Scenarios.world0
          = Returned (false, w') ->
          exists row,
            Db.posts (db w') = (Db.posts (db Scenarios.world0) ++ [row])%list
            /\ Db.post_status row = "failed").
Proof.
  split; [vm_compute; reflexivity|]. split; [reflexivity|].
  intros H.
  destruct (H Scenarios.world0 ltac:(vm_compute; reflexivity))
    as [row [Hposts _]].
  simpl in Hposts. discriminate.
Qed.

(** C2 (amended). For every publish attempt that proceeds past content
    generation and then fails, the product rows, and with them [post_count]
    and [last_posted_at], are left unchanged. When the failure comes from
    [wait_for_publish] (FAILED or TIMEOUT) the orchestrator appends one log
    entry with status failed; when publish-init fails it appends no log
    entry. *)
Theorem C2_failed_publish_log
    (fuel : nat) (e : env) (product_id : option string) (w : world)
    (product : Db.product) (hosted_image_url : string) (p : Writer.post)
    (outcome : option post_outcome) (c' : Poster.clock) :
  past_generation e product_id w product hosted_image_url p ->
  post_product fuel e (Writer.full_text p) hosted_image_url (clock w)
  = Returned (outcome, c') ->
  match outcome with
  | None =>
    run_single_post fuel e false product_id w
    = Returned (false, {| db := db w; clock := c' |})
  | Some res =>
    success res = false ->
    (status res = Poster.STATUS_FAILED \/ status res = "TIMEOUT")
    /\ exists w',
         run_single_post fuel e false product_id w = Returned (false, w')
         /\ clock w' = c'
         /\ Db.products (db w') = Db.products (db w)
         /\ Db.posts (db w')
            = (Db.posts (db w)
               ++ [{| Db.post_id := Db.posts_seq (db w) + 1;
                      Db.post_item_id := Db.item_id product;
                      Db.post_text := Some (Writer.full_text p);
                      Db.hosted_image_url := Some hosted_image_url;
                      Db.tiktok_publish_id := Some (publish_id res);
                      Db.post_status := "failed";
                      Db.posted_at := now e |}])%list
  end.
Proof.
  intros [Hsel [[image_url [Himg [Htruthy Hhost]]] [Hhosted Hgen]]] Hpost.
  assert (Hbody :
    run_single_post_body fuel e false product_id w
    = match outcome with
      | None => Returned (false, {| db := db w; clock := c' |})
      | Some result =>
        if success result then
          run_single_post_body fuel e false product_id w
        else
          Returned
            (false,
             {| db :=
                  snd (Db.add_post_log (now e)
                         {| Db.pl_item_id := Db.item_id product;
                            Db.pl_post_text := Some (Writer.full_text p);
                            Db.pl_hosted_image_url :=
                              Some hosted_image_url;
                            Db.pl_tiktok_publish_id :=
                              Some (publish_id result);
                            Db.pl_status := Some "failed" |} (db w));
                clock := c' |})
      end).
  { unfold run_single_post_body at 1.
    rewrite Hsel, Himg, Htruthy. cbn [negb].
    rewrite Hhost, Hhosted. cbn [negb]. rewrite Hgen, Hpost.
    destruct outcome as [res|]; [|reflexivity].
    destruct (success res) eqn:Hres; [|reflexivity].
    unfold run_single_post_body.
    rewrite Hsel, Himg, Htruthy. cbn [negb].
    rewrite Hhost, Hhosted. cbn [negb]. rewrite Hgen, Hpost, Hres.
    reflexivity. }
  unfold run_single_post. rewrite Hbody.
  destruct outcome as [res|]; [|reflexivity].
  intros Hfail. rewrite Hfail. split.
  - eapply post_product_failure; eauto.
  - eexists. split; [reflexivity|]. simpl. auto.
Qed.

Lemma C2_failed_publish_log_witness :
  exists w',
    run_single_post 200
      (Scenarios.orchestrator_env (Some "pub_1") Scenarios.rejecting_source)
      false None Scenarios.world0
    = Returned (false, w')
    /\ clock w' = {| Poster.time := 0; Poster.polls := 1 |}
    /\ Db.products (db w') = Db.products (db Scenarios.world0)
    /\ Db.posts (db w')
       = (Db.posts (db Scenarios.world0)
          ++ [{| Db.post_id := Db.posts_seq (db Scenarios.world0) + 1;
                 Db.post_item_id := Db.item_id Scenarios.new_p1;
                 Db.post_text :=
                   Some (Writer.full_text Scenarios.generated_post);
                 Db.hosted_image_url := Some "https://host/img.jpg";
                 Db.tiktok_publish_id := Some "pub_1";
                 Db.post_status := "failed";
                 Db.posted_at := "2025-04-01T10:00:00" |}])%list.
Proof.
  assert (Hgen :
    past_generation
      (Scenarios.orchestrator_env (Some "pub_1") Scenarios.rejecting_source)
      None Scenarios.world0 Scenarios.new_p1 "https://host/img.jpg"
      Scenarios.generated_post).
  { split; [reflexivity|]. split; [|split; reflexivity].
    exists "https://x/img.jpg". repeat split; reflexivity. }
  assert (Hrun :
    post_product 200
      (Scenarios.orchestrator_env (Some "pub_1") Scenarios.rejecting_source)
      (Writer.full_text Scenarios.generated_post) "https://host/img.jpg"
      (clock Scenarios.world0)
    = Returned
        (Some {| publish_id := "pub_1"; success := false;
                 status := Poster.STATUS_FAILED;
                 fail_reason := "picture_size_check_failed" |},
         {| Poster.time := 0; Poster.polls := 1 |})).
  { vm_compute. reflexivity. }
  exact (proj2 (C2_failed_publish_log 200 _ None _ _ _ _ _ _ Hgen Hrun
                  eq_refl)).
Defined.

Lemma find_updated_row (i : string) (f : Db.product -> Db.product)
    (l : list Db.product) :
  (forall p, Db.item_id (f p) = Db.item_id p) ->
  find (Db.has_item_id i)
    (map (fun p => if Db.has_item_id i p then f p else p) l)
  = option_map f (find (Db.has_item_id i) l).
Proof.
  intros Hid. induction l as [|p l IH]; simpl; [reflexivity|].
  destruct (Db.has_item_id i p) eqn:Hp.
  - unfold Db.has_item_id in *. rewrite Hid, Hp. reflexivity.
  - rewrite Hp. exact IH.
Qed.

(** X19. A successful publish appends one log entry with status published, adds
    one to the [post_count] that was read when the product was selected and
    sets [last_posted_at] to the current time. *)
Lemma successful_publish_increments_post_count
    (fuel : nat) (e : env) (product_id : option string) (w : world)
    (product : Db.product) (hosted_image_url : string) (p : Writer.post)
    (res : post_outcome) (c' : Poster.clock) :
  past_generation e product_id w product hosted_image_url p ->
  Db.get_product (Db.item_id product) (db w) = Some product ->
  post_product fuel e (Writer.full_text p) hosted_image_url (clock w)
  = Returned (Some res, c') ->
  success res = true ->
  exists w',
    run_single_post fuel e false product_id w = Returned (true, w')
    /\ Db.statistics (Db.item_id product) (db w')
       = Some (Db.post_count product + 1, Some (now e))
    /\ exists row,
         Db.posts (db w') = (Db.posts (db w) ++ [row])%list
         /\ Db.post_status row = "published".
Proof.
  intros [Hsel [[image_url [Himg [Htruthy Hhost]]] [Hhosted Hgen]]]
    Hrow Hpost Hres.
  unfold run_single_post, run_single_post_body.
  rewrite Hsel, Himg, Htruthy. cbn [negb].
  rewrite Hhost, Hhosted. cbn [negb]. rewrite Hgen, Hpost, Hres.
  cbn [Db.add_post_log Db.update_product Db.no_updates
         Db.up_item_name Db.up_price Db.up_image_url Db.up_category
         Db.up_description Db.up_affiliate_url Db.up_last_posted_at
         Db.up_post_count Db.up_is_active Db.products Db.posts].
  eexists. split; [reflexivity|]. split.
  - unfold Db.statistics, Db.get_product in *.
    cbn [db Db.products].
    rewrite find_updated_row by reflexivity.
    rewrite Hrow. reflexivity.
  - eexists. cbn [db Db.posts]. split; reflexivity.
Qed.

End OrchestratorClaims.

(** * Further properties of the token lifecycle manager *)

Section TokenStore.

Import TokenManager.
Import TokenOutcomes.


(** What [refresh_access_token] does on a manager whose cache holds the
    non-empty record [t], by the answer of the token endpoint. *)
Lemma refresh_access_token_cases (e : env) (m : manager) (t : tokens) :
  _tokens m = Some t ->
  is_empty t = false ->
  (truthy (refresh_token t) = false ->
   refresh_access_token e m = (false, count_refresh m))
  /\ (forall rt,
        refresh_token t = Some rt ->
        truthy (Some rt) = true ->
        match token_endpoint e rt with
        | None =>
          refresh_access_token e m
          = (false, count_request (count_refresh m))
        | Some resp =>
          match res_access_token resp with
          | None =>
            refresh_access_token e m
            = (false, count_request (count_refresh m))
          | Some tok =>
            refresh_access_token e m
            = (true,
               snd (save_tokens e
                      {| access_token := Some tok;
                         refresh_token :=
                           match res_refresh_token resp with
                           | Some r => Some r
                           | None => Some rt
                           end;
                         expires_at :=
                           Some (now e
                                 + match res_expires_in resp with
                                   | Some s => s
                                   | None => 86400
                                   end);
                         open_id :=
                           match res_open_id resp with
                           | Some o => Some o
                           | None => open_id t
                           end |}
                      (count_request (count_refresh m))))
          end
        end).
Proof.
  intros Hcache Hne. unfold refresh_access_token.
  cbn [count_refresh _tokens]. rewrite Hcache.
  cbn [dict_truthy]. rewrite Hne. cbn [negb orb].
  split.
  - intros Hno. rewrite Hno. cbn [dict_truthy negb]. rewrite ?Hne.
    reflexivity.
  - intros rt Hrt Htruthy. rewrite Hrt, Htruthy.
    cbn [dict_truthy negb]. rewrite ?Hne. cbn [negb orb].
    destruct (token_endpoint e rt) as [resp|]; [|reflexivity].
    destruct (res_access_token resp) as [tok|]; [|reflexivity].
    destruct (save_tokens e _ _) as [ok m3]. reflexivity.
Qed.

(** [get_access_token] on an expired record is the refresh followed by a
    read of the cache. *)
Lemma get_access_token_expired (e : env) (m : manager) (t : tokens) :
  TIKTOK_ACCESS_TOKEN e = "" ->
  tokens_file m = Stored t ->
  expired e t = true ->
  get_access_token e m
  = (let (ok, m2) :=
       refresh_access_token e
         {| tokens_file := Stored t; _tokens := Some t;
            refresh_calls := refresh_calls m;
            endpoint_calls := endpoint_calls m |} in
     if ok then
       (match _tokens m2 with
        | Some t2 => access_token t2
        | None => None
        end, m2)
     else (None, m2)).
Proof.
  intros Hkey Hfile Hexp.
  pose proof (expired_not_empty e t Hexp) as Hne.
  unfold get_access_token, load_tokens. rewrite Hkey, Hfile. simpl.
  rewrite Hne. unfold expired in Hexp.
  destruct (expires_at t) as [x|]; [|discriminate].
  rewrite Hexp. reflexivity.
Qed.

(** [get_access_token] on a record that has not expired reads the file and
    nothing else. *)
Lemma get_access_token_not_expired (e : env) (m : manager) (t : tokens) :
  TIKTOK_ACCESS_TOKEN e = "" ->
  tokens_file m = Stored t ->
  expired e t = false ->
  get_access_token e m
  = (access_token t,
     {| tokens_file := Stored t; _tokens := Some t;
        refresh_calls := refresh_calls m;
        endpoint_calls := endpoint_calls m |}).
Proof.
  intros Hkey Hfile Hexp.
  unfold get_access_token, load_tokens. rewrite Hkey, Hfile. simpl.
  destruct (is_empty t) eqn:Hempty.
  - rewrite (empty_has_no_access_token t Hempty). reflexivity.
  - unfold expired in Hexp.
    destruct (expires_at t) as [x|]; [|reflexivity].
    rewrite Hexp. reflexivity.
Qed.

(** X2. The token file is written only by a granted refresh: if
    [get_access_token] leaves a different file behind, then no override token
    is configured, the record on disk had expired, and the token endpoint
    answered the stored refresh token with a new access token. *)
Theorem token_file_written_only_by_granted_refresh (e : env) (m : manager) :
  tokens_file (snd (get_access_token e m)) <> tokens_file m ->
  TIKTOK_ACCESS_TOKEN e = ""
  /\ exists t rt resp tok,
       tokens_file m = Stored t
       /\ expired e t = true
       /\ refresh_token t = Some rt
       /\ token_endpoint e rt = Some resp
       /\ res_access_token resp = Some tok.
Proof.
  intros Hchanged.
  destruct (String.eqb (TIKTOK_ACCESS_TOKEN e) "") eqn:Hkey.
  - apply String.eqb_eq in Hkey. split; [exact Hkey|].
    destruct (tokens_file m) as [| |t] eqn:Hfile.
    + exfalso. apply Hchanged.
      unfold get_access_token, load_tokens. rewrite Hkey, Hfile.
      simpl. exact Hfile.
    + exfalso. apply Hchanged.
      unfold get_access_token, load_tokens. rewrite Hkey, Hfile.
      simpl. exact Hfile.
    + destruct (expired e t) eqn:Hexp.
      * pose proof (expired_not_empty e t Hexp) as Hne.
        rewrite (get_access_token_expired e m t Hkey Hfile Hexp)
          in Hchanged.
        destruct (refresh_access_token_cases e
                    {| tokens_file := Stored t; _tokens := Some t;
                       refresh_calls := refresh_calls m;
                       endpoint_calls := endpoint_calls m |} t
                    eq_refl Hne) as [Hmissing Hpresent].
        destruct (truthy (refresh_token t)) eqn:Htruthy.
        -- destruct (refresh_token t) as [rt|] eqn:Hrt;
             [|discriminate].
           specialize (Hpresent rt eq_refl Htruthy).
           destruct (token_endpoint e rt) as [resp|] eqn:Hresp.
           ++ destruct (res_access_token resp) as [tok|] eqn:Htok.
              ** exists t, rt, resp, tok. auto.
              ** exfalso. apply Hchanged. rewrite Hpresent. reflexivity.
           ++ exfalso. apply Hchanged. rewrite Hpresent. reflexivity.
        -- exfalso. apply Hchanged.
           rewrite (Hmissing eq_refl). reflexivity.
      * exfalso. apply Hchanged.
        rewrite (get_access_token_not_expired e m t Hkey Hfile Hexp).
        reflexivity.
  - exfalso. apply Hchanged. unfold get_access_token. rewrite Hkey.
    reflexivity.
Qed.

(** X3. An expired record whose refresh is refused yields no token:
    [get_access_token] returns none, never the expired access token, leaves
    the token file as it was and sends at most one request, and none at all
    when the refresh token is missing. *)
Theorem expired_and_refused_gives_no_token
    (e : env) (m : manager) (t : tokens) :
  TIKTOK_ACCESS_TOKEN e = "" ->
  tokens_file m = Stored t ->
  expired e t = true ->
  refresh_refused e t ->
  fst (get_access_token e m) = None
  /\ tokens_file (snd (get_access_token e m)) = tokens_file m
  /\ (endpoint_calls (snd (get_access_token e m)) <= S (endpoint_calls m))%nat
  /\ (truthy (refresh_token t) = false ->
      endpoint_calls (snd (get_access_token e m)) = endpoint_calls m).
Proof.
  intros Hkey Hfile Hexp Hrefused.
  pose proof (expired_not_empty e t Hexp) as Hne.
  rewrite (get_access_token_expired e m t Hkey Hfile Hexp).
  destruct (refresh_access_token_cases e
              {| tokens_file := Stored t; _tokens := Some t;
                 refresh_calls := refresh_calls m;
                 endpoint_calls := endpoint_calls m |} t eq_refl Hne)
    as [Hmissing Hpresent].
  rewrite Hfile.
  destruct Hrefused as [Hno|[rt [Hrt Hanswer]]].
  - rewrite (Hmissing Hno). simpl. repeat split; auto.
  - destruct (truthy (Some rt)) eqn:Htruthy.
    + specialize (Hpresent rt Hrt Htruthy).
      assert (Hrun :
        refresh_access_token e
          {| tokens_file := Stored t; _tokens := Some t;
             refresh_calls := refresh_calls m;
             endpoint_calls := endpoint_calls m |}
        = (false,
           count_request
             (count_refresh
                {| tokens_file := Stored t; _tokens := Some t;
                   refresh_calls := refresh_calls m;
                   endpoint_calls := endpoint_calls m |}))).
      { destruct Hanswer as [Hnone|[resp [Hresp Htok]]].
        - rewrite Hnone in Hpresent. exact Hpresent.
        - rewrite Hresp, Htok in Hpresent. exact Hpresent. }
      rewrite Hrun. simpl. repeat split; auto.
      intros Hno. rewrite Hrt, Htruthy in Hno. discriminate.
    + rewrite <- Hrt in Htruthy. rewrite (Hmissing Htruthy). simpl.
      repeat split; auto.
Qed.

Lemma expired_and_refused_gives_no_token_witness :
  fst (get_access_token
         {| TIKTOK_ACCESS_TOKEN := "";
            now := 2000;
            token_endpoint := fun _ => None;
            disk_state := WriteOk |}
         (Scenarios.manager_with Scenarios.expired_record)) = None.
Proof.
  refine (proj1 (expired_and_refused_gives_no_token
                   {| TIKTOK_ACCESS_TOKEN := "";
                      now := 2000;
                      token_endpoint := fun _ => None;
                      disk_state := WriteOk |}
                   (Scenarios.manager_with Scenarios.expired_record)
                   Scenarios.expired_record eq_refl eq_refl eq_refl _)).
  right. exists "refresh_1". split; [reflexivity|]. left. reflexivity.
Defined.



Lemma token_file_written_only_by_granted_refresh_witness :
  TIKTOK_ACCESS_TOKEN (Scenarios.token_env WriteOk) = ""
  /\ exists t rt resp tok,
       tokens_file (Scenarios.manager_with Scenarios.expired_record)
       = Stored t
       /\ expired (Scenarios.token_env WriteOk) t = true
       /\ refresh_token t = Some rt
       /\ token_endpoint (Scenarios.token_env WriteOk) rt = Some resp
       /\ res_access_token resp = Some tok.
Proof.
  apply (token_file_written_only_by_granted_refresh
           (Scenarios.token_env WriteOk)
           (Scenarios.manager_with Scenarios.expired_record)).
  vm_compute. discriminate.
Defined.

End TokenStore.

(** * Further properties of the publish state machine *)

Section WaitBounds.

Import Poster.

Variable src : status_source.
Variables start_time timeout interval : Z.

Hypothesis interval_nonneg : 0 <= interval.
Hypothesis duration_nonneg : forall n, 0 <= duration (src n).

(** Every status check is made before the deadline, and check number [k]
    is made no earlier than [k] intervals after the start. *)
Lemma wait_loop_poll_bound (p0 : nat) (fuel : nat) :
  forall c r c',
    (p0 <= polls c)%nat ->
    Z.of_nat (polls c - p0) * interval <= time c - start_time ->
    wait_loop fuel src start_time timeout interval c = Returned (r, c') ->
    polls c' = polls c
    \/ ((polls c < polls c')%nat
        /\ (Z.of_nat (polls c' - p0) - 1) * interval < timeout).
Proof.
  induction fuel as [|fuel IH]; intros c r c' Hp Hinv Hrun;
    [discriminate|].
  cbn [wait_loop] in Hrun.
  destruct (time c - start_time <? timeout) eqn:Hdeadline.
  - apply Z.ltb_lt in Hdeadline.
    assert (Hstop :
      polls {| time := time c + duration (src (polls c));
               polls := S (polls c) |} = polls c
      \/ ((polls c < S (polls c))%nat
          /\ (Z.of_nat (S (polls c) - p0) - 1) * interval < timeout)).
    { right. split; [lia|].
      replace (Z.of_nat (S (polls c) - p0) - 1)
        with (Z.of_nat (polls c - p0)) by lia.
      lia. }
    assert (Hnext :
      forall c2,
        c2 = {| time := time c + duration (src (polls c)) + interval;
                polls := S (polls c) |} ->
        wait_loop fuel src start_time timeout interval c2
        = Returned (r, c') ->
        polls c' = polls c
        \/ ((polls c < polls c')%nat
            /\ (Z.of_nat (polls c' - p0) - 1) * interval < timeout)).
    { intros c2 -> Hrec. apply IH in Hrec; cbn [polls time].
      - cbn [polls] in Hrec. destruct Hrec as [Heq|[Hlt Hb]].
        + right. rewrite Heq. split; [lia|].
          replace (Z.of_nat (S (polls c) - p0) - 1)
            with (Z.of_nat (polls c - p0)) by lia.
          lia.
        + right. split; [lia|exact Hb].
      - lia.
      - specialize (duration_nonneg (polls c)).
        replace (Z.of_nat (S (polls c) - p0))
          with (Z.of_nat (polls c - p0) + 1) by lia.
        lia. }
    unfold check_publish_status, sleep in Hrun.
    destruct (interval <? 0) eqn:Hneg;
      [apply Z.ltb_lt in Hneg; lia|].
    destruct (reply (src (polls c))) as [sr|].
    + destruct (status_is (sr_status sr) STATUS_PUBLISH_COMPLETE).
      { inversion Hrun; subst. exact Hstop. }
      destruct (status_is (sr_status sr) STATUS_FAILED).
      { inversion Hrun; subst. exact Hstop. }
      eapply Hnext; [reflexivity|exact Hrun].
    + eapply Hnext; [reflexivity|exact Hrun].
  - inversion Hrun; subst. left. reflexivity.
Qed.

(** The wait is over at most one status check and one sleep after the
    deadline. *)
Lemma wait_loop_elapsed_bound (longest : Z) (fuel : nat) :
  (forall n, duration (src n) <= longest) ->
  forall c r c',
    time c - start_time <= 0
    \/ time c - start_time < timeout + longest + interval ->
    wait_loop fuel src start_time timeout interval c = Returned (r, c') ->
    time c' - start_time <= 0
    \/ time c' - start_time < timeout + longest + interval.
Proof.
  intros Hlong.
  induction fuel as [|fuel IH]; intros c r c' Hinv Hrun; [discriminate|].
  cbn [wait_loop] in Hrun.
  destruct (time c - start_time <? timeout) eqn:Hdeadline.
  - apply Z.ltb_lt in Hdeadline.
    pose proof (Hlong (polls c)) as Hd.
    pose proof (duration_nonneg (polls c)) as Hd0.
    unfold check_publish_status, sleep in Hrun.
    destruct (interval <? 0) eqn:Hneg;
      [apply Z.ltb_lt in Hneg; lia|].
    assert (Hnext :
      wait_loop fuel src start_time timeout interval
        {| time := time c + duration (src (polls c)) + interval;
           polls := S (polls c) |} = Returned (r, c') ->
      time c' - start_time <= 0
      \/ time c' - start_time < timeout + longest + interval).
    { intros Hrec. apply IH in Hrec; auto. right. cbn [time]. lia. }
    destruct (reply (src (polls c))) as [sr|]; [|auto].
    destruct (status_is (sr_status sr) STATUS_PUBLISH_COMPLETE).
    { inversion Hrun; subst. right. cbn [time]. lia. }
    destruct (status_is (sr_status sr) STATUS_FAILED).
    { inversion Hrun; subst. right. cbn [time]. lia. }
    auto.
  - inversion Hrun; subst. exact Hinv.
Qed.

(** The clock does not run backwards during the wait. *)
Lemma wait_loop_clock_monotone (fuel : nat) :
  forall c r c',
    wait_loop fuel src start_time timeout interval c = Returned (r, c') ->
    time c <= time c'.
Proof.
  induction fuel as [|fuel IH]; intros c r c' Hrun; [discriminate|].
  cbn [wait_loop] in Hrun.
  destruct (time c - start_time <? timeout);
    [|inversion Hrun; subst; lia].
  unfold check_publish_status, sleep in Hrun.
  destruct (interval <? 0) eqn:Hneg; [apply Z.ltb_lt in Hneg; lia|].
  pose proof (duration_nonneg (polls c)) as Hd.
  assert (Hnext :
    wait_loop fuel src start_time timeout interval
      {| time := time c + duration (src (polls c)) + interval;
         polls := S (polls c) |} = Returned (r, c') ->
    time c <= time c').
  { intros Hrec. apply IH in Hrec. cbn [time] in Hrec. lia. }
  destruct (reply (src (polls c))) as [sr|]; [|auto].
  destruct (status_is (sr_status sr) STATUS_PUBLISH_COMPLETE).
  { inversion Hrun; subst. cbn [time]. lia. }
  destruct (status_is (sr_status sr) STATUS_FAILED).
  { inversion Hrun; subst. cbn [time]. lia. }
  auto.
Qed.

End WaitBounds.

Section WaitBoundTheorems.

Import Poster.

(** X5. [wait_for_publish] makes no status check at or after the deadline, and
    check number [k] comes no earlier than [k] intervals after the start:
    unless it made no check at all, the number of checks [n] satisfies
    [(n - 1) * interval < timeout]. With the defaults (120, 5) that is at
    most 24 checks. *)
Theorem wait_for_publish_poll_bound
    (fuel : nat) (src : status_source) (timeout interval : Z)
    (c0 c' : clock) (r : publish_result) :
  0 <= interval ->
  (forall n, 0 <= duration (src n)) ->
  wait_for_publish fuel src timeout interval c0 = Returned (r, c') ->
  (polls c0 <= polls c')%nat
  /\ (polls c' = polls c0
      \/ (Z.of_nat (polls c' - polls c0) - 1) * interval < timeout)
  /\ (timeout <= 0 -> polls c' = polls c0)
  /\ (timeout = 120 -> interval = 5 -> (polls c' - polls c0 <= 24)%nat).
Proof.
  intros Hint Hdur Hrun. unfold wait_for_publish in Hrun.
  pose proof (wait_loop_poll_bound src (time c0) timeout interval Hint Hdur
                (polls c0) fuel c0 r c' ltac:(lia)) as H.
  replace (polls c0 - polls c0)%nat with O in H by lia.
  specialize (H ltac:(lia) Hrun).
  split; [lia|]. split; [tauto|]. split.
  - intros Hneg. destruct H as [H|[Hlt Hb]]; [exact H|]. nia.
  - intros -> ->. destruct H as [H|[Hlt Hb]]; lia.
Qed.

Lemma wait_for_publish_poll_bound_witness :
  (polls Scenarios.clock0 <= 24)%nat
  /\ (24%nat = polls Scenarios.clock0
      \/ (Z.of_nat (24 - polls Scenarios.clock0) - 1) * 5 < 120)
  /\ (120 <= 0 -> 24%nat = polls Scenarios.clock0)
  /\ (120 = 120 -> 5 = 5 -> (24 - polls Scenarios.clock0 <= 24)%nat).
Proof.
  apply (wait_for_publish_poll_bound 30 Scenarios.inbox_source 120 5
           Scenarios.clock0 {| time := 120; polls := 24 |} TIMEOUT_result).
  - lia.
  - intros n. simpl. lia.
  - vm_compute. reflexivity.
Defined.

(** X6. When no status check takes longer than [longest], [wait_for_publish]
    returns less than [timeout + longest + interval] after it was called
    (or at once, when the deadline is not positive). *)
Theorem wait_for_publish_elapsed_bound
    (fuel : nat) (src : status_source) (timeout interval longest : Z)
    (c0 c' : clock) (r : publish_result) :
  0 <= interval ->
  (forall n, 0 <= duration (src n) <= longest) ->
  wait_for_publish fuel src timeout interval c0 = Returned (r, c') ->
  time c' - time c0 = 0
  \/ (0 < time c' - time c0 < timeout + longest + interval).
Proof.
  intros Hint Hdur Hrun. unfold wait_for_publish in Hrun.
  pose proof (wait_loop_clock_monotone src (time c0) timeout interval Hint
                (fun n => proj1 (Hdur n)) fuel c0 r c' Hrun) as Hlater.
  pose proof (wait_loop_elapsed_bound src (time c0) timeout interval Hint
                (fun n => proj1 (Hdur n)) longest fuel
                (fun n => proj2 (Hdur n)) c0 r c' ltac:(lia) Hrun) as H.
  lia.
Qed.

Lemma wait_for_publish_elapsed_bound_witness :
  120 - time Scenarios.clock0 = 0
  \/ (0 < 120 - time Scenarios.clock0 < 120 + 0 + 5).
Proof.
  apply (wait_for_publish_elapsed_bound 30 Scenarios.inbox_source 120 5 0
           Scenarios.clock0 {| time := 120; polls := 24 |} TIMEOUT_result).
  - lia.
  - intros n. simpl. lia.
  - vm_compute. reflexivity.
Defined.

End WaitBoundTheorems.

(** * Further properties of the content generator *)

Section ParseAndValidate.

Import Writer.

Variable search_body : string -> option string.
Variable search_pr : string -> option string.
Variable findall_hashtags : string -> list string.
Variable remove_hashtags : string -> string.
Variable strip : string -> string.





End ParseAndValidate.

Section VariationBatches.

Import Writer.
Import Variations.

Lemma subsequence_length {A : Type} (l1 l2 : list A) :
  subsequence l1 l2 -> (List.length l1 <= List.length l2)%nat.
Proof.
  induction 1; simpl; lia.
Qed.

Lemma subsequence_In {A : Type} (l1 l2 : list A) :
  subsequence l1 l2 -> forall x, In x l1 -> In x l2.
Proof.
  induction 1 as [|x l1 l2 _ IH|x l1 l2 _ IH]; intros y Hy; simpl in *; auto.
  destruct Hy as [->|Hy]; auto.
Qed.

Lemma subsequence_NoDup {A : Type} (l1 l2 : list A) :
  subsequence l1 l2 -> NoDup l2 -> NoDup l1.
Proof.
  induction 1 as [|x l1 l2 Hs IH|x l1 l2 Hs IH]; intros Hnd.
  - constructor.
  - inversion Hnd; subst. constructor; auto.
    intros Hx. apply (subsequence_In _ _ Hs) in Hx. contradiction.
  - inversion Hnd; subst. auto.
Qed.

Lemma subsequence_firstn {A : Type} (n : nat) (l : list A) :
  subsequence (firstn n l) l.
Proof.
  revert n. induction l as [|x l IH]; intros [|n]; simpl;
    try constructor; auto.
  clear IH. induction l; constructor; auto.
Qed.

Lemma slice_to_subsequence {A : Type} (l : list A) (count : Z) :
  subsequence (slice_to l count) l.
Proof.
  unfold slice_to. destruct (0 <=? count); apply subsequence_firstn.
Qed.

Lemma slice_to_length {A : Type} (l : list A) (count : Z) :
  0 <= count ->
  Z.of_nat (List.length (slice_to l count)) <= count.
Proof.
  intros Hc. unfold slice_to.
  destruct (Z.leb_spec 0 count); [|lia].
  pose proof (firstn_le_length (Z.to_nat count) l). lia.
Qed.

Variable search_body : string -> option string.
Variable search_pr : string -> option string.
Variable findall_hashtags : string -> list string.
Variable remove_hashtags : string -> string.
Variable strip : string -> string.

(** What one call of [generate_post_text] with two retries can do. *)
Lemma generate_post_text_outcome (service : nat -> api_reply)
    (key : string) :
  (calls (snd (generate_post_text search_body search_pr findall_hashtags
                 remove_hashtags strip service key 2)) <= 3)%nat
  /\ (key = "" ->
      generate_post_text search_body search_pr findall_hashtags
        remove_hashtags strip service key 2
      = (None, {| calls := 0; validations := 0 |}))
  /\ (forall r,
        fst (generate_post_text search_body search_pr findall_hashtags
               remove_hashtags strip service key 2) = Some r ->
        body r <> ""
        /\ valid (validate_post_text findall_hashtags remove_hashtags strip
                    (full_text r)) = true).
Proof.
  unfold generate_post_text.
  destruct (String.eqb key "") eqn:Hkey.
  - cbn [fst snd calls]. split; [lia|]. split; [reflexivity|discriminate].
  - apply String.eqb_neq in Hkey.
    change (Z.to_nat (2 + 1)) with 3%nat.
    destruct (first_accepted_cases search_body search_pr findall_hashtags
                remove_hashtags strip service 3 0)
      as [Hnone|[k [Hk [Hyes Hno]]]].
    + rewrite attempts_exhausted by exact Hnone.
      cbn [fst snd calls]. split; [lia|]. split; [congruence|discriminate].
    + destruct (attempts_first_accepted search_body search_pr
                  findall_hashtags remove_hashtags strip service k 3 0
                  {| calls := 0; validations := 0 |} Hk Hno Hyes)
        as [s [Hs Hrun]].
      rewrite Hrun. cbn [fst snd calls plus].
      split; [lia|]. split; [congruence|].
      intros r Hr. inversion Hr; subst r.
      unfold accepted in Hyes. rewrite Hs in Hyes.
      apply andb_true_iff in Hyes. destruct Hyes as [Hbody Hvalid].
      apply negb_true_iff in Hbody. apply String.eqb_neq in Hbody.
      auto.
Qed.

Lemma variations_loop_shape (service : nat -> api_reply) (key : string)
    (styles : list string) :
  forall sent,
    subsequence
      (map style
         (fst (variations_loop search_body search_pr findall_hashtags
                 remove_hashtags strip service key styles sent)))
      styles
    /\ (forall v,
          In v (fst (variations_loop search_body search_pr findall_hashtags
                       remove_hashtags strip service key styles sent)) ->
          body (generated v) <> ""
          /\ valid (validate_post_text findall_hashtags remove_hashtags
                      strip (full_text (generated v))) = true)
    /\ (sent
        <= snd (variations_loop search_body search_pr findall_hashtags
                  remove_hashtags strip service key styles sent)
        <= sent + 3 * List.length styles)%nat
    /\ (key = "" ->
        variations_loop search_body search_pr findall_hashtags
          remove_hashtags strip service key styles sent = ([], sent)).
Proof.
  induction styles as [|st rest IH]; intros sent.
  - cbn [variations_loop fst snd map List.length].
    split; [constructor|]. split; [intros v []|]. split; [lia|auto].
  - cbn [variations_loop].
    destruct (generate_post_text_outcome (fun j => service (sent + j)%nat) key)
      as [Hcalls [Hkey Hvalid]].
    destruct (generate_post_text search_body search_pr findall_hashtags
                remove_hashtags strip (fun j => service (sent + j)%nat) key 2)
      as [result t] eqn:Hgen.
    cbn [fst snd] in Hcalls, Hvalid.
    destruct (IH (sent + calls t)%nat) as [Hsub [Hall [Hreq Hempty]]].
    destruct (variations_loop search_body search_pr findall_hashtags
                remove_hashtags strip service key rest (sent + calls t))
      as [results total] eqn:Hrest.
    cbn [fst snd] in *.
    split; [|split; [|split]].
    + destruct result; cbn [map style]; constructor; exact Hsub.
    + intros v Hv. destruct result as [r|]; [|auto].
      destruct Hv as [<-|Hv]; [|auto]. cbn [generated]. auto.
    + cbn [List.length]. lia.
    + intros Hk. specialize (Hkey Hk). specialize (Hempty Hk).
      inversion Hkey; subst. inversion Hempty; subst.
      cbn [calls]. f_equal. lia.
Qed.

(** X10. [generate_multiple_variations] returns at most one post per selected
    style, in the order of the presets and without repeating a style; no
    more than [count] posts when [count] is not negative, and never more
    than four. Every post it returns has a body and passes validation; a
    style whose generation fails is left out. It sends at most three requests
    per selected style, and none without an API key. *)
Theorem generate_multiple_variations_shape
    (service : nat -> api_reply) (key : string) (count : Z) :
  subsequence
    (map style
       (fst (generate_multiple_variations search_body search_pr
               findall_hashtags remove_hashtags strip service key count)))
    (slice_to style_names count)
  /\ NoDup
       (map style
          (fst (generate_multiple_variations search_body search_pr
                  findall_hashtags remove_hashtags strip service key
                  count)))
  /\ (List.length
        (fst (generate_multiple_variations search_body search_pr
                findall_hashtags remove_hashtags strip service key count))
      <= 4)%nat
  /\ (0 <= count ->
      Z.of_nat
        (List.length
           (fst (generate_multiple_variations search_body search_pr
                   findall_hashtags remove_hashtags strip service key
                   count))) <= count)
  /\ (forall v,
        In v (fst (generate_multiple_variations search_body search_pr
                     findall_hashtags remove_hashtags strip service key
                     count)) ->
        body (generated v) <> ""
        /\ valid (validate_post_text findall_hashtags remove_hashtags strip
                    (full_text (generated v))) = true)
  /\ (snd (generate_multiple_variations search_body search_pr
             findall_hashtags remove_hashtags strip service key count)
      <= 3 * List.length (slice_to style_names count) <= 12)%nat
  /\ (key = "" ->
      generate_multiple_variations search_body search_pr findall_hashtags
        remove_hashtags strip service key count = ([], O)).
Proof.
  unfold generate_multiple_variations.
  destruct (variations_loop_shape service key (slice_to style_names count)
              O) as [Hsub [Hall [Hreq Hempty]]].
  pose proof (slice_to_subsequence style_names count) as Hslice.
  pose proof (subsequence_length _ _ Hsub) as Hlen.
  pose proof (subsequence_length _ _ Hslice) as Hlen4.
  rewrite length_map in Hlen. change (List.length style_names) with 4%nat
    in Hlen4.
  split; [exact Hsub|]. split.
  - apply (subsequence_NoDup _ _ Hsub).
    apply (subsequence_NoDup _ _ Hslice).
    unfold style_names. cbn [map fst STYLE_TEMPLATES].
    repeat constructor; simpl; intuition discriminate.
  - split; [lia|]. split.
    + intros Hc. pose proof (slice_to_length style_names count Hc). lia.
    + split; [exact Hall|]. split; [lia|exact Hempty].
Qed.

End VariationBatches.

(** * Further properties of the product and log tables *)

Section ProductTable.

Import Db.

Lemma find_app_none {A : Type} (f : A -> bool) (l1 l2 : list A) :
  find f l1 = None -> find f (l1 ++ l2) = find f l2.
Proof.
  induction l1 as [|x l1 IH]; simpl; [reflexivity|].
  destruct (f x); [discriminate|exact IH].
Qed.

Lemma find_app_some {A : Type} (f : A -> bool) (l1 l2 : list A) (x : A) :
  find f l1 = Some x -> find f (l1 ++ l2) = Some x.
Proof.
  induction l1 as [|y l1 IH]; simpl; [discriminate|].
  destruct (f y); auto.
Qed.

Lemma find_filter_excluded (i : string) (l : list product) :
  find (has_item_id i) (filter (fun p => negb (has_item_id i p)) l) = None.
Proof.
  induction l as [|p l IH]; simpl; [reflexivity|].
  destruct (has_item_id i p) eqn:Hp; simpl; [exact IH|].
  rewrite Hp. exact IH.
Qed.

Lemma find_filter_other (i j : string) (l : list product) :
  i <> j ->
  find (has_item_id j) (filter (fun p => negb (has_item_id i p)) l)
  = find (has_item_id j) l.
Proof.
  intros Hne. induction l as [|p l IH]; simpl; [reflexivity|].
  unfold has_item_id in *.
  destruct (String.eqb (item_id p) i) eqn:Hi; simpl.
  - apply String.eqb_eq in Hi.
    destruct (String.eqb (item_id p) j) eqn:Hj; [|exact IH].
    apply String.eqb_eq in Hj. congruence.
  - destruct (String.eqb (item_id p) j); [reflexivity|exact IH].
Qed.

(** X11. Whatever the table holds, a product that was just added is found under
    its [item_id], with the data that was passed in, the row id that
    [add_product] returned, no posting yet and the active flag set. *)
Theorem add_product_then_get (now : string) (d : product_data)
    (db : database) :
  get_product (pd_item_id d) (snd (add_product now d db))
  = Some {| id := fst (add_product now d db);
            item_id := pd_item_id d;
            item_name := pd_item_name d;
            price := pd_price d;
            image_url := pd_image_url d;
            category := pd_category d;
            description := pd_description d;
            affiliate_url := pd_affiliate_url d;
            last_posted_at := None;
            post_count := 0;
            is_active := true;
            created_at := now;
            updated_at := now |}
  /\ fst (add_product now d db) = products_seq db + 1.
Proof.
  unfold get_product, add_product. cbn [fst snd products].
  split; [|reflexivity].
  rewrite find_app_none by apply find_filter_excluded.
  unfold has_item_id. simpl. rewrite String.eqb_refl. reflexivity.
Qed.

Lemma NoDup_map_filter {A B : Type} (f : A -> B) (g : A -> bool)
    (l : list A) :
  NoDup (map f l) -> NoDup (map f (filter g l)).
Proof.
  induction l as [|x l IH]; simpl; intros Hnd; [constructor|].
  inversion Hnd as [|? ? Hx Hl]; subst.
  destruct (g x); simpl; auto.
  constructor; auto.
  intros Hin. apply Hx. apply in_map_iff in Hin.
  destruct Hin as [y [Hy Hin]]. apply filter_In in Hin.
  apply in_map_iff. exists y. tauto.
Qed.

Lemma NoDup_snoc {A : Type} (l : list A) (x : A) :
  NoDup l -> ~ In x l -> NoDup (l ++ [x]).
Proof.
  induction l as [|y l IH]; simpl; intros Hnd Hx.
  - constructor; [intros []|constructor].
  - inversion Hnd; subst. constructor.
    + rewrite in_app_iff. simpl. intuition.
    + apply IH; auto.
Qed.

Lemma add_product_item_ids_NoDup (now : string) (d : product_data)
    (db : database) :
  NoDup (map item_id (products db)) ->
  NoDup (map item_id (products (snd (add_product now d db)))).
Proof.
  intros Hnd. unfold add_product. cbn [snd products].
  rewrite map_app. cbn [map item_id].
  apply NoDup_snoc.
  - apply NoDup_map_filter. exact Hnd.
  - intros Hin. apply in_map_iff in Hin.
    destruct Hin as [p [Hp Hin]]. apply filter_In in Hin.
    destruct Hin as [_ Hneg]. unfold has_item_id in Hneg.
    rewrite Hp, String.eqb_refl in Hneg. discriminate.
Qed.

(** X12. [add_product] keeps [item_id] unique, leaves every other product as it
    was, and never lowers the row-id sequence. *)
Theorem add_product_keeps_item_id_unique (now : string) (d : product_data)
    (db : database) :
  NoDup (map item_id (products db)) ->
  NoDup (map item_id (products (snd (add_product now d db))))
  /\ (forall j,
        j <> pd_item_id d ->
        get_product j (snd (add_product now d db)) = get_product j db)
  /\ posts (snd (add_product now d db)) = posts db
  /\ products_seq db < products_seq (snd (add_product now d db)).
Proof.
  intros Hnd. unfold add_product, get_product.
  cbn [snd products posts products_seq].
  split; [|split; [|split; [reflexivity|lia]]].
  - apply (add_product_item_ids_NoDup now d db Hnd).
  - intros j Hj.
    destruct (find (has_item_id j) (products db)) as [p|] eqn:Hfind.
    + apply find_app_some.
      rewrite find_filter_other by congruence. exact Hfind.
    + rewrite find_app_none
        by (rewrite find_filter_other by congruence; exact Hfind).
      unfold has_item_id. simpl.
      destruct (String.eqb (pd_item_id d) j) eqn:E; [|reflexivity].
      apply String.eqb_eq in E. congruence.
Qed.

Lemma map_update_untouched (i : string) (f : product -> product)
    (l : list product) :
  existsb (has_item_id i) l = false ->
  map (fun p => if has_item_id i p then f p else p) l = l.
Proof.
  induction l as [|p l IH]; simpl; [reflexivity|].
  intros H. apply orb_false_iff in H. destruct H as [Hp Hl].
  rewrite Hp. f_equal. apply IH. exact Hl.
Qed.

Lemma find_update_other (i j : string) (f : product -> product)
    (l : list product) :
  i <> j ->
  (forall p, item_id (f p) = item_id p) ->
  find (has_item_id j)
    (map (fun p => if has_item_id i p then f p else p) l)
  = find (has_item_id j) l.
Proof.
  intros Hne Hid. induction l as [|p l IH]; simpl; [reflexivity|].
  unfold has_item_id in *.
  destruct (String.eqb (item_id p) i) eqn:Hi.
  - apply String.eqb_eq in Hi. rewrite Hid.
    destruct (String.eqb (item_id p) j) eqn:Hj; [|exact IH].
    apply String.eqb_eq in Hj. congruence.
  - destruct (String.eqb (item_id p) j); [reflexivity|exact IH].
Qed.

Lemma map_update_keys {B : Type} (key : product -> B) (i : string)
    (f : product -> product) (l : list product) :
  (forall p, key (f p) = key p) ->
  map key (map (fun p => if has_item_id i p then f p else p) l)
  = map key l.
Proof.
  intros Hkey. induction l as [|p l IH]; simpl; [reflexivity|].
  rewrite IH. destruct (has_item_id i p); [rewrite Hkey|]; reflexivity.
Qed.

(** X13. [update_product] touches only the product it addresses: the
    [item_id]s and row ids of the table and the publish log stay as they
    are, every other product reads back unchanged, and the addressed product
    reads back with exactly the named fields replaced. It reports true
    exactly when it was given an allowed field and the product exists; when
    it reports false no product row has changed. *)
Theorem update_product_touches_one_product (now i : string)
    (u : product_update) (db : database) :
  map item_id (products (snd (update_product now i u db)))
  = map item_id (products db)
  /\ map id (products (snd (update_product now i u db)))
     = map id (products db)
  /\ posts (snd (update_product now i u db)) = posts db
  /\ (forall j,
        j <> i ->
        get_product j (snd (update_product now i u db)) = get_product j db)
  /\ (no_updates u = false ->
      get_product i (snd (update_product now i u db))
      = option_map (apply_update now u) (get_product i db))
  /\ (fst (update_product now i u db) = true
      <-> no_updates u = false /\ get_product i db <> None)
  /\ (fst (update_product now i u db) = false ->
      products (snd (update_product now i u db)) = products db).
Proof.
  unfold update_product, get_product.
  destruct (no_updates u) eqn:Hnone; cbn [fst snd products posts].
  - repeat split; auto; try discriminate.
    intros [H _]. discriminate.
  - split; [apply map_update_keys; reflexivity|].
    split; [apply map_update_keys; reflexivity|].
    split; [reflexivity|].
    split; [intros j Hj; apply find_update_other;
            [congruence|reflexivity]|].
    split; [intros _; apply find_updated_row; reflexivity|].
    split.
    + split.
      * intros Hex. split; [reflexivity|].
        apply existsb_exists in Hex. destruct Hex as [p [Hin Hp]].
        destruct (find (has_item_id i) (products db)) eqn:Hfind;
          [discriminate|].
        apply (find_none _ _ Hfind) in Hin. congruence.
      * intros [_ Hfound].
        destruct (find (has_item_id i) (products db)) as [p|] eqn:Hfind;
          [|congruence].
        apply find_some in Hfind. apply existsb_exists.
        exists p. exact Hfind.
    + intros Hex. apply map_update_untouched. exact Hex.
Qed.

End ProductTable.

Section Deactivation.

Import Db.
Import DbOps.

(** X14. After [deactivate_product] the product is no longer a candidate for
    posting, so the rotation never selects it, and every other candidate
    remains one. *)
Theorem deactivated_product_is_never_selected (now i : string)
    (db : database) :
  (forall p,
     In p (get_products_for_posting (snd (deactivate_product now i db))) ->
     item_id p <> i)
  /\ (forall p,
        In p (get_products_for_posting db) ->
        item_id p <> i ->
        In p (get_products_for_posting (snd (deactivate_product now i db))))
  /\ (forall p,
        ProductManager.get_next_product_for_posting
          (snd (deactivate_product now i db)) = Some p ->
        item_id p <> i).
Proof.
  assert (Hcand :
    forall d p,
      In p (get_products_for_posting d)
      <-> In p (products d) /\ is_active p = true).
  { intros d p. unfold get_products_for_posting. split.
    - intros H. apply (Permutation_in _ (order_by_perm _)) in H.
      apply filter_In in H. exact H.
    - intros H. apply filter_In in H.
      apply (Permutation_in _ (Permutation_sym (order_by_perm _))).
      exact H. }
  assert (Hfirst :
    forall p,
      In p (get_products_for_posting (snd (deactivate_product now i db))) ->
      item_id p <> i).
  { intros p Hp. apply Hcand in Hp. destruct Hp as [Hin Hact].
    unfold deactivate_product, update_product in Hin.
    cbn [no_updates up_item_name up_price up_image_url up_category
           up_description up_affiliate_url up_last_posted_at up_post_count
           up_is_active snd products] in Hin.
    apply in_map_iff in Hin. destruct Hin as [q [Hq Hin]].
    destruct (has_item_id i q) eqn:Hi.
    - subst p. cbn [apply_update is_active set_field up_is_active] in Hact.
      discriminate.
    - subst p. unfold has_item_id in Hi. apply String.eqb_neq in Hi.
      exact Hi. }
  split; [exact Hfirst|]. split.
  - intros p Hp Hne. apply Hcand in Hp. destruct Hp as [Hin Hact].
    apply Hcand. split; [|exact Hact].
    unfold deactivate_product, update_product.
    cbn [no_updates up_item_name up_price up_image_url up_category
           up_description up_affiliate_url up_last_posted_at up_post_count
           up_is_active snd products].
    apply in_map_iff. exists p. split; [|exact Hin].
    unfold has_item_id. apply String.eqb_neq in Hne. rewrite Hne.
    reflexivity.
  - intros p Hnext. apply Hfirst.
    unfold ProductManager.get_next_product_for_posting in Hnext.
    destruct (get_products_for_posting (snd (deactivate_product now i db)))
      as [|q l]; [discriminate|].
    inversion Hnext; subst. left. reflexivity.
Qed.

End Deactivation.

(** * Ordering queries and the integrity of the tables *)

Section GenericOrderBy.

Import DbOps.

Variable A : Type.
Variable leb : A -> A -> bool.
Hypothesis leb_total : forall x y, leb x y = false -> leb y x = true.
Hypothesis leb_trans :
  forall x y z, leb x y = true -> leb y z = true -> leb x z = true.

Lemma insert_ordered_perm (x : A) (l : list A) :
  Permutation (insert_ordered leb x l) (x :: l).
Proof.
  induction l as [|y l IH]; simpl.
  - apply Permutation_refl.
  - destruct (leb x y).
    + apply Permutation_refl.
    + eapply perm_trans; [apply perm_skip, IH|apply perm_swap].
Qed.

Lemma sort_rows_perm (l : list A) : Permutation (sort_rows leb l) l.
Proof.
  induction l as [|x l IH]; simpl.
  - apply perm_nil.
  - eapply perm_trans; [apply insert_ordered_perm|apply perm_skip, IH].
Qed.

Lemma insert_ordered_sorted (x : A) (l : list A) :
  StronglySorted (fun a b => leb a b = true) l ->
  StronglySorted (fun a b => leb a b = true) (insert_ordered leb x l).
Proof.
  induction l as [|y l IH]; intros Hs; simpl.
  - constructor; constructor.
  - inversion Hs as [|? ? Hl Hy]; subst.
    destruct (leb x y) eqn:Hxy.
    + constructor; [exact Hs|].
      constructor; [exact Hxy|].
      rewrite Forall_forall in *. intros z Hz.
      eapply leb_trans; [exact Hxy|apply Hy, Hz].
    + constructor; [apply IH, Hl|].
      rewrite Forall_forall in *. intros z Hz.
      apply (Permutation_in _ (insert_ordered_perm x l)) in Hz.
      destruct Hz as [<-|Hz].
      * apply leb_total, Hxy.
      * apply Hy, Hz.
Qed.

Lemma sort_rows_sorted (l : list A) :
  StronglySorted (fun a b => leb a b = true) (sort_rows leb l).
Proof.
  induction l as [|x l IH]; simpl.
  - constructor.
  - apply insert_ordered_sorted, IH.
Qed.

Lemma StronglySorted_app_cross (R : A -> A -> Prop) (l1 l2 : list A) :
  StronglySorted R (l1 ++ l2) ->
  forall x y, In x l1 -> In y l2 -> R x y.
Proof.
  induction l1 as [|a l1 IH]; simpl; intros Hs x y Hx Hy; [contradiction|].
  inversion Hs as [|? ? Hl Ha]; subst.
  destruct Hx as [<-|Hx].
  - rewrite Forall_forall in Ha. apply Ha. apply in_or_app. right. exact Hy.
  - apply IH; auto.
Qed.

Lemma StronglySorted_firstn (R : A -> A -> Prop) (n : nat) (l : list A) :
  StronglySorted R l -> StronglySorted R (firstn n l).
Proof.
  revert n. induction l as [|a l IH]; intros [|n] Hs; simpl;
    try constructor.
  - inversion Hs; subst. apply IH. assumption.
  - inversion Hs as [|? ? Hl Ha]; subst.
    rewrite Forall_forall in *. intros x Hx. apply Ha.
    rewrite <- (firstn_skipn n l). apply in_or_app. left. exact Hx.
Qed.

End GenericOrderBy.

Section RecentPosts.

Import Db.
Import DbOps.

Lemma newer_first_total (p q : post_row) :
  newer_first p q = false -> newer_first q p = true.
Proof.
  unfold newer_first. intros H.
  destruct (String.leb_total (posted_at q) (posted_at p)); congruence.
Qed.

Lemma newer_first_trans (p q r : post_row) :
  newer_first p q = true -> newer_first q r = true ->
  newer_first p r = true.
Proof.
  unfold newer_first. intros H1 H2.
  eapply string_leb_trans; eassumption.
Qed.

(** X15. [get_recent_posts] returns entries of the log, newest first, no more
    than [limit] of them (all of them when [limit] is negative), and no entry
    it leaves out is newer than an entry it returns. *)
Theorem get_recent_posts_newest (limit : Z) (d : database) :
  (forall r, In r (get_recent_posts limit d) -> In r (posts d))
  /\ StronglySorted (fun p q => String.leb (posted_at q) (posted_at p) = true)
       (get_recent_posts limit d)
  /\ (0 <= limit ->
      List.length (get_recent_posts limit d)
      = Nat.min (Z.to_nat limit) (List.length (posts d)))
  /\ (limit < 0 -> Permutation (get_recent_posts limit d) (posts d))
  /\ (forall r q,
        In r (get_recent_posts limit d) ->
        In q (posts d) ->
        ~ In q (get_recent_posts limit d) ->
        String.leb (posted_at q) (posted_at r) = true).
Proof.
  unfold get_recent_posts, sql_limit.
  pose proof (sort_rows_perm post_row newer_first (posts d)) as Hperm.
  pose proof (sort_rows_sorted post_row newer_first newer_first_total
                newer_first_trans (posts d)) as Hsorted.
  destruct (Z.ltb_spec limit 0) as [Hneg|Hpos].
  - split; [intros r Hr; apply (Permutation_in _ Hperm); exact Hr|].
    split; [exact Hsorted|]. split; [lia|]. split; [auto|].
    intros r q _ Hq Hout. exfalso. apply Hout.
    apply (Permutation_in _ (Permutation_sym Hperm)). exact Hq.
  - set (s := sort_rows newer_first (posts d)) in *.
    set (n := Z.to_nat limit).
    split.
    { intros r Hr. apply (Permutation_in _ Hperm).
      rewrite <- (firstn_skipn n s). apply in_or_app. left. exact Hr. }
    split; [apply StronglySorted_firstn; exact Hsorted|].
    split.
    { intros _. rewrite length_firstn.
      rewrite (Permutation_length Hperm). reflexivity. }
    split; [lia|].
    intros r q Hr Hq Hout.
    apply (Permutation_in _ (Permutation_sym Hperm)) in Hq.
    rewrite <- (firstn_skipn n s) in Hq. apply in_app_or in Hq.
    destruct Hq as [Hq|Hq]; [contradiction|].
    rewrite <- (firstn_skipn n s) in Hsorted.
    apply (StronglySorted_app_cross post_row _ _ _ Hsorted r q Hr Hq).
Qed.

End RecentPosts.

Section TableIntegrity.

Import Db.
Import DbOps.

Lemma Forall_filter {A : Type} (P : A -> Prop) (f : A -> bool)
    (l : list A) :
  Forall P l -> Forall P (filter f l).
Proof.
  rewrite !Forall_forall. intros H x Hx. apply filter_In in Hx.
  apply H. tauto.
Qed.

Lemma fresh_id_not_in {A : Type} (key : A -> Z) (bound : Z) (l : list A) :
  Forall (fun r => key r <= bound) l -> ~ In (bound + 1) (map key l).
Proof.
  rewrite Forall_forall. intros H Hin. apply in_map_iff in Hin.
  destruct Hin as [r [Hr Hin]]. specialize (H r Hin). lia.
Qed.

Lemma Forall_bound_weaken {A : Type} (key : A -> Z) (b1 b2 : Z)
    (l : list A) :
  b1 <= b2 ->
  Forall (fun r => key r <= b1) l -> Forall (fun r => key r <= b2) l.
Proof.
  intros Hb. rewrite !Forall_forall. intros H x Hx.
  specialize (H x Hx). lia.
Qed.

Lemma Forall_map_key {A : Type} (key : A -> Z) (bound : Z) (f : A -> A)
    (l : list A) :
  (forall r, key (f r) = key r) ->
  Forall (fun r => key r <= bound) l ->
  Forall (fun r => key r <= bound) (map f l).
Proof.
  intros Hkey. rewrite !Forall_forall. intros H x Hx.
  apply in_map_iff in Hx. destruct Hx as [r [<- Hr]].
  rewrite Hkey. auto.
Qed.

Lemma add_product_well_formed (now : string) (d : product_data)
    (db : database) :
  well_formed db -> well_formed (snd (add_product now d db)).
Proof.
  intros [Hitems [Hposts [Hpbound [Hids Hbound]]]].
  pose proof (add_product_item_ids_NoDup now d db Hitems) as Hitems'.
  unfold well_formed. split; [exact Hitems'|].
  unfold add_product. cbn [snd products posts products_seq posts_seq].
  split; [exact Hposts|]. split; [exact Hpbound|]. split.
  - rewrite map_app. cbn [map id]. apply NoDup_snoc.
    + apply NoDup_map_filter. exact Hids.
    + apply fresh_id_not_in. apply Forall_filter. exact Hbound.
  - apply Forall_app. split.
    + apply Forall_filter.
      apply (Forall_bound_weaken id (products_seq db)); [lia|exact Hbound].
    + constructor; [cbn [id]; lia|constructor].
Qed.

Lemma update_product_well_formed (now i : string) (u : product_update)
    (db : database) :
  well_formed db -> well_formed (snd (update_product now i u db)).
Proof.
  intros [Hitems [Hposts [Hpbound [Hids Hbound]]]].
  unfold update_product.
  destruct (no_updates u); cbn [snd]; [repeat split; assumption|].
  unfold well_formed. cbn [products posts products_seq posts_seq].
  rewrite !map_update_keys by reflexivity.
  repeat split; try assumption.
  apply (Forall_map_key id (products_seq db)
           (fun p => if has_item_id i p then apply_update now u p else p));
    [|exact Hbound].
  intros r. destruct (has_item_id i r); reflexivity.
Qed.

Lemma add_post_log_well_formed (now : string) (d : post_data)
    (db : database) :
  well_formed db ->
  well_formed (snd (add_post_log now d db))
  /\ ~ In (fst (add_post_log now d db)) (map post_id (posts db)).
Proof.
  intros [Hitems [Hposts [Hpbound [Hids Hbound]]]].
  unfold add_post_log, well_formed.
  cbn [fst snd products posts products_seq posts_seq].
  pose proof (fresh_id_not_in post_id (posts_seq db) (posts db) Hpbound)
    as Hfresh.
  split; [|exact Hfresh].
  split; [exact Hitems|]. split.
  - rewrite map_app. cbn [map post_id]. apply NoDup_snoc; assumption.
  - split.
    + apply Forall_app. split.
      * apply (Forall_bound_weaken post_id (posts_seq db));
          [lia|exact Hpbound].
      * constructor; [cbn [post_id]; lia|constructor].
    + split; assumption.
Qed.

Lemma update_post_status_well_formed (i : Z) (new_status : string)
    (db : database) :
  well_formed db -> well_formed (snd (update_post_status i new_status db)).
Proof.
  intros [Hitems [Hposts [Hpbound [Hids Hbound]]]].
  unfold update_post_status, well_formed.
  cbn [snd products posts products_seq posts_seq].
  assert (Hkeys :
    map post_id
      (map (fun r =>
              if has_post_id i r then
                {| post_id := post_id r;
                   post_item_id := post_item_id r;
                   post_text := post_text r;
                   hosted_image_url := hosted_image_url r;
                   tiktok_publish_id := tiktok_publish_id r;
                   post_status := new_status;
                   posted_at := posted_at r |}
              else r) (posts db))
    = map post_id (posts db)).
  { rewrite map_map. apply map_ext. intros r.
    destruct (has_post_id i r); reflexivity. }
  rewrite Hkeys. repeat split; try assumption.
  apply Forall_map_key; [|exact Hpbound].
  intros r. destruct (has_post_id i r); reflexivity.
Qed.

(** X16. Every write of [db_manager] keeps the tables well formed: [item_id]s,
    product row ids and log ids stay unique and within the ids handed out so
    far, and the id that [add_post_log] returns is not the id of any earlier
    log entry. *)
Theorem writes_keep_tables_well_formed (now : string) (db : database) :
  well_formed db ->
  (forall d, well_formed (snd (add_product now d db)))
  /\ (forall i u, well_formed (snd (update_product now i u db)))
  /\ (forall i, well_formed (snd (deactivate_product now i db)))
  /\ (forall d,
        well_formed (snd (add_post_log now d db))
        /\ ~ In (fst (add_post_log now d db)) (map post_id (posts db)))
  /\ (forall i s, well_formed (snd (update_post_status i s db))).
Proof.
  intros Hwf.
  split; [intros d; apply add_product_well_formed; exact Hwf|].
  split; [intros i u; apply update_product_well_formed; exact Hwf|].
  split; [intros i; apply update_product_well_formed; exact Hwf|].
  split; [intros d; apply add_post_log_well_formed; exact Hwf|].
  intros i s. apply update_post_status_well_formed. exact Hwf.
Qed.

Lemma scenario_database_well_formed :
  well_formed (Scenarios.database_of [Scenarios.new_p1]).
Proof.
  unfold well_formed. simpl.
  repeat split; repeat constructor; simpl; try tauto; lia.
Defined.

Lemma writes_keep_tables_well_formed_witness :
  well_formed
    (snd (add_product "2025-04-01T10:00:00" Scenarios.p1_data
            (Scenarios.database_of [Scenarios.new_p1]))).
Proof.
  exact (proj1 (writes_keep_tables_well_formed "2025-04-01T10:00:00"
                  (Scenarios.database_of [Scenarios.new_p1])
                  scenario_database_well_formed) Scenarios.p1_data).
Defined.

End TableIntegrity.

(** * Further properties of the orchestrator *)

Section OrchestratorEffects.

Import Main.

(** X17. A dry run has no side effect: whatever the collaborators answer, and
    with any fuel, [run_single_post] in dry-run mode returns and leaves the
    database and the clock as they were; no status check is made. *)
Theorem dry_run_changes_nothing (fuel : nat) (e : env)
    (product_id : option string) (w : world) :
  exists b, run_single_post fuel e true product_id w = Returned (b, w).
Proof.
  unfold run_single_post, run_single_post_body.
  destruct (if truthy product_id
            then match product_id with
                 | Some i => Db.get_product i (db w)
                 | None => None
                 end
            else ProductManager.get_next_product_for_posting (db w))
    as [product|]; [|eauto].
  destruct (negb (truthy (Db.image_url product))); [eauto|].
  destruct (Db.image_url product) as [image_url|]; [|eauto].
  destruct (negb (truthy (get_hosted_url e image_url))); [eauto|].
  destruct (get_hosted_url e image_url) as [hosted|]; [|eauto].
  destruct (generate_post_text e product); eauto.
Qed.

(** X18. Without a selected product, a hosted image and a generated text there
    is no publish: [run_single_post] reports failure and leaves the database
    and the clock as they were, in dry-run mode or not. *)
Theorem no_publish_before_generation (fuel : nat) (e : env) (dry_run : bool)
    (product_id : option string) (w : world) :
  (forall product hosted_image_url p,
     ~ past_generation e product_id w product hosted_image_url p) ->
  run_single_post fuel e dry_run product_id w = Returned (false, w).
Proof.
  intros Hno. unfold run_single_post, run_single_post_body.
  destruct (if truthy product_id
            then match product_id with
                 | Some i => Db.get_product i (db w)
                 | None => None
                 end
            else ProductManager.get_next_product_for_posting (db w))
    as [product|] eqn:Hsel; [|reflexivity].
  destruct (truthy (Db.image_url product)) eqn:Himg_ok; [|reflexivity].
  cbn [negb].
  destruct (Db.image_url product) as [image_url|] eqn:Himg; [|reflexivity].
  destruct (truthy (get_hosted_url e image_url)) eqn:Hhost_ok;
    [|reflexivity].
  cbn [negb].
  destruct (get_hosted_url e image_url) as [hosted|] eqn:Hhost;
    [|reflexivity].
  destruct (generate_post_text e product) as [p|] eqn:Hgen; [|reflexivity].
  exfalso. apply (Hno product hosted p).
  unfold past_generation. rewrite Hsel.
  split; [reflexivity|]. split; [|split; [exact Hhost_ok|exact Hgen]].
  exists image_url. auto.
Qed.

Lemma no_publish_before_generation_witness :
  run_single_post 200
    (Scenarios.orchestrator_env (Some "pub_1") Scenarios.third_poll_source)
    false (Some "missing")
    Scenarios.world0
  = Returned (false, Scenarios.world0).
Proof.
  apply (no_publish_before_generation 200
           (Scenarios.orchestrator_env (Some "pub_1")
              Scenarios.third_poll_source)
           false (Some "missing") Scenarios.world0).
  intros product hosted p [Hsel _]. vm_compute in Hsel. discriminate.
Defined.

Lemma successful_publish_increments_post_count_witness :
  exists w',
    run_single_post 200
      (Scenarios.orchestrator_env (Some "pub_1") Scenarios.third_poll_source)
      false None Scenarios.world0
    = Returned (true, w')
    /\ Db.statistics (Db.item_id Scenarios.new_p1) (db w')
       = Some (Db.post_count Scenarios.new_p1 + 1,
               Some (now (Scenarios.orchestrator_env (Some "pub_1")
                            Scenarios.third_poll_source)))
    /\ exists row,
         Db.posts (db w') = (Db.posts (db Scenarios.world0) ++ [row])%list
         /\ Db.post_status row = "published".
Proof.
  apply (successful_publish_increments_post_count 200
           (Scenarios.orchestrator_env (Some "pub_1")
              Scenarios.third_poll_source)
           None Scenarios.world0 Scenarios.new_p1 "https://host/img.jpg"
           Scenarios.generated_post
           {| publish_id := "pub_1"; success := true;
              status := Poster.STATUS_PUBLISH_COMPLETE;
              fail_reason := "" |}
           {| Poster.time := 10; Poster.polls := 3 |}).
  - split; [reflexivity|]. split; [|split; reflexivity].
    exists "https://x/img.jpg". repeat split; reflexivity.
  - reflexivity.
  - vm_compute. reflexivity.
  - reflexivity.
Defined.

(** X20. What one run of [run_single_post] can do to the database: nothing at
    all; or append one log entry with status failed and leave every product
    row as it was, reporting failure; or append one log entry with status
    published and update the selected product only, reporting success.
    Earlier log entries are never changed or removed, and success outside
    dry-run mode always comes with a published entry. *)
Theorem run_single_post_effects (fuel : nat) (e : env) (dry_run : bool)
    (product_id : option string) (w w' : world) (b : bool) :
  run_single_post fuel e dry_run product_id w = Returned (b, w') ->
  (db w' = db w /\ (b = true -> dry_run = true))
  \/ (b = false /\ dry_run = false
      /\ Db.products (db w') = Db.products (db w)
      /\ exists row,
           Db.posts (db w') = (Db.posts (db w) ++ [row])%list
           /\ Db.post_status row = "failed")
  \/ (b = true /\ dry_run = false
      /\ exists row product,
           Db.posts (db w') = (Db.posts (db w) ++ [row])%list
           /\ Db.post_status row = "published"
           /\ Db.post_item_id row = Db.item_id product
           /\ map Db.item_id (Db.products (db w'))
              = map Db.item_id (Db.products (db w))
           /\ forall j,
                j <> Db.item_id product ->
                Db.get_product j (db w') = Db.get_product j (db w)).
Proof.
  unfold run_single_post, run_single_post_body. intros Hrun.
  destruct (if truthy product_id
            then match product_id with
                 | Some i => Db.get_product i (db w)
                 | None => None
                 end
            else ProductManager.get_next_product_for_posting (db w))
    as [product|].
  2: { inversion Hrun; subst. left. split; [reflexivity|discriminate]. }
  destruct (negb (truthy (Db.image_url product))).
  { inversion Hrun; subst. left. split; [reflexivity|discriminate]. }
  destruct (Db.image_url product) as [image_url|].
  2: { inversion Hrun; subst. left. split; [reflexivity|discriminate]. }
  destruct (negb (truthy (get_hosted_url e image_url))).
  { inversion Hrun; subst. left. split; [reflexivity|discriminate]. }
  destruct (get_hosted_url e image_url) as [hosted|].
  2: { inversion Hrun; subst. left. split; [reflexivity|discriminate]. }
  destruct (generate_post_text e product) as [p|].
  2: { inversion Hrun; subst. left. split; [reflexivity|discriminate]. }
  destruct dry_run.
  { inversion Hrun; subst. left. split; reflexivity. }
  destruct (post_product fuel e (Writer.full_text p) hosted (clock w))
    as [|msg|[[res|] c']].
  - discriminate.
  - inversion Hrun; subst. left. split; [reflexivity|discriminate].
  - destruct (success res).
    + cbn [Db.add_post_log Db.update_product Db.no_updates
             Db.up_item_name Db.up_price Db.up_image_url Db.up_category
             Db.up_description Db.up_affiliate_url Db.up_last_posted_at
             Db.up_post_count Db.up_is_active Db.products Db.posts]
        in Hrun.
      inversion Hrun; subst. right. right.
      split; [reflexivity|]. split; [reflexivity|].
      eexists. exists product. cbn [db Db.posts Db.products].
      split; [reflexivity|]. split; [reflexivity|].
      split; [reflexivity|]. split.
      * apply map_update_keys. reflexivity.
      * intros j Hj. unfold Db.get_product. cbn [Db.products].
        apply find_update_other; [congruence|reflexivity].
    + cbn [Db.add_post_log] in Hrun. inversion Hrun; subst.
      right. left. split; [reflexivity|]. split; [reflexivity|].
      cbn [db Db.products Db.posts]. split; [reflexivity|].
      eexists. split; reflexivity.
  - inversion Hrun; subst. left. cbn [db].
    split; [reflexivity|discriminate].
Qed.

Lemma run_single_post_effects_witness :
  (db Scenarios.world0 = db Scenarios.world0
   /\ (false = true -> false = true))
  \/ (false = false /\ false = false
      /\ Db.products (db Scenarios.world0)
         = Db.products (db Scenarios.world0)
      /\ exists row,
           Db.posts (db Scenarios.world0)
           = (Db.posts (db Scenarios.world0) ++ [row])%list
           /\ Db.post_status row = "failed")
  \/ (false = true /\ false = false
      /\ exists row product,
           Db.posts (db Scenarios.world0)
           = (Db.posts (db Scenarios.world0) ++ [row])%list
           /\ Db.post_status row = "published"
           /\ Db.post_item_id row = Db.item_id product
           /\ map Db.item_id (Db.products (db Scenarios.world0))
              = map Db.item_id (Db.products (db Scenarios.world0))
           /\ forall j,
                j <> Db.item_id product ->
                Db.get_product j (db Scenarios.world0)
                = Db.get_product j (db Scenarios.world0)).
Proof.
  apply (run_single_post_effects 200
           (Scenarios.orchestrator_env None Scenarios.third_poll_source)
           false None Scenarios.world0 Scenarios.world0 false).
  vm_compute. reflexivity.
Defined.

End OrchestratorEffects.

(** * Properties of the ingestion of products *)

Section UrlFile.

Import Ingest.
Import Variations.

Lemma filter_subsequence {A : Type} (f : A -> bool) (l : list A) :
  subsequence (filter f l) l.
Proof.
  induction l as [|x l IH]; simpl; [constructor|].
  destruct (f x); constructor; exact IH.
Qed.

(** X21. [load_urls_from_file] returns the stripped lines of the file in their
    order, without the empty lines and without the lines that start with
    [#]; a file that does not exist gives the empty list. *)
Theorem load_urls_skips_blank_and_comment_lines
    (strip : string -> string) (url_file : option (list string)) :
  (forall u,
     In u (load_urls_from_file strip url_file) ->
     u <> "" /\ String.prefix "#" u = false
     /\ exists lines line,
          url_file = Some lines /\ In line lines /\ u = strip line)
  /\ (forall lines line,
        url_file = Some lines ->
        In line lines ->
        strip line <> "" ->
        String.prefix "#" (strip line) = false ->
        In (strip line) (load_urls_from_file strip url_file))
  /\ (forall lines,
        url_file = Some lines ->
        subsequence (load_urls_from_file strip url_file) (map strip lines))
  /\ (url_file = None -> load_urls_from_file strip url_file = []).
Proof.
  unfold load_urls_from_file.
  destruct url_file as [lines|].
  - split; [|split; [|split; [|discriminate]]].
    + intros u Hu. apply filter_In in Hu. destruct Hu as [Hin Hkeep].
      apply andb_true_iff in Hkeep. destruct Hkeep as [Hne Hhash].
      apply negb_true_iff in Hne, Hhash. apply String.eqb_neq in Hne.
      apply in_map_iff in Hin. destruct Hin as [line [Hline Hin]].
      split; [exact Hne|]. split; [exact Hhash|].
      exists lines, line. auto.
    + intros lines' line Hfile Hin Hne Hhash.
      inversion Hfile; subst lines'. apply filter_In. split.
      * apply in_map. exact Hin.
      * apply String.eqb_neq in Hne. rewrite Hne, Hhash. reflexivity.
    + intros lines' Hfile. inversion Hfile; subst lines'.
      apply filter_subsequence.
  - split; [intros u []|]. split; [discriminate|].
    split; [discriminate|reflexivity].
Qed.

End UrlFile.

Section ScrapeRetries.

Import Db.
Import Ingest.

Variable extract_item_id : string -> option string.
Variable web : nat -> option page.

Lemma scrape_attempts_spec (n : nat) :
  forall attempt url item_id st,
    (n + attempt = MAX_RETRIES)%nat ->
    let run := scrape_attempts web n attempt url item_id st in
    (requests st <= requests (snd run) <= requests st + n)%nat
    /\ 0 <= slept (snd run) - slept st
         <= 2 * Z.of_nat (MAX_RETRIES - 1 - attempt)
    /\ (forall d,
          fst run = Some d ->
          pd_item_id d = item_id
          /\ pd_item_name d <> ""
          /\ pd_affiliate_url d = Some url
          /\ (0 < requests (snd run))%nat
          /\ web (pred (requests (snd run))) <> None)
    /\ (fst run = None ->
        requests (snd run) = (requests st + n)%nat
        /\ slept (snd run) - slept st
           = 2 * Z.of_nat (Nat.min n (MAX_RETRIES - 1 - attempt))
        /\ forall j, (j < n)%nat -> web (requests st + j) = None).
Proof.
  unfold MAX_RETRIES.
  induction n as [|n IH]; intros attempt url item_id st Hn;
    cbn [scrape_attempts fst snd].
  - split; [lia|]. split; [lia|]. split; [discriminate|].
    intros _. split; [lia|]. split; [simpl; lia|]. intros j Hj. lia.
  - destruct (web (requests st)) as [pg|] eqn:Hweb.
    + cbn [fst snd count_request requests slept].
      split; [lia|]. split; [lia|]. split; [|discriminate].
      intros d Hd. inversion Hd; subst d; clear Hd.
      cbn [pd_item_id pd_item_name pd_affiliate_url pred].
      split; [reflexivity|]. split.
      * destruct (pg_name pg) as [[|a name]|]; simpl; discriminate.
      * split; [reflexivity|]. split; [lia|]. congruence.
    + set (st2 := if (attempt <? MAX_RETRIES - 1)%nat
                  then sleep RETRY_DELAY (count_request st)
                  else count_request st).
      assert (Hreq : requests st2 = S (requests st)).
      { unfold st2. destruct (attempt <? MAX_RETRIES - 1)%nat; reflexivity. }
      assert (Hslept :
        slept st2
        = slept st + if (attempt <? 2)%nat then 2 else 0).
      { unfold st2, MAX_RETRIES, RETRY_DELAY. simpl (3 - 1)%nat.
        destruct (attempt <? 2)%nat; simpl; lia. }
      specialize (IH (S attempt) url item_id st2 ltac:(unfold MAX_RETRIES; lia)).
      cbv zeta in IH. unfold MAX_RETRIES in IH.
      destruct IH as [IHreq [IHslept [IHsome IHnone]]].
      change (if (attempt <? 3 - 1)%nat
              then sleep RETRY_DELAY (count_request st)
              else count_request st) with st2.
      rewrite Hreq, Hslept in *.
      destruct (Nat.ltb_spec attempt 2) as [Hlt|Hge].
      * split; [lia|]. split; [lia|]. split; [exact IHsome|].
        intros Hnone. specialize (IHnone Hnone).
        destruct IHnone as [Hr [Hs Hall]].
        split; [lia|]. split.
        { replace (Nat.min (S n) (3 - 1 - attempt))
            with (S (Nat.min n (3 - 1 - S attempt))) by lia. lia. }
        intros j Hj. destruct j as [|j].
        { replace (requests st + 0)%nat with (requests st) by lia.
          exact Hweb. }
        replace (requests st + S j)%nat with (S (requests st) + j)%nat
          by lia.
        apply Hall. lia.
      * split; [lia|]. split; [lia|]. split; [exact IHsome|].
        intros Hnone. specialize (IHnone Hnone).
        destruct IHnone as [Hr [Hs Hall]].
        split; [lia|]. split; [lia|].
        intros j Hj. destruct j as [|j].
        { replace (requests st + 0)%nat with (requests st) by lia.
          exact Hweb. }
        replace (requests st + S j)%nat with (S (requests st) + j)%nat
          by lia.
        apply Hall. lia.
Qed.


End ScrapeRetries.

Section Registration.

Import Db.
Import Ingest.

Variable extract_item_id : string -> option string.
Variable web : nat -> option page.
Variable now : string.

Lemma filter_absent (i : string) (l : list product) :
  find (has_item_id i) l = None ->
  filter (fun p => negb (has_item_id i p)) l = l.
Proof.
  induction l as [|p l IH]; simpl; [reflexivity|].
  destruct (has_item_id i p); [discriminate|].
  intros H. simpl. f_equal. apply IH. exact H.
Qed.

Lemma add_product_absent (d : product_data) (db : database) :
  get_product (pd_item_id d) db = None ->
  exists row,
    products (snd (add_product now d db)) = (products db ++ [row])%list
    /\ item_id row = pd_item_id d.
Proof.
  intros Habsent. unfold add_product. cbn [snd products].
  rewrite filter_absent by exact Habsent.
  eexists. split; reflexivity.
Qed.

Lemma scrape_product_facts (url : string) (st : net) :
  (requests st
   <= requests (snd (scrape_product extract_item_id web url st))
   <= requests st + 3)%nat
  /\ (forall d,
        fst (scrape_product extract_item_id web url st) = Some d ->
        extract_item_id url = Some (pd_item_id d)).
Proof.
  unfold scrape_product.
  destruct (extract_item_id url) as [item_id|];
    [|cbn [fst snd]; split; [lia|discriminate]].
  destruct (truthy (Some item_id));
    [|cbn [fst snd]; split; [lia|discriminate]].
  pose proof (scrape_attempts_spec web 3 0 url item_id st eq_refl) as H.
  cbv zeta in H. destruct H as [Hreq [_ [Hsome _]]].
  split; [exact Hreq|].
  intros d Hd. destruct (Hsome d Hd) as [Hi _]. congruence.
Qed.

Lemma register_urls_spec (urls : list string) :
  forall result d st,
    (success (fst (fst (register_urls extract_item_id web now urls result
                          d st)))
     + failed (fst (fst (register_urls extract_item_id web now urls result
                           d st)))
     + skipped (fst (fst (register_urls extract_item_id web now urls result
                            d st)))
     = success result + failed result + skipped result
       + List.length urls)%nat
    /\ (exists added,
          products (snd (fst (register_urls extract_item_id web now urls
                                result d st)))
          = (products d ++ added)%list
          /\ (success result + List.length added
              = success (fst (fst (register_urls extract_item_id web now
                                     urls result d st))))%nat)
    /\ posts (snd (fst (register_urls extract_item_id web now urls result
                          d st))) = posts d
    /\ (NoDup (map item_id (products d)) ->
        NoDup (map item_id
                 (products (snd (fst (register_urls extract_item_id web now
                                        urls result d st))))))
    /\ (requests st
        <= requests (snd (register_urls extract_item_id web now urls result
                            d st))
        <= requests st + 3 * List.length urls)%nat.
Proof.
  induction urls as [|url rest IH]; intros result d st.
  - cbn [register_urls fst snd List.length].
    split; [lia|]. split.
    + exists []. rewrite app_nil_r. split; [reflexivity|simpl; lia].
    + split; [reflexivity|]. split; [auto|lia].
  - cbn [register_urls List.length].
    set (fail := {| success := success result; failed := S (failed result);
                    skipped := skipped result |}).
    assert (Hfail :
      forall st1,
        (requests st <= requests st1 <= requests st + 3)%nat ->
        (success (fst (fst (register_urls extract_item_id web now rest fail
                              d st1)))
         + failed (fst (fst (register_urls extract_item_id web now rest
                               fail d st1)))
         + skipped (fst (fst (register_urls extract_item_id web now rest
                                fail d st1)))
         = success result + failed result + skipped result
           + S (List.length rest))%nat
        /\ (exists added,
              products (snd (fst (register_urls extract_item_id web now
                                    rest fail d st1)))
              = (products d ++ added)%list
              /\ (success result + List.length added
                  = success (fst (fst (register_urls extract_item_id web
                                         now rest fail d st1))))%nat)
        /\ posts (snd (fst (register_urls extract_item_id web now rest fail
                              d st1))) = posts d
        /\ (NoDup (map item_id (products d)) ->
            NoDup (map item_id
                     (products (snd (fst (register_urls extract_item_id web
                                            now rest fail d st1))))))
        /\ (requests st
            <= requests (snd (register_urls extract_item_id web now rest
                                fail d st1))
            <= requests st + 3 * S (List.length rest))%nat).
    { intros st1 Hst1.
      destruct (IH fail d st1) as [Hsum [Hadded [Hposts [Hnd Hreq]]]].
      cbn [success failed skipped fail] in Hsum, Hadded.
      split; [lia|]. split; [exact Hadded|]. split; [exact Hposts|].
      split; [exact Hnd|lia]. }
    destruct (extract_item_id url) as [item_id|] eqn:Hid;
      [|apply Hfail; lia].
    destruct (negb (truthy (Some item_id))); [apply Hfail; lia|].
    destruct (get_product item_id d) as [existing|] eqn:Hexisting.
    { destruct (IH {| success := success result; failed := failed result;
                      skipped := S (skipped result) |} d st)
        as [Hsum [Hadded [Hposts [Hnd Hreq]]]].
      cbn [success failed skipped] in Hsum, Hadded.
      split; [lia|]. split; [exact Hadded|]. split; [exact Hposts|].
      split; [exact Hnd|lia]. }
    destruct (scrape_product_facts url st) as [Hscrape Hsome].
    destruct (scrape_product extract_item_id web url st) as [pd st1]
      eqn:Hrun.
    cbn [fst snd] in Hscrape, Hsome.
    assert (Hst2 :
      (requests st <= requests (sleep 1 st1) <= requests st + 3)%nat)
      by (cbn [sleep requests]; exact Hscrape).
    destruct pd as [pd|]; [|apply Hfail; exact Hst2].
    destruct (validate_product_data (Some (pd_item_id pd))
                (Some (pd_item_name pd))); [|apply Hfail; exact Hst2].
    specialize (Hsome pd eq_refl).
    assert (Hpd : pd_item_id pd = item_id) by congruence.
    destruct (add_product_absent pd d) as [row [Hrow _]];
      [rewrite Hpd; exact Hexisting|].
    destruct (IH {| success := S (success result); failed := failed result;
                    skipped := skipped result |}
                (snd (add_product now pd d)) (sleep 1 st1))
      as [Hsum [[added [Hadded Hcount]] [Hposts [Hnd Hreq]]]].
    cbn [success failed skipped] in Hsum, Hcount.
    split; [lia|]. split.
    + exists (row :: added). rewrite Hadded, Hrow, <- app_assoc.
      split; [reflexivity|]. cbn [List.length]. lia.
    + split; [rewrite Hposts; reflexivity|]. split.
      * intros Hd. apply Hnd. apply add_product_item_ids_NoDup. exact Hd.
      * cbn [sleep requests] in Hreq, Hst2. lia.
Qed.

(** X23. [register_products_from_urls] accounts for every URL of the file once,
    as registered, failed or skipped. It only appends rows: a product that
    was in the table before reads back unchanged, statistics included, the
    publish log is untouched, [item_id] stays unique, and as many rows are
    appended as registrations are counted. It sends at most three requests
    per URL. *)
Theorem register_products_from_urls_appends_only
    (strip : string -> string) (url_file : option (list string))
    (d : database) (st : net) :
  (success (fst (fst (register_products_from_urls extract_item_id web now
                        strip url_file d st)))
   + failed (fst (fst (register_products_from_urls extract_item_id web now
                         strip url_file d st)))
   + skipped (fst (fst (register_products_from_urls extract_item_id web now
                          strip url_file d st)))
   = List.length (load_urls_from_file strip url_file))%nat
  /\ (exists added,
        products (snd (fst (register_products_from_urls extract_item_id web
                              now strip url_file d st)))
        = (products d ++ added)%list
        /\ List.length added
           = success (fst (fst (register_products_from_urls extract_item_id
                                  web now strip url_file d st))))
  /\ (forall i p,
        get_product i d = Some p ->
        get_product i
          (snd (fst (register_products_from_urls extract_item_id web now
                       strip url_file d st))) = Some p)
  /\ posts (snd (fst (register_products_from_urls extract_item_id web now
                        strip url_file d st))) = posts d
  /\ (NoDup (map item_id (products d)) ->
      NoDup (map item_id
               (products (snd (fst (register_products_from_urls
                                      extract_item_id web now strip url_file
                                      d st))))))
  /\ (requests (snd (register_products_from_urls extract_item_id web now
                       strip url_file d st))
      <= requests st + 3 * List.length (load_urls_from_file strip url_file))%nat.
Proof.
  unfold register_products_from_urls.
  destruct (register_urls_spec (load_urls_from_file strip url_file)
              {| success := 0; failed := 0; skipped := 0 |} d st)
    as [Hsum [[added [Hadded Hcount]] [Hposts [Hnd Hreq]]]].
  cbn [success failed skipped] in Hsum, Hcount.
  split; [lia|]. split; [exists added; split; [exact Hadded|lia]|].
  split.
  - intros i p Hp. unfold get_product in *. rewrite Hadded.
    apply find_app_some. exact Hp.
  - split; [exact Hposts|]. split; [exact Hnd|lia].
Qed.

End Registration.

Section CsvImport.

Import Db.
Import Ingest.

Variable parse_int : string -> option Z.
Variable now : string.

Lemma register_rows_spec (rows : list csv_row) :
  forall result d,
    (success result
     <= success (fst (register_rows parse_int now rows result d)))%nat
    /\ (failed result
        <= failed (fst (register_rows parse_int now rows result d)))%nat
    /\ (success (fst (register_rows parse_int now rows result d))
        + failed (fst (register_rows parse_int now rows result d))
        <= success result + failed result + List.length rows)%nat
    /\ (forallb (price_parses parse_int) rows = true ->
        (success (fst (register_rows parse_int now rows result d))
         + failed (fst (register_rows parse_int now rows result d))
         = success result + failed result + List.length rows)%nat)
    /\ posts (snd (register_rows parse_int now rows result d)) = posts d
    /\ (NoDup (map item_id (products d)) ->
        NoDup (map item_id
                 (products (snd (register_rows parse_int now rows result
                                   d)))))
    /\ products_seq (snd (register_rows parse_int now rows result d))
       = products_seq d
         + Z.of_nat (success (fst (register_rows parse_int now rows result
                                     d))
                     - success result).
Proof.
  induction rows as [|row rest IH]; intros result d.
  - cbn [register_rows fst snd List.length forallb].
    repeat split; auto; lia.
  - cbn [register_rows List.length forallb]. unfold price_parses at 1.
    pose (P := fun (parsed : bool) (run : tally * database) =>
      (success result <= success (fst run))%nat
      /\ (failed result <= failed (fst run))%nat
      /\ (success (fst run) + failed (fst run)
          <= success result + failed result + S (List.length rest))%nat
      /\ (parsed && forallb (price_parses parse_int) rest = true ->
          (success (fst run) + failed (fst run)
           = success result + failed result + S (List.length rest))%nat)
      /\ posts (snd run) = posts d
      /\ (NoDup (map item_id (products d)) ->
          NoDup (map item_id (products (snd run))))
      /\ products_seq (snd run)
         = products_seq d + Z.of_nat (success (fst run) - success result)).
    assert (Hstop : P false (result, d)).
    { unfold P. cbn [fst snd andb].
      repeat split; auto; try lia; try discriminate. }
    assert (Hnext :
      forall r d1,
        (success r + failed r = S (success result + failed result))%nat ->
        (success result <= success r)%nat ->
        (failed result <= failed r)%nat ->
        posts d1 = posts d ->
        (NoDup (map item_id (products d)) ->
         NoDup (map item_id (products d1))) ->
        products_seq d1
        = products_seq d + Z.of_nat (success r - success result) ->
        P true (register_rows parse_int now rest r d1)).
    { intros r d1 Hsum Hs Hf Hposts Hnd Hseq.
      destruct (IH r d1) as [H1 [H2 [H3 [H4 [H5 [H6 H7]]]]]].
      unfold P. cbn [andb].
      split; [lia|]. split; [lia|]. split; [lia|].
      split; [intros Hall; specialize (H4 Hall); lia|].
      split; [congruence|]. split; [auto|].
      rewrite H7, Hseq. lia. }
    assert (Hgo :
      forall price,
        P true
          (if validate_product_data (csv_item_id row) (csv_item_name row)
           then
             match csv_item_id row, csv_item_name row with
             | Some item_id, Some item_name =>
               register_rows parse_int now rest
                 {| success := S (success result);
                    failed := failed result;
                    skipped := skipped result |}
                 (snd (add_product now
                         {| pd_item_id := item_id;
                            pd_item_name := item_name;
                            pd_price := price;
                            pd_image_url := csv_image_url row;
                            pd_category := csv_category row;
                            pd_description := csv_description row;
                            pd_affiliate_url := csv_affiliate_url row |} d))
             | _, _ => (result, d)
             end
           else
             register_rows parse_int now rest
               {| success := success result;
                  failed := S (failed result);
                  skipped := skipped result |} d)).
    { intros price.
      assert (Hfailed :
        P true
          (register_rows parse_int now rest
             {| success := success result; failed := S (failed result);
                skipped := skipped result |} d)).
      { apply Hnext; cbn [success failed]; auto; lia. }
      unfold validate_product_data.
      destruct (csv_item_id row) as [item_id|];
        [|cbn [truthy andb]; exact Hfailed].
      destruct (truthy (Some item_id)); cbn [andb]; [|exact Hfailed].
      destruct (csv_item_name row) as [item_name|];
        [|cbn [truthy]; exact Hfailed].
      destruct (truthy (Some item_name)); [|exact Hfailed].
      apply Hnext; cbn [success failed]; try lia.
      - reflexivity.
      - apply add_product_item_ids_NoDup.
      - unfold add_product. cbn [snd products_seq]. lia. }
    destruct (csv_price row) as [s|]; [|exact (Hgo None)].
    destruct (truthy (Some s)); [|exact (Hgo None)].
    destruct (parse_int s) as [z|]; [exact (Hgo (Some z))|exact Hstop].
Qed.

Lemma register_rows_stops (rows1 : list csv_row) :
  forall row rows2 result d,
    forallb (price_parses parse_int) rows1 = true ->
    price_parses parse_int row = false ->
    register_rows parse_int now (rows1 ++ row :: rows2) result d
    = register_rows parse_int now rows1 result d.
Proof.
  induction rows1 as [|r rows1 IH]; intros row rows2 result d Hall Hbad.
  - cbn [app register_rows]. unfold price_parses in Hbad.
    destruct (csv_price row) as [s|]; [|discriminate].
    destruct (truthy (Some s)); [|discriminate].
    destruct (parse_int s); [discriminate|reflexivity].
  - cbn [forallb] in Hall. apply andb_true_iff in Hall.
    destruct Hall as [Hr Hall].
    cbn [app register_rows]. unfold price_parses in Hr.
    destruct (csv_price r) as [s|];
      [destruct (truthy (Some s));
       [destruct (parse_int s); [|discriminate]|]|];
      (destruct (validate_product_data (csv_item_id r) (csv_item_name r));
       [destruct (csv_item_id r), (csv_item_name r); try reflexivity|];
       apply IH; assumption).
Qed.

(** X24. [register_product_from_csv] counts every row as registered or failed
    when every price column is empty or a number. A price that is not a
    number ends the import at that row: the rows before it are processed as
    usual, and neither that row nor any row after it is registered or
    counted. The import never touches the publish log, keeps [item_id]
    unique, and hands out as many row ids as it counts registrations. A file
    that does not exist registers nothing. *)
Theorem register_product_from_csv_counts
    (csv_file : option (list csv_row)) (d : database) :
  (forall rows,
     csv_file = Some rows ->
     (success (fst (register_product_from_csv parse_int now csv_file d))
      + failed (fst (register_product_from_csv parse_int now csv_file d))
      <= List.length rows)%nat
     /\ (forallb (price_parses parse_int) rows = true ->
         (success (fst (register_product_from_csv parse_int now csv_file d))
          + failed (fst (register_product_from_csv parse_int now csv_file
                           d))
          = List.length rows)%nat)
     /\ (forall rows1 row rows2,
           rows = (rows1 ++ row :: rows2)%list ->
           forallb (price_parses parse_int) rows1 = true ->
           price_parses parse_int row = false ->
           register_product_from_csv parse_int now csv_file d
           = register_product_from_csv parse_int now (Some rows1) d))
  /\ (csv_file = None ->
      register_product_from_csv parse_int now csv_file d
      = ({| success := 0; failed := 0; skipped := 0 |}, d))
  /\ posts (snd (register_product_from_csv parse_int now csv_file d))
     = posts d
  /\ (NoDup (map item_id (products d)) ->
      NoDup (map item_id
               (products (snd (register_product_from_csv parse_int now
                                 csv_file d)))))
  /\ products_seq (snd (register_product_from_csv parse_int now csv_file d))
     = products_seq d
       + Z.of_nat (success (fst (register_product_from_csv parse_int now
                                   csv_file d))).
Proof.
  unfold register_product_from_csv.
  destruct csv_file as [rows|].
  - destruct (register_rows_spec rows
                {| success := 0; failed := 0; skipped := 0 |} d)
      as [H1 [H2 [H3 [H4 [H5 [H6 H7]]]]]].
    cbn [success failed] in *.
    split; [|split; [discriminate|split; [exact H5|split; [exact H6|]]]].
    + intros rows' Hrows. inversion Hrows; subst rows'.
      split; [lia|]. split; [intros Hall; specialize (H4 Hall); lia|].
      intros rows1 row rows2 -> Hall Hbad.
      apply register_rows_stops; assumption.
    + rewrite H7. f_equal. lia.
  - cbn [fst snd success]. split; [discriminate|].
    split; [reflexivity|]. split; [reflexivity|]. split; [auto|lia].
Qed.

End CsvImport.

(** * Properties of the image hosting *)

Section Downloads.

Import ImageHost.

Variable suffix_lower : string -> string.
Variable temp_stem : string.
Variable download : nat -> download_reply.

Lemma download_attempts_spec (n : nat) :
  forall attempt save_path h,
    (n + attempt = MAX_RETRIES)%nat ->
    (requests h
     <= requests (snd (download_attempts download n attempt save_path h))
     <= requests h + n)%nat
    /\ 0 <= slept (snd (download_attempts download n attempt save_path h))
            - slept h
         <= 2 * Z.of_nat (MAX_RETRIES - 1 - attempt)
    /\ (forall f,
          In f (files (snd (download_attempts download n attempt save_path
                              h))) ->
          f = save_path \/ In f (files h))
    /\ (forall f,
          In f (files h) ->
          In f (files (snd (download_attempts download n attempt save_path
                              h))))
    /\ (forall p,
          fst (download_attempts download n attempt save_path h) = Some p ->
          p = save_path
          /\ file_exists p
               (snd (download_attempts download n attempt save_path h))
             = true
          /\ (0 < requests (snd (download_attempts download n attempt
                                   save_path h)))%nat
          /\ saves (download
                      (pred (requests
                               (snd (download_attempts download n attempt
                                       save_path h))))) = true).
Proof.
  unfold MAX_RETRIES.
  induction n as [|n IH]; intros attempt save_path h Hn;
    cbn [download_attempts fst snd].
  - split; [lia|]. split; [lia|]. split; [auto|]. split; [auto|].
    discriminate.
  - assert (Hretry :
      forall h2,
        requests h2 = S (requests h) ->
        slept h2 = slept h ->
        (forall f, In f (files h2) -> f = save_path \/ In f (files h)) ->
        (forall f, In f (files h) -> In f (files h2)) ->
        saves (download (requests h)) = false ->
        let run :=
          download_attempts download n (S attempt) save_path
            (if (attempt <? 3 - 1)%nat then sleep RETRY_DELAY h2 else h2) in
        (requests h <= requests (snd run) <= requests h + S n)%nat
        /\ 0 <= slept (snd run) - slept h <= 2 * Z.of_nat (3 - 1 - attempt)
        /\ (forall f,
              In f (files (snd run)) -> f = save_path \/ In f (files h))
        /\ (forall f, In f (files h) -> In f (files (snd run)))
        /\ (forall p,
              fst run = Some p ->
              p = save_path
              /\ file_exists p (snd run) = true
              /\ (0 < requests (snd run))%nat
              /\ saves (download (pred (requests (snd run)))) = true)).
    { intros h2 Hreq Hslept Hnew Hold Hno run. subst run.
      set (h3 := if (attempt <? 3 - 1)%nat then sleep RETRY_DELAY h2
                 else h2).
      assert (Hreq3 : requests h3 = S (requests h)).
      { unfold h3. destruct (attempt <? 3 - 1)%nat; simpl; exact Hreq. }
      assert (Hfiles3 : files h3 = files h2).
      { unfold h3. destruct (attempt <? 3 - 1)%nat; reflexivity. }
      assert (Hslept3 :
        slept h3 = slept h + if (attempt <? 2)%nat then 2 else 0).
      { unfold h3, RETRY_DELAY. simpl (3 - 1)%nat.
        destruct (attempt <? 2)%nat; simpl; lia. }
      destruct (IH (S attempt) save_path h3 ltac:(lia))
        as [IHreq [IHslept [IHnew [IHold IHsome]]]].
      rewrite Hreq3, Hslept3, Hfiles3 in *.
      split; [lia|]. split.
      { destruct (Nat.ltb_spec attempt 2); lia. }
      split.
      { intros f Hf. apply IHnew in Hf. destruct Hf as [Hf|Hf]; auto. }
      split; [intros f Hf; apply IHold, Hold, Hf|exact IHsome]. }
    assert (Hsave :
      saves (download (requests h)) = true ->
      let run := (Some save_path, write_file save_path (count_request h)) in
      (requests h <= requests (snd run) <= requests h + S n)%nat
      /\ 0 <= slept (snd run) - slept h <= 2 * Z.of_nat (3 - 1 - attempt)
      /\ (forall f,
            In f (files (snd run)) -> f = save_path \/ In f (files h))
      /\ (forall f, In f (files h) -> In f (files (snd run)))
      /\ (forall p,
            fst run = Some p ->
            p = save_path
            /\ file_exists p (snd run) = true
            /\ (0 < requests (snd run))%nat
            /\ saves (download (pred (requests (snd run)))) = true)).
    { intros Hyes run. subst run.
      cbn [fst snd write_file count_request requests slept files pred].
      split; [lia|]. split; [lia|]. split.
      { intros f [Hf|Hf]; auto. }
      split; [intros f Hf; right; exact Hf|].
      intros p Hp. inversion Hp; subst p.
      split; [reflexivity|]. split.
      { unfold file_exists. simpl.
        rewrite String.eqb_refl. reflexivity. }
      split; [lia|exact Hyes]. }
    destruct (download (requests h)) as [|[len|] [|]] eqn:Hreply;
      cbn [saves] in Hretry, Hsave.
    + apply Hretry; auto.
    + destruct (MAX_IMAGE_SIZE <? len) eqn:Hbig.
      * cbn [fst snd count_request requests slept files].
        split; [lia|]. split; [lia|]. split; [auto|]. split; [auto|].
        discriminate.
      * apply Hsave. reflexivity.
    + destruct (MAX_IMAGE_SIZE <? len) eqn:Hbig.
      * cbn [fst snd count_request requests slept files].
        split; [lia|]. split; [lia|]. split; [auto|]. split; [auto|].
        discriminate.
      * apply Hretry; auto.
        -- intros f [Hf|Hf]; auto.
        -- intros f Hf. right. exact Hf.
    + apply Hsave. reflexivity.
    + apply Hretry; auto.
      * intros f [Hf|Hf]; auto.
      * intros f Hf. right. exact Hf.
Qed.

End Downloads.

Section HostedUrl.

Import ImageHost.

Variable IMGBB_API_KEY : string.
Variable suffix_lower : string -> string.
Variable with_jpg_suffix : string -> string.
Variable temp_stem : string.
Variable download : nat -> download_reply.
Variable file_size : string -> Z.
Variable verifies : string -> bool.
Variable optimize : string -> optimize_outcome.
Variable imgbb : string -> option string.

Lemma supported_In (ext : string) :
  supported ext = true -> In ext SUPPORTED_FORMATS.
Proof.
  unfold supported. intros H. apply existsb_exists in H.
  destruct H as [x [Hin Heq]]. apply String.eqb_eq in Heq. subst. exact Hin.
Qed.

(** X25. [download_image] sends at most three requests and sleeps two seconds
    after each of the first two failed attempts only; it sends nothing for an
    empty URL. When it returns a path, the file exists and the last answer
    was a complete body that is not announced as too large. An answer that
    announces more than [MAX_IMAGE_SIZE] bytes ends the download at once,
    without another attempt, without a sleep and without a file. The path it
    makes up always carries one of the supported extensions. *)
Theorem download_image_retries (url : string) (save_path : option string)
    (h : host) :
  (requests h
   <= requests (snd (download_image suffix_lower temp_stem download url
                       save_path h))
   <= requests h + 3)%nat
  /\ 0 <= slept (snd (download_image suffix_lower temp_stem download url
                        save_path h)) - slept h <= 4
  /\ (url = "" ->
      download_image suffix_lower temp_stem download url save_path h
      = (None, h))
  /\ (forall p,
        fst (download_image suffix_lower temp_stem download url save_path h)
        = Some p ->
        file_exists p
          (snd (download_image suffix_lower temp_stem download url
                  save_path h)) = true
        /\ saves (download
                    (pred (requests
                             (snd (download_image suffix_lower temp_stem
                                     download url save_path h))))) = true)
  /\ (url <> "" ->
      oversized (download (requests h)) = true ->
      download_image suffix_lower temp_stem download url save_path h
      = (None, count_request h))
  /\ (exists ext,
        In ext SUPPORTED_FORMATS
        /\ temp_path suffix_lower temp_stem url
           = (temp_stem ++ ext)%string).
Proof.
  unfold download_image.
  assert (Hext :
    exists ext,
      In ext SUPPORTED_FORMATS
      /\ temp_path suffix_lower temp_stem url = (temp_stem ++ ext)%string).
  { unfold temp_path.
    destruct (supported
                (if String.eqb (suffix_lower url) "" then ".jpg"
                 else suffix_lower url)) eqn:Hsup.
    - eexists. split; [apply supported_In; exact Hsup|reflexivity].
    - exists ".jpg". split; [left; reflexivity|reflexivity]. }
  destruct (String.eqb url "") eqn:Hurl.
  - apply String.eqb_eq in Hurl. cbn [fst snd].
    split; [lia|]. split; [lia|]. split; [reflexivity|].
    split; [discriminate|]. split; [congruence|exact Hext].
  - apply String.eqb_neq in Hurl.
    set (path := match save_path with
                 | Some p =>
                   if String.eqb p "" then temp_path suffix_lower temp_stem url
                   else p
                 | None => temp_path suffix_lower temp_stem url
                 end).
    destruct (download_attempts_spec download 3 0 path h eq_refl)
      as [Hreq [Hslept [_ [_ Hsome]]]].
    change (Z.of_nat (MAX_RETRIES - 1 - 0)) with 2 in Hslept.
    unfold MAX_RETRIES.
    split; [exact Hreq|]. split; [lia|]. split; [congruence|].
    split.
    + intros p Hp. destruct (Hsome p Hp) as [_ [Hfile [_ Hsaves]]]. auto.
    + split; [|exact Hext].
      intros _ Hbig. cbn [download_attempts]. unfold oversized in Hbig.
      destruct (download (requests h)) as [|[len|] body];
        try discriminate.
      rewrite Hbig. reflexivity.
Qed.



End HostedUrl.

Section PostProduct.

Import Main.

(** X7. [post_product] returns none exactly when publish-init fails, and then
    without a single status check. Otherwise its result carries the
    [publish_id] that init returned; [success] is true exactly when the
    final status is PUBLISH_COMPLETE, and any other result ends in FAILED or
    TIMEOUT. *)
Theorem post_product_outcome (fuel : nat) (e : env)
    (post_text image_url : string) (c c' : Poster.clock)
    (outcome : option post_outcome) :
  post_product fuel e post_text image_url c = Returned (outcome, c') ->
  (outcome = None <-> init_photo_post e image_url post_text = None)
  /\ (outcome = None -> c' = c)
  /\ (forall res,
        outcome = Some res ->
        init_photo_post e image_url post_text = Some (publish_id res)
        /\ (success res = true <-> status res = Poster.STATUS_PUBLISH_COMPLETE)
        /\ (success res = true -> fail_reason res = "")
        /\ (success res = false ->
            status res = Poster.STATUS_FAILED \/ status res = "TIMEOUT")).
Proof.
  unfold post_product. intros Hrun.
  destruct (init_photo_post e image_url post_text) as [pid|].
  - destruct (Poster.wait_for_publish fuel (status_endpoint e) 120 5 c)
      as [| |[r c'']] eqn:Hwait; try discriminate.
    inversion Hrun; subst; clear Hrun.
    split; [split; discriminate|]. split; [discriminate|].
    intros res Hres. inversion Hres; subst res; clear Hres.
    cbn [publish_id success status fail_reason].
    split; [reflexivity|].
    apply wait_loop_returns_inv in Hwait.
    destruct Hwait as [[-> _]|[sr [_ [-> _]]]].
    + cbn. repeat split; try discriminate. intros _. right. reflexivity.
    + unfold Poster.result_of.
      destruct (Poster.status_is (Poster.sr_status sr)
                  Poster.STATUS_PUBLISH_COMPLETE); cbn;
        repeat split; try discriminate; auto.
  - inversion Hrun; subst. repeat split; auto; discriminate.
Qed.

Lemma post_product_outcome_witness :
  (@None post_outcome = None
   <-> init_photo_post
         (Scenarios.orchestrator_env None Scenarios.third_poll_source)
         "https://host/img.jpg" "PR hello" = None)
  /\ (@None post_outcome = None -> Scenarios.clock0 = Scenarios.clock0)
  /\ (forall res,
        None = Some res ->
        init_photo_post
          (Scenarios.orchestrator_env None Scenarios.third_poll_source)
          "https://host/img.jpg" "PR hello" = Some (publish_id res)
        /\ (success res = true <-> status res = Poster.STATUS_PUBLISH_COMPLETE)
        /\ (success res = true -> fail_reason res = "")
        /\ (success res = false ->
            status res = Poster.STATUS_FAILED \/ status res = "TIMEOUT")).
Proof.
  apply (post_product_outcome 200
           (Scenarios.orchestrator_env None Scenarios.third_poll_source)
           "PR hello" "https://host/img.jpg" Scenarios.clock0
           Scenarios.clock0 None).
  reflexivity.
Defined.

End PostProduct.

Lemma add_product_keeps_item_id_unique_witness :
  NoDup
    (map Db.item_id
       (Db.products
          (snd (Db.add_product "2025-04-01T10:00:00" Scenarios.p1_data
                  (Scenarios.database_of [Scenarios.posted_p1]))))).
Proof.
  refine (proj1 (add_product_keeps_item_id_unique "2025-04-01T10:00:00"
                   Scenarios.p1_data
                   (Scenarios.database_of [Scenarios.posted_p1]) _)).
  simpl. repeat constructor. simpl. tauto.
Defined.

(** * Properties of the code exchange and of the publish requests *)

Section ApiRequests.

Import TokenManager.
Import TokenOutcomes.
Import PublishApi.


(** X28. [init_photo_post] sends at most one request and none without an
    access token: when [get_access_token] yields no token or an empty one
    (as for an expired record whose refresh is refused) the publish fails
    before any request. It returns a [publish_id] only for an answer with
    status 200, error code ok and a [publish_id] that is not empty, and then
    returns exactly that id. *)
Theorem init_photo_post_needs_token (e : env) (m : manager)
    (endpoint : option init_answer) :
  (snd (init_photo_post e m endpoint) <= 1)%nat
  /\ (truthy (fst (get_access_token e m)) = false ->
      fst (fst (init_photo_post e m endpoint)) = None
      /\ snd (init_photo_post e m endpoint) = O)
  /\ (forall pid,
        fst (fst (init_photo_post e m endpoint)) = Some pid ->
        truthy (fst (get_access_token e m)) = true
        /\ pid <> ""
        /\ snd (init_photo_post e m endpoint) = 1%nat
        /\ exists result,
             endpoint = Some result
             /\ status_code result = 200
             /\ error_code result = Some "ok"
             /\ data_publish_id result = Some pid)
  /\ (forall t,
        TIKTOK_ACCESS_TOKEN e = "" ->
        tokens_file m = Stored t ->
        expired e t = true ->
        refresh_refused e t ->
        fst (fst (init_photo_post e m endpoint)) = None
        /\ snd (init_photo_post e m endpoint) = O)
  /\ snd (fst (init_photo_post e m endpoint)) = snd (get_access_token e m).
Proof.
  assert (Hnone :
    truthy (fst (get_access_token e m)) = false ->
    fst (fst (init_photo_post e m endpoint)) = None
    /\ snd (init_photo_post e m endpoint) = O).
  { unfold init_photo_post, _get_headers.
    destruct (get_access_token e m) as [tok m']. cbn [fst].
    intros Hno. rewrite Hno. split; reflexivity. }
  split; [|split; [exact Hnone|split; [|split]]].
  - unfold init_photo_post, _get_headers.
    destruct (get_access_token e m) as [tok m'].
    destruct (truthy tok); [|cbn; lia].
    destruct tok as [tok|]; [|cbn; lia].
    destruct endpoint as [result|]; [|cbn; lia].
    destruct ((status_code result =? 200) && _); [|cbn; lia].
    destruct (truthy (data_publish_id result)); cbn; lia.
  - unfold init_photo_post, _get_headers.
    destruct (get_access_token e m) as [tok m']. cbn [fst].
    intros pid Hpid.
    destruct (truthy tok) eqn:Htok; [|discriminate].
    destruct tok as [tok|]; [|discriminate].
    destruct endpoint as [result|]; [|discriminate].
    destruct (Z.eqb_spec (status_code result) 200) as [Hcode|];
      [|discriminate].
    destruct (error_code result) as [c|] eqn:Herr; [|discriminate].
    destruct (String.eqb_spec c "ok") as [->|]; [|discriminate].
    cbn [andb] in Hpid.
    destruct (truthy (data_publish_id result)) eqn:Htruthy;
      [|discriminate].
    cbn [fst snd] in *. split; [reflexivity|]. split.
    + rewrite Hpid in Htruthy. intros ->. discriminate.
    + split; [reflexivity|]. exists result. auto.
  - intros t Hkey Hfile Hexp Hrefused. apply Hnone.
    assert (Hget : fst (get_access_token e m) = None).
    { rewrite (get_access_token_expired e m t Hkey Hfile Hexp).
      pose proof (expired_not_empty e t Hexp) as Hne.
      destruct (refresh_access_token_cases e
                  {| tokens_file := Stored t; _tokens := Some t;
                     refresh_calls := refresh_calls m;
                     endpoint_calls := endpoint_calls m |} t eq_refl Hne)
        as [Hmissing Hpresent].
      destruct Hrefused as [Hno|[rt [Hrt Hanswer]]].
      - rewrite (Hmissing Hno). reflexivity.
      - destruct (truthy (Some rt)) eqn:Htruthy.
        + specialize (Hpresent rt Hrt Htruthy).
          destruct Hanswer as [Hn|[resp [Hresp Htok]]].
          * rewrite Hn in Hpresent. rewrite Hpresent. reflexivity.
          * rewrite Hresp, Htok in Hpresent. rewrite Hpresent.
            reflexivity.
        + rewrite <- Hrt in Htruthy. rewrite (Hmissing Htruthy).
          reflexivity. }
    rewrite Hget. reflexivity.
  - unfold init_photo_post, _get_headers.
    destruct (get_access_token e m) as [tok m'].
    destruct (truthy tok); [|reflexivity].
    destruct tok as [tok|]; [|reflexivity].
    destruct endpoint as [result|]; [|reflexivity].
    destruct ((status_code result =? 200) && _); [|reflexivity].
    destruct (truthy (data_publish_id result)); reflexivity.
Qed.

End ApiRequests.
